(** * photo-cli: the batch upload pipeline of [src/photo-cli.ts]

    A shallow embedding of the upload command ([uploadPhotos],
    [processPhoto], [getNextImageNumber], [hashExists], [renderProgress]
    and the helpers they call) together with the properties the
    specification states about sequencing, deduplication, failure
    accounting, progress reporting and windowed concurrency.  The other
    commands of the menu ([setFeatured], [clearFeatured], [resetDatabase],
    [resetCloudinary]) and [main] follow, with the properties the code
    itself shows.

    Conventions.
    - JavaScript strings are [string] (bytes of the UTF-8 encoding);
      Firestore orders string fields by their UTF-8 bytes, which is
      [String.compare], and [Array.prototype.sort] orders strings by
      their UTF-16 code units, which is [js_compare].
    - JavaScript numbers that hold counters and identifiers are [N]; they
      agree with the doubles of the program below [2^53], and theorems
      that compute an identifier carry that bound.  Numbers read from
      EXIF are binary64 [float]s.
    - The Firestore collection [photos] is a [gmap] from document id to
      record; the Cloudinary folder is a [gmap] from public id to asset.
    - The file system, the EXIF reader, the network and Node's library
      functions are fields of a [Host] record.
    - The units of one [Promise.all] window interleave at their [await]s;
      the interleaving is an explicit schedule (a list of choices). *)

From Stdlib Require Import ZArith NArith String Ascii List Floats.
From Stdlib Require Import DecimalString DecimalN DecimalPos.
From stdpp Require Import gmap strings list fin_maps sorting.

Local Open Scope string_scope.
Local Open Scope N_scope.

(** ** Results of fallible calls *)

Inductive result (A : Type) : Type :=
| Ok (a : A)
| Err (msg : string).
Arguments Ok {A} a.
Arguments Err {A} msg.

(** ** Strings *)

Module Str.

Fixpoint repeat (c : ascii) (n : nat) : string :=
  match n with
  | O => ""
  | S n' => String c (repeat c n')
  end.

(** [s.padStart(len, c)] for a one-character filler. *)
Definition padStart (len : nat) (c : ascii) (s : string) : string :=
  repeat c (len - String.length s) ++ s.

Definition is_digit (c : ascii) : bool :=
  (48 <=? N_of_ascii c) && (N_of_ascii c <=? 57).

Fixpoint all_digits (s : string) : bool :=
  match s with
  | "" => true
  | String c s' => is_digit c && all_digits s'
  end.

(** The longest run of decimal digits at the head of [s]: what a greedy
    [\d+] consumes. *)
Fixpoint take_digits (s : string) : string :=
  match s with
  | String c s' => if is_digit c then String c (take_digits s') else ""
  | "" => ""
  end.

Fixpoint drop (n : nat) (s : string) : string :=
  match n, s with
  | S n', String _ s' => drop n' s'
  | _, _ => s
  end.

(** [parseInt(s, 10)] on a string of decimal digits. *)
Fixpoint parse_acc (acc : N) (s : string) : N :=
  match s with
  | "" => acc
  | String c s' => parse_acc (10 * acc + (N_of_ascii c - 48)) s'
  end.

Definition parseInt (s : string) : N := parse_acc 0 s.

(** [String(n)] / [n.toString()] for a non-negative integer. *)
Definition ofN (n : N) : string := NilEmpty.string_of_uint (N.to_uint n).

(** [xs.join(sep)] *)
Fixpoint join (sep : string) (xs : list string) : string :=
  match xs with
  | [] => ""
  | [x] => x
  | x :: rest => x ++ sep ++ join sep rest
  end.

Definition lower (c : ascii) : ascii :=
  let n := N_of_ascii c in
  if (65 <=? n) && (n <=? 90) then ascii_of_N (n + 32) else c.

Fixpoint lowercase (s : string) : string :=
  match s with
  | "" => ""
  | String c s' => String (lower c) (lowercase s')
  end.

Definition ends_with (suffix s : string) : bool :=
  let n := String.length s in
  let k := String.length suffix in
  (k <=? n)%nat && String.eqb (drop (n - k) s) suffix.

(** [s.split('\n')] *)
Fixpoint split_lines_acc (cur : string) (s : string) : list string :=
  match s with
  | "" => [cur]
  | String c s' =>
      if Ascii.eqb c "010"%char
      then cur :: split_lines_acc "" s'
      else split_lines_acc (cur ++ String c "") s'
  end.

Definition split_lines (s : string) : list string := split_lines_acc "" s.

End Str.

(** [pad(num)]: [num.toString().padStart(4, '0')]. *)
Definition pad (num : N) : string := Str.padStart 4 "0"%char (Str.ofN num).

(** [isImage(file)]: the regular expression [/\.(jpg|jpeg|png|webp)$/i]. *)
Definition isImage (file : string) : bool :=
  let f := Str.lowercase file in
  Str.ends_with ".jpg" f || Str.ends_with ".jpeg" f
  || Str.ends_with ".png" f || Str.ends_with ".webp" f.

(** [lastTitle.match(/IMG-(\d+)/)]: the capture group of the leftmost
    occurrence of [IMG-] that is followed by a digit; the expression is
    not anchored. *)
Fixpoint match_IMG (s : string) : option string :=
  match s with
  | "" => None
  | String _ s' =>
      match (if String.prefix "IMG-" s
             then Str.take_digits (Str.drop 4 s) else "") with
      | "" => match_IMG s'
      | ds => Some ds
      end
  end.

(** ** The metadata store (Firestore collection [photos]) *)

Record PhotoRecord : Type := {
  title : string;
  imageUrl : string;
  width : N;
  height : N;
  camera : option string;
  aperture : option string;
  shutterSpeed : option string;
  iso : option float;
  shotDate : option Z;
  hash : string;
  featured : bool
}.

Abbreviation Store := (gmap string PhotoRecord).

Definition records (st : Store) : list PhotoRecord := (map_to_list st).*2.

Definition titles (st : Store) : list string := title <$> records st.

(** [collection('photos').where('hash', '==', h).limit(1).get()], then
    [!snap.empty]. *)
Definition hashExists (st : Store) (h : string) : bool :=
  existsb (fun r => String.eqb (hash r) h) (records st).

(** The first document of [orderBy('title', 'desc').limit(1)]. *)
Definition later_title (t : string) (acc : option string) : option string :=
  match acc with
  | None => Some t
  | Some m => Some (if String.leb m t then t else m)
  end.

Definition last_title (st : Store) : option string :=
  foldr later_title None (titles st).

Definition getNextImageNumber (st : Store) : N :=
  match last_title st with
  | None => 0
  | Some lastTitle =>
      match match_IMG lastTitle with
      | Some ds => Str.parseInt ds + 1
      | None => 0
      end
  end.

(** ** Candidates and the upload queue *)

Record PendingPhoto : Type := {
  filePath : string;
  p_hash : string
}.

Record QueueItem : Type := {
  q_filePath : string;
  q_hash : string;
  id : string
}.

(** [`IMG-${String(n).padStart(4, '0')}`] *)
Definition img_id (n : N) : string := "IMG-" ++ pad n.

(** [pending.map((item, index) => ({...item, id: ...}))] *)
Definition uploadQueue (counter : N) (pending : list PendingPhoto)
  : list QueueItem :=
  imap (fun index item =>
          {| q_filePath := filePath item;
             q_hash := p_hash item;
             id := img_id (counter + N.of_nat index) |}) pending.

(** The number read back from an identifier by the pattern of
    [getNextImageNumber]. *)
Definition id_number (t : string) : option N :=
  Str.parseInt <$> match_IMG t.

(** ** EXIF attributes and JavaScript numbers *)

(** The attributes picked by [exifr.parse]; a field is [None] when the
    parsed object has no such property.  [DateTimeOriginal] is the time
    value of the [Date], which [new Date(...)] copies. *)
Record Exif : Type := {
  Model : option string;
  FNumber : option float;
  ExposureTime : option float;
  ISO : option float;
  DateTimeOriginal : option Z
}.

Module Js.

(** ToBoolean of a number: false for [+0], [-0] and [NaN]. *)
Definition truthy (x : float) : bool :=
  negb (PrimFloat.eqb x 0 || PrimFloat.is_nan x).

(** An integral Number, or one of the values [Math.round] passes through. *)
Inductive integral : Type :=
| Int (z : Z)
| Infinite (negative : bool)
| NaN.

(** The exact value of a finite double [(-1)^s * m * 2^e] as a fraction:
    its numerator and its denominator, a power of two. *)
Definition fraction (s : bool) (m : positive) (e : Z) : Z * Z :=
  let v := if s then Z.neg m else Z.pos m in
  if (0 <=? e)%Z then (v * 2 ^ e, 1)%Z else (v, 2 ^ (- e))%Z.

(** [Math.round(x)]: the integer closest to [x], the larger one on a tie. *)
Definition Math_round (x : float) : integral :=
  match Prim2SF x with
  | S754_zero _ => Int 0
  | S754_infinity s => Infinite s
  | S754_nan => NaN
  | S754_finite s m e =>
      let '(n, d) := fraction s m e in
      Int ((2 * n + d) / (2 * d))%Z
  end.

Definition int_string (z : Z) : string :=
  if (z <? 0)%Z then "-" ++ Str.ofN (Z.abs_N z) else Str.ofN (Z.to_N z).

End Js.

(** ** The asset store (Cloudinary) *)

Inductive Condition : Type :=
| w_gt (n : N)
| h_gt (n : N).

Inductive CropMode : Type :=
| limit.

Record Transformation : Type := {
  t_if : Condition;
  t_width : N;
  t_height : N;
  t_crop : CropMode
}.

Record UploadRequest : Type := {
  u_file : string;
  folder : string;
  public_id : string;
  unique_filename : bool;
  overwrite : bool;
  transformation : list Transformation
}.

Record UploadResponse : Type := {
  secure_url : string;
  up_width : N;
  up_height : N
}.

Record Asset : Type := {
  a_source : string;
  a_width : N;
  a_height : N
}.

Abbreviation Assets := (gmap string Asset).

Definition CLOUDINARY_FOLDER : string := "photo-portfolio".
Definition CONCURRENCY : nat := 8.

(** ** The host: file system, libraries and remote faults *)

Record Host : Type := {
  existsSync : string -> bool;
  readFileSync : string -> result string;
  readdirSync : string -> result (list string);
  trim : string -> string;
  path_join : string -> string -> string;
  path_basename : string -> string;
  (** [hashFile]: the SHA-1 digest of the file, or the stream's error *)
  hashFile : string -> result string;
  exifr_parse : string -> result (option Exif);
  (** pixel dimensions of the image stored in a file *)
  image_size : string -> N * N;
  (** the URL the asset store serves a public id from *)
  asset_url : string -> string;
  (** a failure of the upload call other than a name clash *)
  upload_fault : string -> string -> option string;
  (** a failure of [doc(id).set] *)
  set_fault : string -> option string;
  (** Number::toString where it is not computed here: of a number that
      is not an integer, and of an integer from [2^53] on, which is
      printed with the fewest digits that read back as the same double
      and zeros after them *)
  numberToString : float -> string
}.

(** Modelled from the spec: how the asset store interprets the
    transformation rules and the overwrite flag of an upload (the asset
    store is a remote service, spec section 4.4 step 3): [limit] scales
    down, keeping the aspect ratio, so that neither dimension exceeds the
    given box and never scales up; a rule applies only when its condition
    holds of the image it receives; with overwrite disabled an upload
    under an existing public name fails. *)
Module Cloud.

Definition holds (c : Condition) (d : N * N) : bool :=
  match c with
  | w_gt n => n <? fst d
  | h_gt n => n <? snd d
  end.

(** [a * b / c] rounded to the nearest integer. *)
Definition scale (a b c : N) : N := (2 * a * b + c) / (2 * c).

Definition crop_limit (W H : N) (d : N * N) : N * N :=
  let '(w, h) := d in
  if (w <=? W) && (h <=? H) then (w, h)
  else if W * h <=? H * w then (W, scale h W w)
  else (scale w H h, H).

Definition apply (t : Transformation) (d : N * N) : N * N :=
  if holds (t_if t) d
  then match t_crop t with
       | limit => crop_limit (t_width t) (t_height t) d
       end
  else d.

Definition render (ts : list Transformation) (d : N * N) : N * N :=
  foldl (fun d t => apply t d) d ts.

Definition key (req : UploadRequest) : string :=
  folder req ++ "/" ++ public_id req.

Definition upload (h : Host) (req : UploadRequest) (a : Assets)
  : result (UploadResponse * Assets) :=
  match upload_fault h (u_file req) (public_id req) with
  | Some msg => Err msg
  | None =>
      if bool_decide (is_Some (a !! key req)) && negb (overwrite req)
      then Err "asset already exists"
      else
        let '(w, ht) :=
          render (transformation req) (image_size h (u_file req)) in
        Ok ({| secure_url := asset_url h (key req);
               up_width := w; up_height := ht |},
            <[key req := {| a_source := u_file req;
                            a_width := w; a_height := ht |}]> a)
  end.

End Cloud.

(** ** What a run does, in order *)

Inductive event : Type :=
(** [console.warn] of a listed folder that does not exist *)
| Warned (folder : string)
| LoggedNoFolders
| LoggedNoImages
| LoggedNoNewPhotos
(** the line [ Skipped duplicate: name] of the pass before assignment *)
| SkippedDuplicate (name : string)
| LoggedFound (n : nat)
| LoggedStartingFrom (first : string)
(** the callback of [batch.map] is entered for an item *)
| Called (it : QueueItem)
(** the line [ Skipped duplicate: name] written by [processPhoto] *)
| SkippedInRun (name : string)
(** [cloudinary.uploader.upload] reaches the asset store *)
| UploadCalled (req : UploadRequest)
(** [doc(id).set(record)] is applied *)
| Persisted (doc : string) (r : PhotoRecord)
(** the line written to stderr for a failed unit *)
| FailureLine (unit_id msg : string)
(** the progress line [(done/total)] and the newline after it *)
| ProgressLine (done total : nat)
| NewLine
(** the promise of the callback is resolved *)
| Settled (unit_id : string)
| LoggedComplete.

Record World : Type := {
  store : Store;
  assets : Assets;
  completed : nat;
  failed : list string;
  log : list event
}.

Definition emit (es : list event) (w : World) : World :=
  {| store := store w; assets := assets w; completed := completed w;
     failed := failed w; log := log w ++ es |}.

Definition with_store (st : Store) (w : World) : World :=
  {| store := st; assets := assets w; completed := completed w;
     failed := failed w; log := log w |}.

Definition with_assets (a : Assets) (w : World) : World :=
  {| store := store w; assets := a; completed := completed w;
     failed := failed w; log := log w |}.

Inductive outcome : Type :=
| Resolved
| Rejected (message : string).

(** [renderProgress(done, total)].  The bar and the percentage are drawn
    with floating-point arithmetic and are kept abstract in
    [ProgressLine]; [uploadPhotos] never passes [done > total], for which
    [repeat] would throw. *)
Definition renderProgress (done total : nat) : list event :=
  ProgressLine done total :: (if (done =? total)%nat then [NewLine] else []).

(** ** One upload unit: [processPhoto] and the callback around it *)

(** The [await] a unit is suspended at. *)
Inductive phase : Type :=
| AwaitHashExists
| AwaitExif
| AwaitUpload (exif : option Exif)
| AwaitSet (exif : option Exif) (up : UploadResponse).

Definition MAX_SIDE : N := 2048.

Definition upload_request (it : QueueItem) : UploadRequest :=
  {| u_file := q_filePath it;
     folder := CLOUDINARY_FOLDER;
     public_id := id it;
     unique_filename := false;
     overwrite := false;
     transformation :=
       [ {| t_if := w_gt MAX_SIDE; t_width := MAX_SIDE;
            t_height := MAX_SIDE; t_crop := limit |};
         {| t_if := h_gt MAX_SIDE; t_width := MAX_SIDE;
            t_height := MAX_SIDE; t_crop := limit |} ] |}.

(** [`1/${Math.round(1 / t)}`].  An integer below [2^53] is printed with
    all its digits; a double from [2^52] on is an integer, which
    [Math.round] returns as it is. *)
Definition shutter_string (h : Host) (t : float) : string :=
  let q := (1 / t)%float in
  "1/" ++ match Js.Math_round q with
          | Js.Int z =>
              if (Z.abs z <? 2 ^ 53)%Z then Js.int_string z
              else numberToString h q
          | Js.Infinite negative =>
              if negative then "-Infinity" else "Infinity"
          | Js.NaN => "NaN"
          end.

Definition field {A : Type} (exif : option Exif) (f : Exif -> option A)
  : option A :=
  match exif with
  | Some e => f e
  | None => None
  end.

(** The document written by [doc(id).set]. *)
Definition photo_record (h : Host) (it : QueueItem) (exif : option Exif)
    (up : UploadResponse) : PhotoRecord :=
  {| title := id it;
     imageUrl := secure_url up;
     width := up_width up;
     height := up_height up;
     camera := field exif Model;
     aperture :=
       match field exif FNumber with
       | Some f => if Js.truthy f then Some ("f/" ++ numberToString h f)
                   else None
       | None => None
       end;
     shutterSpeed :=
       match field exif ExposureTime with
       | Some t => if Js.truthy t then Some (shutter_string h t) else None
       | None => None
       end;
     iso := field exif ISO;
     shotDate := field exif DateTimeOriginal;
     hash := q_hash it;
     featured := false |}.

(** [processPhoto] returned: [completed++], then [renderProgress]. *)
Definition resolve (total : nat) (it : QueueItem) (w : World) : World :=
  let c := S (completed w) in
  {| store := store w; assets := assets w; completed := c;
     failed := failed w;
     log := log w ++ renderProgress (c + length (failed w)) total
                  ++ [Settled (id it)] |}.

(** [processPhoto] threw: [failed.push(id)], the stderr line, then
    [renderProgress]. *)
Definition reject (total : nat) (it : QueueItem) (msg : string) (w : World)
  : World :=
  let f := (failed w ++ [id it])%list in
  {| store := store w; assets := assets w; completed := completed w;
     failed := f;
     log := log w ++ [FailureLine (id it) msg]
                  ++ renderProgress (completed w + length f) total
                  ++ [Settled (id it)] |}.

(** The unit is resumed at its [await] and runs to the next one; [None]
    when the callback has finished.  A step is the effect of the awaited
    call on the stores together with the code that runs when it returns;
    steps of different units interleave freely. *)
Definition unit_step (h : Host) (total : nat) (it : QueueItem) (p : phase)
    (w : World) : option phase * World :=
  match p with
  | AwaitHashExists =>
      if hashExists (store w) (q_hash it)
      then (None,
            resolve total it
              (emit [SkippedInRun (path_basename h (q_filePath it))] w))
      else (Some AwaitExif, w)
  | AwaitExif =>
      match exifr_parse h (q_filePath it) with
      | Err msg => (None, reject total it msg w)
      | Ok exif => (Some (AwaitUpload exif), w)
      end
  | AwaitUpload exif =>
      let req := upload_request it in
      let w1 := emit [UploadCalled req] w in
      match Cloud.upload h req (assets w) with
      | Err msg => (None, reject total it msg w1)
      | Ok (up, a') => (Some (AwaitSet exif up), with_assets a' w1)
      end
  | AwaitSet exif up =>
      match set_fault h (id it) with
      | Some msg => (None, reject total it msg w)
      | None =>
          let r := photo_record h it exif up in
          (None,
           resolve total it
             (emit [Persisted (id it) r]
                (with_store (<[id it := r]> (store w)) w)))
      end
  end.

(** ** One window: [await Promise.all(batch.map(async item => ...))]

    [us] holds the units that have not settled, each with the [await] it
    is suspended at.  The head of [sched] chooses which of them is resumed
    next (modulo their number; the first one when [sched] is used up). *)
Fixpoint run_window (h : Host) (total : nat) (fuel : nat) (sched : list nat)
    (us : list (QueueItem * phase)) (w : World) : World :=
  match fuel with
  | O => w
  | S fuel' =>
      match us with
      | [] => w
      | _ :: _ =>
          let k := (List.hd O sched mod length us)%nat in
          match us !! k with
          | None => w
          | Some (it, p) =>
              match unit_step h total it p w with
              | (Some p', w') =>
                  run_window h total fuel' (List.tl sched)
                    (<[k := (it, p')]> us) w'
              | (None, w') =>
                  run_window h total fuel' (List.tl sched) (delete k us) w'
              end
          end
      end
  end.

Definition launch (batch : list QueueItem) : list (QueueItem * phase) :=
  (fun it => (it, AwaitHashExists)) <$> batch.

(** A unit is resumed at most four times. *)
Definition window_fuel (batch : list QueueItem) : nat := 4 * length batch.

(** [for (let i = 0; i < uploadQueue.length; i += CONCURRENCY)] *)
Fixpoint upload_loop (h : Host) (total : nat) (fuel : nat) (i : nat)
    (queue : list QueueItem) (scheds : list (list nat)) (w : World) : World :=
  match fuel with
  | O => w
  | S fuel' =>
      if (i <? length queue)%nat then
        let batch := take CONCURRENCY (drop i queue) in
        let w' := run_window h total (window_fuel batch) (List.hd [] scheds)
                    (launch batch) (emit (Called <$> batch) w) in
        upload_loop h total fuel' (i + CONCURRENCY) queue (List.tl scheds) w'
      else w
  end.

(** ** Discovery and the pass before assignment *)

Definition nonempty (s : string) : bool := negb (String.eqb s "").

(** [readFileSync(listFile).split('\n').map(l => l.trim()).filter(Boolean)] *)
Definition folders_of (h : Host) (text : string) : list string :=
  List.filter nonempty (trim h <$> Str.split_lines text).

(** The loop over [folders] that fills [allFiles]. *)
Fixpoint scan (h : Host) (folders : list string) (w : World)
  : result (list string) * World :=
  match folders with
  | [] => (Ok [], w)
  | dir :: rest =>
      if negb (existsSync h dir) then scan h rest (emit [Warned dir] w)
      else
        match readdirSync h dir with
        | Err msg => (Err msg, w)
        | Ok names =>
            let files := path_join h dir <$> List.filter isImage names in
            match scan h rest w with
            | (Ok more, w') => (Ok (files ++ more)%list, w')
            | (Err msg, w') => (Err msg, w')
            end
        end
  end.

Definition str_le (a b : string) : Prop := String.leb a b = true.

#[global] Instance str_le_dec (a b : string) : Decision (str_le a b).
Proof. unfold str_le. apply _. Defined.

(** *** The order of [allFiles.sort()]

    Without a comparison function [sort] orders strings by their UTF-16
    code units.  The strings of this development are the UTF-8 bytes of
    the JavaScript strings, so the code units are read back from the
    bytes.  The two orders differ: a character beyond the Basic
    Multilingual Plane is a pair of surrogates ([0xD800] to [0xDFFF]) and
    sorts before the characters from [U+E000] to [U+FFFF], while its
    bytes sort after theirs. *)
Module Utf16.

(** The six payload bits of a continuation byte. *)
Definition low6 (c : ascii) : N := N_of_ascii c mod 64.

(** The code units of a code point: itself, or a surrogate pair. *)
Definition units (cp : N) : list N :=
  if cp <? 0x10000 then [cp]
  else [0xD800 + (cp - 0x10000) / 1024; 0xDC00 + (cp - 0x10000) mod 1024].

(** The code units of a string, decoded from its UTF-8 bytes: sequences
    of one to four bytes by their lead byte.  A byte that starts no
    sequence, or a sequence cut short by the end of the string, reads as
    [U+FFFD]; the strings of a run are decoded by Node and are well
    formed. *)
Fixpoint of_utf8 (s : string) : list N :=
  match s with
  | "" => []
  | String c0 s1 =>
      let b0 := N_of_ascii c0 in
      if b0 <? 0x80 then b0 :: of_utf8 s1
      else if b0 <? 0xC0 then 0xFFFD :: of_utf8 s1
      else if b0 <? 0xE0 then
        match s1 with
        | String c1 s2 => ((b0 - 0xC0) * 64 + low6 c1) :: of_utf8 s2
        | _ => [0xFFFD]
        end
      else if b0 <? 0xF0 then
        match s1 with
        | String c1 (String c2 s3) =>
            ((b0 - 0xE0) * 4096 + low6 c1 * 64 + low6 c2) :: of_utf8 s3
        | _ => [0xFFFD]
        end
      else
        match s1 with
        | String c1 (String c2 (String c3 s4)) =>
            (units ((b0 - 0xF0) * 262144 + low6 c1 * 4096 + low6 c2 * 64
                    + low6 c3) ++ of_utf8 s4)%list
        | _ => [0xFFFD]
        end
  end.

(** Lexicographic comparison of code units: the first difference
    decides, and a proper prefix comes first. *)
Fixpoint compare (a b : list N) : comparison :=
  match a, b with
  | [], [] => Eq
  | [], _ :: _ => Lt
  | _ :: _, [] => Gt
  | x :: a', y :: b' =>
      match x ?= y with
      | Eq => compare a' b'
      | c => c
      end
  end.

End Utf16.

(** A byte of the form [10xxxxxx]. *)
Definition continuation (c : ascii) : bool :=
  (0x80 <=? N_of_ascii c) && (N_of_ascii c <? 0xC0).

(** Well-formed UTF-8: the shortest encoding of every code point up to
    [U+10FFFF] that is not a surrogate. *)
Fixpoint well_formed (s : string) : bool :=
  match s with
  | "" => true
  | String c0 s1 =>
      let b0 := N_of_ascii c0 in
      if b0 <? 0x80 then well_formed s1
      else if b0 <? 0xC2 then false
      else if b0 <? 0xE0 then
        match s1 with
        | String c1 s2 => continuation c1 && well_formed s2
        | _ => false
        end
      else if b0 <? 0xF0 then
        match s1 with
        | String c1 (String c2 s3) =>
            continuation c1 && continuation c2
            && ((0xE0 <? b0) || (0xA0 <=? N_of_ascii c1))
            && (negb (b0 =? 0xED) || (N_of_ascii c1 <? 0xA0))
            && well_formed s3
        | _ => false
        end
      else if b0 <? 0xF5 then
        match s1 with
        | String c1 (String c2 (String c3 s4)) =>
            continuation c1 && continuation c2 && continuation c3
            && ((0xF0 <? b0) || (0x90 <=? N_of_ascii c1))
            && ((b0 <? 0xF4) || (N_of_ascii c1 <? 0x90))
            && well_formed s4
        | _ => false
        end
      else false
  end.

(** The byte of value [n]. *)
Definition byte (n : N) : ascii := ascii_of_N n.

(** The UTF-8 bytes of a sequence of UTF-16 code units. *)
Fixpoint to_utf8 (us : list N) : string :=
  match us with
  | [] => ""
  | u :: rest =>
      if u <? 0x80 then String (byte u) (to_utf8 rest)
      else if u <? 0x800 then
        String (byte (0xC0 + u / 64))
          (String (byte (0x80 + u mod 64)) (to_utf8 rest))
      else if (0xD800 <=? u) && (u <? 0xDC00) then
        match rest with
        | lo :: rest' =>
            let cp := 0x10000 + (u - 0xD800) * 1024 + (lo - 0xDC00) in
            String (byte (0xF0 + cp / 262144))
              (String (byte (0x80 + (cp / 4096) mod 64))
                 (String (byte (0x80 + (cp / 64) mod 64))
                    (String (byte (0x80 + cp mod 64)) (to_utf8 rest'))))
        | [] => ""
        end
      else
        String (byte (0xE0 + u / 4096))
          (String (byte (0x80 + (u / 64) mod 64))
             (String (byte (0x80 + u mod 64)) (to_utf8 rest)))
  end.

(** The comparison of two strings by [sort].  Two well-formed strings
    with the same code units are the same string ([of_utf8_inj] below);
    the bytes decide only between byte strings that encode no string,
    which makes the comparison an order on all of [string]. *)
Definition js_compare (a b : string) : comparison :=
  match Utf16.compare (Utf16.of_utf8 a) (Utf16.of_utf8 b) with
  | Eq => String.compare a b
  | c => c
  end.

Definition js_leb (a b : string) : bool :=
  match js_compare a b with
  | Gt => false
  | _ => true
  end.

Definition js_le (a b : string) : Prop := js_leb a b = true.

#[global] Instance js_le_dec (a b : string) : Decision (js_le a b).
Proof. unfold js_le. apply _. Defined.

(** [allFiles.sort()] *)
Definition sort_paths (files : list string) : list string :=
  merge_sort js_le files.

(** The loop over [allFiles] that fills [pending]. *)
Fixpoint collect_pending (h : Host) (files : list string) (w : World)
  : result (list PendingPhoto) * World :=
  match files with
  | [] => (Ok [], w)
  | file :: rest =>
      match hashFile h file with
      | Err msg => (Err msg, w)
      | Ok hs =>
          if hashExists (store w) hs
          then collect_pending h rest
                 (emit [SkippedDuplicate (path_basename h file)] w)
          else
            match collect_pending h rest w with
            | (Ok ps, w') =>
                (Ok ({| filePath := file; p_hash := hs |} :: ps), w')
            | (Err msg, w') => (Err msg, w')
            end
      end
  end.

(** ** [uploadPhotos] *)

Definition newline : string := String "010"%char "".

Definition failure_message (failed : list string) : string :=
  "Upload completed with " ++ Str.ofN (N.of_nat (length failed))
    ++ " failures:" ++ newline ++ Str.join ", " failed.

Definition start (st : Store) (a : Assets) : World :=
  {| store := st; assets := a; completed := 0; failed := []; log := [] |}.

(** The work after [pending] is known. *)
Definition upload_pending (h : Host) (scheds : list (list nat))
    (allFiles : list string) (counter : N) (pending : list PendingPhoto)
    (w : World) : outcome * World :=
  match pending with
  | [] => (Resolved, emit [LoggedNoNewPhotos] w)
  | _ :: _ =>
      let queue := uploadQueue counter pending in
      let w3 := emit [LoggedFound (length allFiles);
                      LoggedStartingFrom (img_id counter)] w in
      let w4 := upload_loop h (length allFiles) (length queue) 0 queue
                  scheds w3 in
      if (0 <? length (failed w4))%nat
      then (Rejected (failure_message (failed w4)), w4)
      else (Resolved, emit [LoggedComplete] w4)
  end.

(** The work after [allFiles] is sorted. *)
Definition upload_files (h : Host) (scheds : list (list nat))
    (allFiles : list string) (w : World) : outcome * World :=
  match allFiles with
  | [] => (Resolved, emit [LoggedNoImages] w)
  | _ :: _ =>
      let counter := getNextImageNumber (store w) in
      match collect_pending h allFiles w with
      | (Err msg, w2) => (Rejected msg, w2)
      | (Ok pending, w2) => upload_pending h scheds allFiles counter pending w2
      end
  end.

Definition uploadPhotos (h : Host) (listFile : string)
    (scheds : list (list nat)) (st : Store) (a : Assets) : outcome * World :=
  let w0 := start st a in
  if negb (existsSync h listFile)
  then (Rejected "❌ Folder list file not found", w0)
  else
    match readFileSync h listFile with
    | Err msg => (Rejected msg, w0)
    | Ok text =>
        match folders_of h text with
        | [] => (Resolved, emit [LoggedNoFolders] w0)
        | folders =>
            match scan h folders w0 with
            | (Err msg, w1) => (Rejected msg, w1)
            | (Ok files, w1) => upload_files h scheds (sort_paths files) w1
            end
        end
    end.

(** ** Definitions used by the statements below *)

(** The value of a decimal numeral read from the left. *)
Fixpoint uint_value (acc : N) (d : Decimal.uint) : N :=
  match d with
  | Decimal.Nil => acc
  | Decimal.D0 d' => uint_value (10 * acc + 0) d'
  | Decimal.D1 d' => uint_value (10 * acc + 1) d'
  | Decimal.D2 d' => uint_value (10 * acc + 2) d'
  | Decimal.D3 d' => uint_value (10 * acc + 3) d'
  | Decimal.D4 d' => uint_value (10 * acc + 4) d'
  | Decimal.D5 d' => uint_value (10 * acc + 5) d'
  | Decimal.D6 d' => uint_value (10 * acc + 6) d'
  | Decimal.D7 d' => uint_value (10 * acc + 7) d'
  | Decimal.D8 d' => uint_value (10 * acc + 8) d'
  | Decimal.D9 d' => uint_value (10 * acc + 9) d'
  end.

(** [t] is the greatest of [ts]. *)
Definition greatest (t : string) (ts : list string) : Prop :=
  t ∈ ts /\ forall t', t' ∈ ts -> str_le t' t.

Definition blank_record (t hs : string) : PhotoRecord :=
  {| title := t; imageUrl := ""; width := 0; height := 0; camera := None;
     aperture := None; shutterSpeed := None; iso := None; shotDate := None;
     hash := hs; featured := false |}.

(** [t] is the greatest of the titles of [st] that match the pattern. *)
Definition greatest_matching (t : string) (st : Store) : Prop :=
  t ∈ titles st /\ is_Some (match_IMG t) /\
  forall t', t' ∈ titles st -> is_Some (match_IMG t') -> str_le t' t.

(** The seed of a batch, as the sequencer derives it from the store. *)
Inductive seed_of (st : Store) : N -> Prop :=
| seed_none :
    (forall t, t ∈ titles st -> match_IMG t = None) -> seed_of st 0
| seed_unmatched (t : string) :
    greatest t (titles st) -> match_IMG t = None -> seed_of st 0
| seed_next (t : string) (M : N) :
    greatest t (titles st) -> id_number t = Some M -> seed_of st (M + 1).

Definition mixed_store : Store :=
  <["Sunset" := blank_record "Sunset" "h2"]>
    (<["IMG-0003" := blank_record "IMG-0003" "h1"]> ∅).

Definition five_digit_store : Store :=
  <["IMG-10000" := blank_record "IMG-10000" "h2"]>
    (<["IMG-9999" := blank_record "IMG-9999" "h1"]> ∅).

Definition store_0007 : Store :=
  <["IMG-0007" := blank_record "IMG-0007" "h7"]> ∅.

Definition three_pending : list PendingPhoto :=
  [ {| filePath := "a/1.jpg"; p_hash := "x1" |};
    {| filePath := "a/2.jpg"; p_hash := "x2" |};
    {| filePath := "b/1.jpg"; p_hash := "x3" |} ].


(** The number of times a unit suspended at [p] can still be resumed. *)
Definition rank (p : phase) : nat :=
  match p with
  | AwaitHashExists => 4
  | AwaitExif => 3
  | AwaitUpload _ => 2
  | AwaitSet _ _ => 1
  end.

Definition weight (us : list (QueueItem * phase)) : nat :=
  sum_list (rank ∘ snd <$> us).

(** The transitions of [unit_step], one constructor per branch. *)
Inductive step (h : Host) (total : nat) (it : QueueItem)
  : phase -> World -> option phase -> World -> Prop :=
| step_duplicate (w : World) :
    hashExists (store w) (q_hash it) = true ->
    step h total it AwaitHashExists w None
      (resolve total it
         (emit [SkippedInRun (path_basename h (q_filePath it))] w))
| step_fresh (w : World) :
    hashExists (store w) (q_hash it) = false ->
    step h total it AwaitHashExists w (Some AwaitExif) w
| step_exif_failed (w : World) (msg : string) :
    exifr_parse h (q_filePath it) = Err msg ->
    step h total it AwaitExif w None (reject total it msg w)
| step_exif_read (w : World) (exif : option Exif) :
    exifr_parse h (q_filePath it) = Ok exif ->
    step h total it AwaitExif w (Some (AwaitUpload exif)) w
| step_upload_failed (w : World) (exif : option Exif) (msg : string) :
    Cloud.upload h (upload_request it) (assets w) = Err msg ->
    step h total it (AwaitUpload exif) w None
      (reject total it msg (emit [UploadCalled (upload_request it)] w))
| step_uploaded (w : World) (exif : option Exif) (up : UploadResponse)
    (a' : Assets) :
    Cloud.upload h (upload_request it) (assets w) = Ok (up, a') ->
    step h total it (AwaitUpload exif) w (Some (AwaitSet exif up))
      (with_assets a' (emit [UploadCalled (upload_request it)] w))
| step_set_failed (w : World) (exif : option Exif) (up : UploadResponse)
    (msg : string) :
    set_fault h (id it) = Some msg ->
    step h total it (AwaitSet exif up) w None (reject total it msg w)
| step_persisted (w : World) (exif : option Exif) (up : UploadResponse) :
    set_fault h (id it) = None ->
    step h total it (AwaitSet exif up) w None
      (resolve total it
         (emit [Persisted (id it) (photo_record h it exif up)]
            (with_store (<[id it := photo_record h it exif up]> (store w)) w))).

Definition ids_of (us : list (QueueItem * phase)) : list string :=
  (id ∘ fst) <$> us.

(** The identifiers whose callback was entered, and those whose callback
    finished, in the order of the log. *)
Definition called_item (e : event) : option QueueItem :=
  match e with
  | Called it => Some it
  | _ => None
  end.

Definition settled_id (e : event) : option string :=
  match e with
  | Settled x => Some x
  | _ => None
  end.

Definition called_items (l : list event) : list QueueItem :=
  omap called_item l.

Definition settled_ids (l : list event) : list string :=
  omap settled_id l.

(** The units in flight after the events of [l]: entered and not finished. *)
Definition in_flight (l : list event) : Z :=
  (Z.of_nat (length (called_items l)) - Z.of_nat (length (settled_ids l)))%Z.

(** A unit with a fault of its own: its EXIF read throws, its upload is
    refused by the network or because its public name is already taken in
    the assets [a0] the batch started from, or its document write fails. *)
Definition faulty (h : Host) (a0 : Assets) (it : QueueItem) : Prop :=
  (exists msg, exifr_parse h (q_filePath it) = Err msg)
  \/ is_Some (upload_fault h (q_filePath it) (id it))
  \/ is_Some (a0 !! Cloud.key (upload_request it))
  \/ is_Some (set_fault h (id it)).

(** The unit has not been through its upload. *)
Definition pre_upload (p : phase) : Prop :=
  match p with
  | AwaitSet _ _ => False
  | _ => True
  end.

(** The asset under the public name of [it] is as it was in [a0]. *)
Definition untouched (a0 : Assets) (it : QueueItem) (w : World) : Prop :=
  assets w !! Cloud.key (upload_request it)
  = a0 !! Cloud.key (upload_request it).

(** Every identifier in [failed] belongs to a unit with a fault of its own. *)
Definition blamed (h : Host) (a0 : Assets) (queue : list QueueItem)
    (w : World) : Prop :=
  forall x, x ∈ failed w ->
    exists it, it ∈ queue /\ id it = x /\ faulty h a0 it.

(** The invariant of a window behind failure isolation; [rest] are the
    items of later windows. *)
Definition isolated (h : Host) (a0 : Assets) (queue rest : list QueueItem)
    (us : list (QueueItem * phase)) (w : World) : Prop :=
  blamed h a0 queue w
  /\ NoDup (ids_of us ++ (id <$> rest))
  /\ (forall j it p, us !! j = Some (it, p) ->
        it ∈ queue /\ (pre_upload p -> untouched a0 it w))
  /\ (forall it, it ∈ rest -> untouched a0 it w).

(** At no point of [trace] are more than [CONCURRENCY] units in flight. *)
Definition bounded (trace : list event) : Prop :=
  forall p, p `prefix_of` trace ->
    (0 <= in_flight p <= Z.of_nat CONCURRENCY)%Z.

(** When a unit of a window is entered, every unit of every earlier
    window has finished. *)
Definition sequential (queue : list QueueItem) (trace : list event) : Prop :=
  forall p j k it_j it_k,
    p `prefix_of` trace ->
    queue !! j = Some it_j -> queue !! k = Some it_k ->
    (j / CONCURRENCY < k / CONCURRENCY)%nat ->
    Called it_k ∈ p -> Settled (id it_j) ∈ p.

(** What the loop over windows has added to the log after the windows
    below index [i]. *)
Definition windowed (queue : list QueueItem) (i : nat) (trace : list event)
  : Prop :=
  called_items trace = take i queue
  /\ settled_ids trace ≡ₚ id <$> take i queue
  /\ bounded trace
  /\ sequential queue trace.

(** The dimensions in an upload response are those of the source image
    after the transformation of the request. *)
Definition rendered (h : Host) (it : QueueItem) (up : UploadResponse) : Prop :=
  (up_width up, up_height up)
  = Cloud.render (transformation (upload_request it))
      (image_size h (q_filePath it)).

(** The document is the one [processPhoto] writes for an item of the queue. *)
Definition written_for (h : Host) (queue : list QueueItem) (doc : string)
    (r : PhotoRecord) : Prop :=
  exists it exif up,
    it ∈ queue /\ doc = id it /\ r = photo_record h it exif up
    /\ rendered h it up.

(** Where the documents, upload calls and writes of a world come from:
    from the world [w0] the batch started in, or from a unit of the queue. *)
Definition provenance (h : Host) (queue : list QueueItem) (w0 : World)
    (us : list (QueueItem * phase)) (w : World) : Prop :=
  (forall doc r, store w !! doc = Some r ->
     store w0 !! doc = Some r \/ written_for h queue doc r)
  /\ (forall req, UploadCalled req ∈ log w ->
        UploadCalled req ∈ log w0
        \/ exists it, it ∈ queue /\ req = upload_request it)
  /\ (forall doc r, Persisted doc r ∈ log w ->
        Persisted doc r ∈ log w0 \/ written_for h queue doc r)
  /\ (forall j it p, us !! j = Some (it, p) ->
        it ∈ queue
        /\ forall exif up, p = AwaitSet exif up -> rendered h it up).

(** The events written outside the upload units. *)
Definition outside_units (e : event) : Prop :=
  match e with
  | Warned _ | LoggedNoFolders | LoggedNoImages | LoggedNoNewPhotos
  | SkippedDuplicate _ | LoggedFound _ | LoggedStartingFrom _
  | LoggedComplete => True
  | _ => False
  end.

(** The upload queue of a run over the folders listed in [listFile] with
    the store [st]; empty when the run ends before assignment. *)
Definition plan (h : Host) (listFile : string) (st : Store)
  : list QueueItem :=
  if existsSync h listFile then
    match readFileSync h listFile with
    | Ok text =>
        match (scan h (folders_of h text) (start st ∅)).1 with
        | Ok files =>
            match (collect_pending h (sort_paths files) (start st ∅)).1 with
            | Ok pending => uploadQueue (getNextImageNumber st) pending
            | Err _ => []
            end
        | Err _ => []
        end
    | Err _ => []
    end
  else [].

(** ** Hosts and inputs of the worked examples *)

(** A folder [a] with three pictures and a text file, listed in
    [list.txt] together with a folder [b] that does not exist. *)
Definition example_host : Host :=
  {| existsSync := fun p => String.eqb p "list.txt" || String.eqb p "a";
     readFileSync := fun _ => Ok ("a" ++ newline ++ "b" ++ newline);
     readdirSync := fun _ => Ok ["2.JPG"; "1.jpg"; "notes.txt"; "3.png"];
     trim := fun s => s;
     path_join := fun d f => d ++ "/" ++ f;
     path_basename := fun p => Str.drop 2 p;
     hashFile := fun p => Ok ("sha1:" ++ p);
     exifr_parse := fun _ => Ok None;
     image_size := fun _ => (4096, 2048);
     asset_url := fun k => "https://assets/" ++ k;
     upload_fault := fun _ _ => None;
     set_fault := fun _ => None;
     numberToString := fun _ => "" |}.

(** The same folder read in another order, on a day when the upload of
    [a/2.JPG] is refused. *)
Definition example_host_faulty : Host :=
  {| existsSync := existsSync example_host;
     readFileSync := readFileSync example_host;
     readdirSync := fun _ => Ok ["3.png"; "notes.txt"; "1.jpg"; "2.JPG"];
     trim := trim example_host;
     path_join := path_join example_host;
     path_basename := path_basename example_host;
     hashFile := hashFile example_host;
     exifr_parse := exifr_parse example_host;
     image_size := image_size example_host;
     asset_url := asset_url example_host;
     upload_fault := fun p _ =>
       if String.eqb p "a/2.JPG" then Some "network timeout" else None;
     set_fault := set_fault example_host;
     numberToString := numberToString example_host |}.

(** The same folder when [a/1.jpg] and [a/2.JPG] hold the same bytes. *)
Definition example_host_twins : Host :=
  {| existsSync := existsSync example_host;
     readFileSync := readFileSync example_host;
     readdirSync := readdirSync example_host;
     trim := trim example_host;
     path_join := path_join example_host;
     path_basename := path_basename example_host;
     hashFile := fun p =>
       Ok (if String.eqb p "a/3.png" then "sha1:c" else "sha1:twin");
     exifr_parse := exifr_parse example_host;
     image_size := image_size example_host;
     asset_url := asset_url example_host;
     upload_fault := upload_fault example_host;
     set_fault := set_fault example_host;
     numberToString := numberToString example_host |}.

Definition example_pending : list PendingPhoto :=
  [ {| filePath := "a/1.jpg"; p_hash := "sha1:a/1.jpg" |};
    {| filePath := "a/2.JPG"; p_hash := "sha1:a/2.JPG" |};
    {| filePath := "a/3.png"; p_hash := "sha1:a/3.png" |} ].

(** A store that already holds the content of [a/3.png]. *)
Definition store_with_third : Store :=
  <["IMG-0000" := blank_record "IMG-0000" "sha1:a/3.png"]> ∅.

(** Both units of a window are resumed in turn. *)
Definition round_robin : list (list nat) := [[0; 1; 0; 1; 0; 1; 0; 1]%nat].


Definition example_item : QueueItem :=
  {| q_filePath := "a/2.JPG"; q_hash := "sha1:twin"; id := "IMG-0001" |}.


(** A store that holds the content of [example_item] under another name. *)
Definition store_with_twin : Store :=
  <["IMG-0000" := blank_record "IMG-0000" "sha1:twin"]> ∅.

(** The progress lines and newlines of a log. *)
Definition progress_events (l : list event) : list event :=
  List.filter (fun e => match e with
                        | ProgressLine _ _ | NewLine => true
                        | _ => false
                        end) l.

(** Two directory listings with the same entries, in any order. *)
Definition same_listing (r1 r2 : result (list string)) : Prop :=
  match r1, r2 with
  | Ok l1, Ok l2 => l1 ≡ₚ l2
  | Err _, Err _ => True
  | _, _ => False
  end.

(** Two hosts that hold the same input files: the same list file, the
    same folders with the same entries (listed in any order) and the same
    file contents.  Their EXIF readers, networks and remote faults may
    differ. *)
Definition same_inputs (h1 h2 : Host) : Prop :=
  (forall p, existsSync h1 p = existsSync h2 p)
  /\ (forall p, readFileSync h1 p = readFileSync h2 p)
  /\ (forall s, trim h1 s = trim h2 s)
  /\ (forall d f, path_join h1 d f = path_join h2 d f)
  /\ (forall p, hashFile h1 p = hashFile h2 p)
  /\ (forall d, same_listing (readdirSync h1 d) (readdirSync h2 d)).

(** The candidate survives deduplication against [st]: its content hash
    has no record. *)
Definition fresh (h : Host) (st : Store) (file : string) : bool :=
  match hashFile h file with
  | Ok hs => negb (hashExists st hs)
  | Err _ => false
  end.


(** The progress lines of [w] that are not in [w0] report a count between
    [lo] (excluded) and [hi] against [total], and a newline was added only
    if [total] is in that range. *)
Definition progress_within (total lo hi : nat) (w0 w : World) : Prop :=
  (forall d t, ProgressLine d t ∈ log w ->
     ProgressLine d t ∈ log w0 \/ (t = total /\ lo < d <= hi)%nat)
  /\ (NewLine ∈ log w -> NewLine ∈ log w0 \/ (lo < total <= hi)%nat).

(** * The other commands of the menu

    [setFeatured], [clearFeatured], [resetDatabase], [resetCloudinary]
    and the loop of [main].  The answers typed at the prompts are
    arguments; the calls that leave the process are fields of a [Remote]
    record; what the commands print and do is a list of [notice]s. *)

(** [s.split(sep)] for a one-character separator. *)
Fixpoint split_acc (sep : ascii) (cur : string) (s : string) : list string :=
  match s with
  | "" => [cur]
  | String c s' =>
      if Ascii.eqb c sep
      then cur :: split_acc sep "" s'
      else split_acc sep (cur ++ String c "") s'
  end.

Definition split (sep : ascii) (s : string) : list string :=
  split_acc sep "" s.

(** A numeral of decimal digits whose value a double holds exactly:
    [Number(s)] is that value and [String(Number(s))] its shortest
    numeral. *)
Definition decimal (s : string) : bool :=
  nonempty s && Str.all_digits s && (Str.parseInt s <? 2 ^ 53).

Record Remote : Type := {
  (** [String(Number(s))] for [s] outside the numerals of [decimal] *)
  number_text : string -> string;
  (** a failure of [ref.update] on a document *)
  update_fault : string -> option string;
  (** a failure of [batch.commit] for the documents of the batch *)
  commit_fault : list string -> option string;
  (** [cloudinary.api.resources]: of the assets it is asked about, with
      the prefix, the page size and the cursor of the call, the public
      ids of one page and the cursor of the next one *)
  api_resources :
    Assets -> string -> nat -> option string
    -> result (list string * option string);
  (** a failure of [cloudinary.api.delete_resources] *)
  delete_fault : list string -> option string
}.

Inductive notice : Type :=
(** the line [❌ id not found] *)
| NotFound (doc : string)
(** [ref.update({ featured: flag })] is applied *)
| FeaturedSet (doc : string) (flag : bool)
(** the line [⭐ Marked id as featured] *)
| Marked (doc : string)
(** the line [🧹 All featured flags removed] *)
| FlagsRemoved
(** the line [⚠️  DANGER: This will DELETE ALL PHOTOS] *)
| Danger
(** [batch.commit()] is applied *)
| BatchCommitted (docs : list string)
(** the line [Firebase cleared] *)
| FirebaseCleared
(** [cloudinary.api.resources] has answered a call with this cursor *)
| ResourcesListed (cursor : option string)
(** [cloudinary.api.delete_resources] is applied *)
| ResourcesDeleted (publicIds : list string)
(** the line [🗑️ Cloudinary folder wiped] *)
| FolderWiped
(** the line [Cloudinary cleared] *)
| CloudinaryCleared.

Record Portfolio : Type := {
  photos : Store;
  media : Assets;
  journal : list notice
}.

Definition say (ns : list notice) (p : Portfolio) : Portfolio :=
  {| photos := photos p; media := media p; journal := journal p ++ ns |}.

Definition set_featured (flag : bool) (r : PhotoRecord) : PhotoRecord :=
  {| title := title r; imageUrl := imageUrl r; width := width r;
     height := height r; camera := camera r; aperture := aperture r;
     shutterSpeed := shutterSpeed r; iso := iso r; shotDate := shotDate r;
     hash := hash r; featured := flag |}.

(** [ref.update({ featured: flag })]: the write fails on a document that
    does not exist. *)
Definition update_featured (rm : Remote) (doc : string) (flag : bool)
    (p : Portfolio) : result Portfolio :=
  match update_fault rm doc with
  | Some msg => Err msg
  | None =>
      match photos p !! doc with
      | None => Err "NOT_FOUND"
      | Some r =>
          Ok {| photos := <[doc := set_featured flag r]> (photos p);
                media := media p;
                journal := journal p ++ [FeaturedSet doc flag] |}
      end
  end.

(** ** [setFeatured] *)

(** [`IMG-${pad(Number(num))}`] *)
Definition feature_id (rm : Remote) (num : string) : string :=
  "IMG-" ++ (if decimal num then pad (Str.parseInt num)
             else Str.padStart 4 "0"%char (number_text rm num)).

(** [input.split(',').map(n => n.trim()).filter(Boolean)] *)
Definition numbers_of (h : Host) (input : string) : list string :=
  List.filter nonempty (trim h <$> split ","%char input).

(** The loop over [numbers]. *)
Fixpoint setFeatured_loop (rm : Remote) (numbers : list string)
    (p : Portfolio) : outcome * Portfolio :=
  match numbers with
  | [] => (Resolved, p)
  | num :: rest =>
      let doc := feature_id rm num in
      match photos p !! doc with
      | None => setFeatured_loop rm rest (say [NotFound doc] p)
      | Some _ =>
          match update_featured rm doc true p with
          | Err msg => (Rejected msg, p)
          | Ok p' => setFeatured_loop rm rest (say [Marked doc] p')
          end
      end
  end.

Definition setFeatured (h : Host) (rm : Remote) (input : string)
    (p : Portfolio) : outcome * Portfolio :=
  setFeatured_loop rm (numbers_of h input) p.

(** ** [clearFeatured] *)

(** The ids of the documents of a query snapshot, in the order of the
    ids. *)
Definition snapshot_ids (docs : list (string * PhotoRecord)) : list string :=
  merge_sort str_le docs.*1.

(** [where('featured', '==', true).get()] *)
Definition featured_docs (st : Store) : list string :=
  snapshot_ids (List.filter (fun d => featured d.2) (map_to_list st)).

(** The loop over [snapshot.docs]. *)
Fixpoint clearFeatured_loop (rm : Remote) (docs : list string)
    (p : Portfolio) : outcome * Portfolio :=
  match docs with
  | [] => (Resolved, say [FlagsRemoved] p)
  | doc :: rest =>
      match update_featured rm doc false p with
      | Err msg => (Rejected msg, p)
      | Ok p' => clearFeatured_loop rm rest p'
      end
  end.

Definition clearFeatured (rm : Remote) (p : Portfolio)
  : outcome * Portfolio :=
  clearFeatured_loop rm (featured_docs (photos p)) p.

(** ** [resetCloudinary] *)

Definition MAX_RESULTS : nat := 100.

(** [while (nextCursor)]: a cursor that is absent or empty ends the
    loop. *)
Definition more (cursor : option string) : bool :=
  match cursor with
  | Some c => nonempty c
  | None => false
  end.

(** The [do ... while] loop; [None] when [fuel] calls of the listing did
    not end it. *)
Fixpoint resetCloudinary_loop (rm : Remote) (fuel : nat)
    (nextCursor : option string) (p : Portfolio)
  : option (outcome * Portfolio) :=
  match fuel with
  | O => None
  | S fuel' =>
      match api_resources rm (media p) CLOUDINARY_FOLDER MAX_RESULTS
              nextCursor with
      | Err msg => Some (Rejected msg, p)
      | Ok (publicIds, next) =>
          let p1 := say [ResourcesListed nextCursor] p in
          match publicIds with
          | [] => Some (Resolved, say [FolderWiped] p1)
          | _ :: _ =>
              match delete_fault rm publicIds with
              | Some msg => Some (Rejected msg, p1)
              | None =>
                  let p2 :=
                    {| photos := photos p1;
                       media := foldr delete (media p1) publicIds;
                       journal := journal p1 ++ [ResourcesDeleted publicIds]
                    |} in
                  if more next then resetCloudinary_loop rm fuel' next p2
                  else Some (Resolved, say [FolderWiped] p2)
              end
          end
      end
  end.

Definition resetCloudinary (rm : Remote) (fuel : nat) (p : Portfolio)
  : option (outcome * Portfolio) :=
  resetCloudinary_loop rm fuel None p.

(** ** [resetDatabase] *)

(** [first] is the answer to [Type RESET to confirm: ]. *)
Definition resetDatabase (rm : Remote) (fuel : nat) (first : string)
    (p : Portfolio) : option (outcome * Portfolio) :=
  let p0 := say [Danger] p in
  if negb (String.eqb first "RESET") then Some (Resolved, p0)
  else
    let docs := snapshot_ids (map_to_list (photos p0)) in
    match commit_fault rm docs with
    | Some msg => Some (Rejected msg, p0)
    | None =>
        let p1 :=
          {| photos := foldr delete (photos p0) docs;
             media := media p0;
             journal := journal p0 ++ [BatchCommitted docs; FirebaseCleared]
          |} in
        match resetCloudinary rm fuel p1 with
        | None => None
        | Some (Rejected msg, p2) => Some (Rejected msg, p2)
        | Some (Resolved, p2) => Some (Resolved, say [CloudinaryCleared] p2)
        end
    end.

(** ** [main] *)

(** How the process ends, or where it stands when the answers are used
    up. *)
Inductive ending : Type :=
(** [process.exit(code)] *)
| Exited (code : nat)
(** the promise of [main] is rejected and [console.error] prints the
    error *)
| Crashed (message : string)
(** a prompt is waiting for an answer *)
| Prompting
(** [resetCloudinary] is still running *)
| Running.

Inductive line : Type :=
(** the menu is printed *)
| Menu
(** an event of [uploadPhotos] *)
| Upload (e : event)
(** a notice of one of the other commands *)
| Notice (n : notice)
(** the line [🎉 All photos uploaded successfully] *)
| AllUploaded
(** the lines [🚨 Upload failed] and [err.message] *)
| UploadFailed (message : string).

Record Session : Type := {
  ending_of : ending;
  s_store : Store;
  s_assets : Assets;
  transcript : list line
}.

(** One of the commands [2], [3] and [4] has run from the store [st] and
    the assets [a]: the session goes on with [continue] when it
    resolved. *)
Definition after_command (out : list line)
    (r : option (outcome * Portfolio))
    (continue : Store -> Assets -> list line -> Session)
    (st : Store) (a : Assets) : Session :=
  match r with
  | None =>
      {| ending_of := Running; s_store := st; s_assets := a;
         transcript := out |}
  | Some (Rejected msg, p) =>
      {| ending_of := Crashed msg; s_store := photos p; s_assets := media p;
         transcript := out ++ (Notice <$> journal p) |}
  | Some (Resolved, p) =>
      continue (photos p) (media p) (out ++ (Notice <$> journal p))%list
  end.

Definition desk (st : Store) (a : Assets) : Portfolio :=
  {| photos := st; media := a; journal := [] |}.

(** The [while (true)] loop of [main]; [answers] are the lines typed at
    the prompts, in order. *)
Fixpoint main_loop (h : Host) (rm : Remote) (scheds : list (list nat))
    (fuel : nat) (answers : list string) (st : Store) (a : Assets)
    (out : list line) : Session :=
  let waiting out :=
    {| ending_of := Prompting; s_store := st; s_assets := a;
       transcript := out |} in
  let out := (out ++ [Menu])%list in
  match answers with
  | [] => waiting out
  | choice :: rest =>
      if String.eqb choice "1" then
        match rest with
        | [] => waiting out
        | answer :: _ =>
            let r := uploadPhotos h (trim h answer) scheds st a in
            let out := (out ++ (Upload <$> log r.2))%list in
            match r.1 with
            | Resolved =>
                {| ending_of := Exited 0; s_store := store r.2;
                   s_assets := assets r.2;
                   transcript := out ++ [AllUploaded] |}
            | Rejected msg =>
                {| ending_of := Exited 1; s_store := store r.2;
                   s_assets := assets r.2;
                   transcript := out ++ [UploadFailed msg] |}
            end
        end
      else if String.eqb choice "2" then
        match rest with
        | [] => waiting out
        | input :: rest' =>
            after_command out (Some (setFeatured h rm input (desk st a)))
              (main_loop h rm scheds fuel rest') st a
        end
      else if String.eqb choice "3" then
        after_command out (Some (clearFeatured rm (desk st a)))
          (main_loop h rm scheds fuel rest) st a
      else if String.eqb choice "4" then
        match rest with
        | [] => waiting (out ++ [Notice Danger])%list
        | first :: rest' =>
            after_command out (resetDatabase rm fuel first (desk st a))
              (main_loop h rm scheds fuel rest') st a
        end
      else if String.eqb choice "5" then
        {| ending_of := Exited 0; s_store := st; s_assets := a;
           transcript := out |}
      else main_loop h rm scheds fuel rest st a out
  end.

Definition main (h : Host) (rm : Remote) (scheds : list (list nat))
    (fuel : nat) (answers : list string) (st : Store) (a : Assets)
  : Session :=
  main_loop h rm scheds fuel answers st a [].

(** * The text of [renderProgress] *)

(** A count or a length as a Number; the counts of the program are
    lengths of arrays, below [2^32]. *)
Definition number_of_nat (n : nat) : float :=
  PrimFloat.of_uint63 (Uint63.of_Z (Z.of_nat n)).

(** [Math.floor(x)]: a finite double is [(-1)^s * m * 2^e], and shifting
    its signed mantissa by [e] bits rounds towards minus infinity. *)
Definition Math_floor (x : float) : Js.integral :=
  match Prim2SF x with
  | S754_zero _ => Js.Int 0
  | S754_infinity s => Js.Infinite s
  | S754_nan => Js.NaN
  | S754_finite s m e => Js.Int (Z.shiftl (if s then Z.neg m else Z.pos m) e)
  end.

Definition BAR_WIDTH : Z := 30.

(** [width - filled] *)
Definition cells_left (filled : Js.integral) : Js.integral :=
  match filled with
  | Js.Int z => Js.Int (BAR_WIDTH - z)
  | Js.Infinite negative => Js.Infinite (negb negative)
  | Js.NaN => Js.NaN
  end.

Fixpoint repeat_string (s : string) (n : nat) : string :=
  match n with
  | O => ""
  | S n' => s ++ repeat_string s n'
  end.

(** [cell.repeat(count)]: a count that is not a number is taken as
    zero, a negative or infinite one throws a [RangeError]. *)
Definition repeat_cells (cell : string) (count : Js.integral)
  : result string :=
  match count with
  | Js.Int z =>
      if (z <? 0)%Z then Err "RangeError"
      else Ok (repeat_string cell (Z.to_nat z))
  | Js.Infinite _ => Err "RangeError"
  | Js.NaN => Ok ""
  end.

(** [`${Math.floor(x)}`], given the floor of [x]: an integer below
    [2^53] is printed with all its digits; a double from [2^52] on is an
    integer, so it is its own floor. *)
Definition floor_string (h : Host) (x : float) (floor : Js.integral)
  : string :=
  match floor with
  | Js.Int z =>
      if (Z.abs z <? 2 ^ 53)%Z then Js.int_string z else numberToString h x
  | Js.Infinite negative => if negative then "-Infinity" else "Infinity"
  | Js.NaN => "NaN"
  end.

Definition carriage_return : string := String "013"%char "".

(** What [renderProgress(done, total)] writes to the standard output, or
    the error it throws. *)
Definition progress_text (h : Host) (done total : nat) : result string :=
  let ratio := (number_of_nat done / number_of_nat total)%float in
  let percent := Math_floor (ratio * 100) in
  let filled := Math_floor (ratio * 30) in
  match repeat_cells "█" filled with
  | Err msg => Err msg
  | Ok full =>
      match repeat_cells "░" (cells_left filled) with
      | Err msg => Err msg
      | Ok empty =>
          Ok (carriage_return ++ "[" ++ full ++ empty ++ "] "
              ++ floor_string h (ratio * 100) percent ++ "% ("
              ++ Str.ofN (N.of_nat done) ++ "/" ++ Str.ofN (N.of_nat total)
              ++ ")" ++ (if (done =? total)%nat then newline else ""))
      end
  end.

(** * Definitions used by the further statements *)

(** The extensions of the pattern of [isImage]. *)
Definition extensions : list string := ["jpg"; "jpeg"; "png"; "webp"].

(** Every title is a padded identifier below ten thousand. *)
Definition numbered (st : Store) : Prop :=
  forall t, t ∈ titles st -> exists n, n < 10000 /\ t = img_id n.

(** The content of [it] is on record: a document written under the
    identifier of a queue item carries its hash. *)
Definition recorded (queue : list QueueItem) (it : QueueItem) (st : Store)
  : Prop :=
  exists it', it' ∈ queue /\ hash <$> st !! id it' = Some (q_hash it).

(** What a window keeps of the store [st0] the batch started from;
    [rest] are the items of later windows. *)
Definition kept (st0 : Store) (queue rest : list QueueItem)
    (us : list (QueueItem * phase)) (w : World) : Prop :=
  (forall doc, doc ∉ id <$> queue -> store w !! doc = st0 !! doc)
  /\ (forall doc r, store w !! doc = Some r ->
        st0 !! doc = Some r
        \/ exists it, it ∈ queue /\ doc = id it /\ hash r = q_hash it
                      /\ title r = doc /\ featured r = false)
  /\ (forall doc, is_Some (st0 !! doc) -> is_Some (store w !! doc))
  /\ (forall it, it ∈ queue ->
        (exists j p, us !! j = Some (it, p)) \/ it ∈ rest
        \/ id it ∈ failed w \/ recorded queue it (store w))
  /\ (forall j it p, us !! j = Some (it, p) -> it ∈ queue).

(** The candidates that survive the pass before assignment against the
    store [st], or the error of the first file that cannot be hashed. *)
Definition hashed (h : Host) (st : Store) (allFiles : list string)
  : result (list PendingPhoto) :=
  (collect_pending h allFiles (start st ∅)).1.

(** The files a run finds: the sorted paths of the images in the listed
    folders, when the list and the folders can be read. *)
Definition discovered (h : Host) (listFile : string) : option (list string) :=
  if existsSync h listFile then
    match readFileSync h listFile with
    | Ok text =>
        match (scan h (folders_of h text) (start ∅ ∅)).1 with
        | Ok files => Some (sort_paths files)
        | Err _ => None
        end
    | Err _ => None
    end
  else None.

(** [path] is an image of a folder of the list that exists and can be
    read. *)
Definition listed_image (h : Host) (listFile : string) (path : string)
  : Prop :=
  exists text dir names name,
    readFileSync h listFile = Ok text
    /\ dir ∈ folders_of h text /\ existsSync h dir = true
    /\ readdirSync h dir = Ok names
    /\ name ∈ names /\ isImage name = true
    /\ path = path_join h dir name.

(** The same folder when [a/2.JPG] cannot be read. *)
Definition example_host_unreadable : Host :=
  {| existsSync := existsSync example_host;
     readFileSync := readFileSync example_host;
     readdirSync := readdirSync example_host;
     trim := trim example_host;
     path_join := path_join example_host;
     path_basename := path_basename example_host;
     hashFile := fun p =>
       if String.eqb p "a/2.JPG" then Err "EACCES: permission denied"
       else Ok ("sha1:" ++ p);
     exifr_parse := exifr_parse example_host;
     image_size := image_size example_host;
     asset_url := asset_url example_host;
     upload_fault := upload_fault example_host;
     set_fault := set_fault example_host;
     numberToString := numberToString example_host |}.

(** The title of every document is its id. *)
Definition ids_are_titles (st : Store) : Prop :=
  forall doc r, st !! doc = Some r -> title r = doc.

(** The largest batch for which the text of the progress line is
    checked. *)
Definition CHECKED_FILES : nat := 200.

(** The number of filled cells and the percentage of a progress line. *)
Definition bar_of (done total : nat) : option (Z * Z) :=
  let ratio := (number_of_nat done / number_of_nat total)%float in
  match Math_floor (ratio * 30), Math_floor (ratio * 100) with
  | Js.Int f, Js.Int p => Some (f, p)
  | _, _ => None
  end.

(** The cells and the percentage are the exact quotients rounded down,
    or one less; the bar is full, and the percentage 100, exactly at the
    end. *)
Definition bar_ok (total done : nat) : bool :=
  match bar_of done total with
  | Some (f, p) =>
      let ef := (30 * Z.of_nat done / Z.of_nat total)%Z in
      let ep := (100 * Z.of_nat done / Z.of_nat total)%Z in
      ((f =? ef)%Z || (f =? ef - 1)%Z) && ((p =? ep)%Z || (p =? ep - 1)%Z)
      && (0 <=? f)%Z && (f <=? 30)%Z && (0 <=? p)%Z && (p <=? 100)%Z
      && Bool.eqb (f =? 30)%Z (done =? total)%nat
      && Bool.eqb (p =? 100)%Z (done =? total)%nat
  | None => false
  end.

(** [bar_ok] for every total from one to [bound] and every count up to
    the total. *)
Definition bars_ok (bound : nat) : bool :=
  forallb (fun t => forallb (bar_ok t) (seq 0 (S t))) (seq 1 bound).

(** The text of a progress line with [filled] cells and the percentage
    [percent]. *)
Definition progress_line (filled percent done total : nat) : string :=
  carriage_return ++ "[" ++ repeat_string "█" filled
    ++ repeat_string "░" (30 - filled) ++ "] "
    ++ Str.ofN (N.of_nat percent) ++ "% (" ++ Str.ofN (N.of_nat done) ++ "/"
    ++ Str.ofN (N.of_nat total) ++ ")"
    ++ (if (done =? total)%nat then newline else "").

(** The progress lines and newlines of [n] outcomes in a row against
    [total]: what [renderProgress] writes for the counts 1 to [n]. *)
Definition counting_up (total n : nat) : list event :=
  flat_map (fun d => renderProgress d total) (seq 1 n).

(** The number of files a run finds. *)
Definition found (h : Host) (listFile : string) : nat :=
  match discovered h listFile with
  | Some allFiles => length allFiles
  | None => 0
  end.

(** The progress lines of a world count its outcomes up from one. *)
Definition counted (total : nat) (w : World) : Prop :=
  progress_events (log w)
  = counting_up total (completed w + length (failed w)).

(** Two stores with the same documents, equal but for the flag
    [featured]. *)
Definition flag_only (st st' : Store) : Prop :=
  forall doc,
    set_featured false <$> st !! doc = set_featured false <$> st' !! doc.

(** The identifiers addressed by the answer to the prompt of
    [setFeatured]. *)
Definition addressed (h : Host) (rm : Remote) (input : string)
  : list string :=
  feature_id rm <$> numbers_of h input.

(** What [setFeatured] prints and does for one identifier, by whether
    the document exists. *)
Definition marking (st : Store) (doc : string) : list notice :=
  if bool_decide (is_Some (st !! doc))
  then [FeaturedSet doc true; Marked doc]
  else [NotFound doc].

(** The documents of [st] with the flag of those in [docs] set to
    [flag]. *)
Definition flagged (flag : bool) (docs : list string) (st : Store)
    (doc : string) : option PhotoRecord :=
  if bool_decide (doc ∈ docs) then set_featured flag <$> st !! doc
  else st !! doc.

(** A remote without faults whose listing answers with every asset under
    the prefix in one page. *)
Definition example_remote : Remote :=
  {| number_text := fun _ => "NaN";
     update_fault := fun _ => None;
     commit_fault := fun _ => None;
     api_resources := fun a prefix _ _ =>
       Ok (List.filter (String.prefix prefix) (map_to_list a).*1, None);
     delete_fault := fun _ => None |}.

(** The store with [IMG-0007] and no assets. *)
Definition example_desk : Portfolio :=
  {| photos := store_0007; media := ∅; journal := [] |}.

(** A store with one featured document. *)
Definition store_featured : Store :=
  <["IMG-0001" := set_featured true (blank_record "IMG-0001" "h1")]>
    (<["IMG-0000" := blank_record "IMG-0000" "h0"]> ∅).

(** That store and no assets. *)
Definition featured_desk : Portfolio :=
  {| photos := store_featured; media := ∅; journal := [] |}.

(** The listing answers with public ids under the prefix it is asked
    for. *)
Definition honours_prefix (rm : Remote) : Prop :=
  forall a c ids next,
    api_resources rm a CLOUDINARY_FOLDER MAX_RESULTS c = Ok (ids, next) ->
    forall k, k ∈ ids -> String.prefix CLOUDINARY_FOLDER k = true.

(** The listing answers with public ids of assets that exist. *)
Definition lists_existing (rm : Remote) : Prop :=
  forall a c ids next,
    api_resources rm a CLOUDINARY_FOLDER MAX_RESULTS c = Ok (ids, next) ->
    forall k, k ∈ ids -> is_Some (a !! k).

(** A remote whose listing fails. *)
Definition example_remote_offline : Remote :=
  {| number_text := number_text example_remote;
     update_fault := update_fault example_remote;
     commit_fault := commit_fault example_remote;
     api_resources := fun _ _ _ _ => Err "ETIMEDOUT";
     delete_fault := delete_fault example_remote |}.

(** Two assets of the folder and one outside it. *)
Definition example_media : Assets :=
  <["photo-portfolio/IMG-0000" :=
      {| a_source := "a/1.jpg"; a_width := 10; a_height := 10 |}]>
    (<["photo-portfolio/IMG-0001" :=
         {| a_source := "a/2.JPG"; a_width := 10; a_height := 10 |}]>
       (<["logo" := {| a_source := "logo.png"; a_width := 1; a_height := 1 |}]>
          ∅)).

(** Two documents and three assets. *)
Definition full_desk : Portfolio :=
  {| photos := store_featured; media := example_media; journal := [] |}.

(** Every asset of [a] that is not in [a'] as it was is named by a page
    of the listing, asked for with the prefix of the folder when the
    assets were [a] or a part of them. *)
Definition only_listed (rm : Remote) (a a' : Assets) : Prop :=
  forall k, a' !! k = a !! k
    \/ exists a1 c ids next,
         a1 ⊆ a
         /\ api_resources rm a1 CLOUDINARY_FOLDER MAX_RESULTS c
            = Ok (ids, next)
         /\ k ∈ ids.

(** The listing pages through the assets under the prefix: [after c k]
    says that the asset [k] comes after the cursor [c]; a call leaves
    out, of the assets after its cursor, only those after the cursor it
    answers with, and none when it answers with an empty page or with no
    cursor. *)
Definition pages_through (rm : Remote)
    (after : option string -> string -> Prop) : Prop :=
  (forall k, after None k)
  /\ forall a c ids next,
       api_resources rm a CLOUDINARY_FOLDER MAX_RESULTS c = Ok (ids, next) ->
       forall k, String.prefix CLOUDINARY_FOLDER k = true ->
         is_Some (a !! k) -> after c k ->
         k ∈ ids \/ (ids <> [] /\ more next = true /\ after next k).

(** A line typed at the menu that is none of its five choices. *)
Definition unknown_choice (c : string) : Prop :=
  c ∉ ["1"; "2"; "3"; "4"; "5"].

(** The first file queued by a run of [example_host] on an empty store. *)
Definition example_first : QueueItem :=
  {| q_filePath := "a/1.jpg"; q_hash := "sha1:a/1.jpg"; id := "IMG-0000" |}.

(** What [resetCloudinary] leaves of [full_desk]. *)
Definition wiped_desk : Portfolio :=
  {| photos := store_featured;
     media := <["logo" := {| a_source := "logo.png"; a_width := 1;
                             a_height := 1 |}]> ∅;
     journal := [ResourcesListed None;
                 ResourcesDeleted ["photo-portfolio/IMG-0001";
                                   "photo-portfolio/IMG-0000"];
                 FolderWiped] |}.

(** What [resetDatabase] leaves of [full_desk]. *)
Definition reset_desk : Portfolio :=
  {| photos := ∅;
     media := media wiped_desk;
     journal := [Danger; BatchCommitted ["IMG-0000"; "IMG-0001"];
                 FirebaseCleared; ResourcesListed None;
                 ResourcesDeleted ["photo-portfolio/IMG-0001";
                                   "photo-portfolio/IMG-0000"];
                 FolderWiped; CloudinaryCleared] |}.

(** ** How the unit of a queue item ends *)

(** The unit of [it] has changed nothing: the document and the asset
    under its identifier are those of the store [st0] and the assets [a0]
    the batch started from, and it is not in [failed]. *)
Definition pristine (st0 : Store) (a0 : Assets) (it : QueueItem) (w : World)
  : Prop :=
  store w !! id it = st0 !! id it /\ (id it ∉ failed w) /\ untouched a0 it w.

(** The asset store accepted the upload of [it] with the response [up]:
    the call on the assets [a0] succeeds, and the asset under the public
    name of [it] is the one it stores. *)
Definition uploaded (h : Host) (a0 : Assets) (it : QueueItem)
    (up : UploadResponse) (w : World) : Prop :=
  exists a', Cloud.upload h (upload_request it) a0 = Ok (up, a')
             /\ assets w !! Cloud.key (upload_request it)
                = a' !! Cloud.key (upload_request it).

(** What holds of a unit that is suspended at [p]. *)
Definition suspended (h : Host) (st0 : Store) (a0 : Assets) (it : QueueItem)
    (p : phase) (w : World) : Prop :=
  match p with
  | AwaitHashExists | AwaitExif => pristine st0 a0 it w
  | AwaitUpload exif =>
      pristine st0 a0 it w /\ exifr_parse h (q_filePath it) = Ok exif
  | AwaitSet exif up =>
      store w !! id it = st0 !! id it /\ (id it ∉ failed w)
      /\ exifr_parse h (q_filePath it) = Ok exif
      /\ uploaded h a0 it up w
      /\ UploadCalled (upload_request it) ∈ log w
  end.

(** The ways the unit of [it] can end, in a batch over [queue] that
    started from the store [st0] and the assets [a0]. *)
Inductive ended (h : Host) (st0 : Store) (a0 : Assets)
    (queue : list QueueItem) (it : QueueItem) (w : World) : Prop :=
(** its own check found a record: nothing is called or written *)
| ended_duplicate (it' : QueueItem) :
    it' ∈ queue -> it' <> it -> q_hash it' = q_hash it ->
    hash <$> store w !! id it' = Some (q_hash it) ->
    pristine st0 a0 it w ->
    ended h st0 a0 queue it w
(** the EXIF read threw *)
| ended_exif (msg : string) :
    exifr_parse h (q_filePath it) = Err msg ->
    id it ∈ failed w -> FailureLine (id it) msg ∈ log w ->
    store w !! id it = st0 !! id it -> untouched a0 it w ->
    ended h st0 a0 queue it w
(** the upload was called and refused *)
| ended_upload (exif : option Exif) (msg : string) :
    exifr_parse h (q_filePath it) = Ok exif ->
    Cloud.upload h (upload_request it) a0 = Err msg ->
    UploadCalled (upload_request it) ∈ log w ->
    id it ∈ failed w -> FailureLine (id it) msg ∈ log w ->
    store w !! id it = st0 !! id it -> untouched a0 it w ->
    ended h st0 a0 queue it w
(** the asset is stored and the write of the document failed *)
| ended_set (exif : option Exif) (up : UploadResponse) (msg : string) :
    exifr_parse h (q_filePath it) = Ok exif ->
    uploaded h a0 it up w ->
    UploadCalled (upload_request it) ∈ log w ->
    set_fault h (id it) = Some msg ->
    id it ∈ failed w -> FailureLine (id it) msg ∈ log w ->
    store w !! id it = st0 !! id it ->
    ended h st0 a0 queue it w
(** the asset is stored and the document written *)
| ended_persisted (exif : option Exif) (up : UploadResponse) :
    exifr_parse h (q_filePath it) = Ok exif ->
    uploaded h a0 it up w ->
    UploadCalled (upload_request it) ∈ log w ->
    set_fault h (id it) = None ->
    store w !! id it = Some (photo_record h it exif up) ->
    Persisted (id it) (photo_record h it exif up) ∈ log w ->
    id it ∉ failed w ->
    ended h st0 a0 queue it w.

(** The invariant of a window behind the ends of the units; [rest] are
    the items of later windows: the units in flight and those to come
    have distinct identifiers and are as their [await] leaves them, every
    other unit of the queue has ended, every document is one the batch
    started with or is under an identifier of the queue with the hash of
    its item, and no identifier is in [failed] twice. *)
Definition coursed (h : Host) (st0 : Store) (a0 : Assets)
    (queue rest : list QueueItem) (us : list (QueueItem * phase))
    (w : World) : Prop :=
  NoDup (ids_of us ++ (id <$> rest))
  /\ (forall it, it ∈ rest -> it ∈ queue /\ pristine st0 a0 it w)
  /\ (forall j it p, us !! j = Some (it, p) ->
        it ∈ queue /\ suspended h st0 a0 it p w)
  /\ (forall it, it ∈ queue ->
        id it ∉ ids_of us -> id it ∉ id <$> rest ->
        ended h st0 a0 queue it w)
  /\ (forall doc r, store w !! doc = Some r ->
        st0 !! doc = Some r
        \/ exists it, it ∈ queue /\ doc = id it /\ hash r = q_hash it)
  /\ NoDup (failed w).

(** Another unit of the queue has the content of [it] and has recorded
    it under its own identifier: the unit of [it] was stopped by its own
    check. *)
Definition recorded_by_twin (queue : list QueueItem) (it : QueueItem)
    (st : Store) : Prop :=
  exists it', it' ∈ queue /\ it' <> it /\ q_hash it' = q_hash it
              /\ hash <$> st !! id it' = Some (q_hash it).

(** The dimensions in the document [rec] are those of the source image of
    [it] within the limit of 2048: the source dimensions when neither
    exceeds it, otherwise dimensions that are not larger than the source,
    do not exceed the limit and keep the aspect ratio up to rounding. *)
Definition sized (h : Host) (it : QueueItem) (rec : PhotoRecord) : Prop :=
  let sw := fst (image_size h (q_filePath it)) in
  let sh := snd (image_size h (q_filePath it)) in
  (sw <= 2048 -> sh <= 2048 -> width rec = sw /\ height rec = sh)
  /\ ((width rec, height rec) <> (sw, sh) -> 2048 < sw \/ 2048 < sh)
  /\ width rec <= sw /\ height rec <= sh
  /\ width rec <= 2048 /\ height rec <= 2048
  /\ 2 * (width rec * sh) <= 2 * (height rec * sw) + N.max sw sh
  /\ 2 * (height rec * sw) <= 2 * (width rec * sh) + N.max sw sh.

(** The request of the upload call for [it]. *)
Definition request_for (it : QueueItem) (req : UploadRequest) : Prop :=
  u_file req = q_filePath it /\ folder req = "photo-portfolio"
  /\ public_id req = id it /\ unique_filename req = false
  /\ overwrite req = false
  /\ transformation req
     = [ {| t_if := w_gt 2048; t_width := 2048; t_height := 2048;
            t_crop := limit |};
         {| t_if := h_gt 2048; t_width := 2048; t_height := 2048;
            t_crop := limit |} ].

(** The folders warned about, in the order of the log. *)
Definition warned_folder (e : event) : option string :=
  match e with
  | Warned dir => Some dir
  | _ => None
  end.

Definition warnings (l : list event) : list string := omap warned_folder l.

(** Assets in which the public name of the second file of the example
    is taken. *)
Definition example_assets_taken : Assets :=
  <["photo-portfolio/IMG-0001" :=
      {| a_source := "old.jpg"; a_width := 1; a_height := 1 |}]> ∅.

(** * Properties *)

(** ** Decimal numerals *)

Lemma parse_acc_uint (d : Decimal.uint) (acc : N) :
  Str.parse_acc acc (NilEmpty.string_of_uint d) = uint_value acc d.
Proof.
  revert acc. induction d; intros acc; simpl; try reflexivity; apply IHd.
Qed.

Lemma uint_value_pos (d : Decimal.uint) (p : positive) :
  uint_value (Npos p) d = Npos (Pos.of_uint_acc d p).
Proof.
  revert p. induction d; intros p; simpl; try reflexivity;
    rewrite <- IHd; f_equal; lia.
Qed.

Lemma uint_value_0 (d : Decimal.uint) : uint_value 0 d = N.of_uint d.
Proof.
  induction d; simpl; try reflexivity; try assumption;
    unfold N.of_uint; simpl; apply uint_value_pos.
Qed.

Lemma all_digits_uint (d : Decimal.uint) :
  Str.all_digits (NilEmpty.string_of_uint d) = true.
Proof. induction d; simpl; auto. Qed.

Lemma parseInt_ofN (n : N) : Str.parseInt (Str.ofN n) = n.
Proof.
  unfold Str.parseInt, Str.ofN.
  rewrite parse_acc_uint, uint_value_0. apply DecimalN.Unsigned.of_to.
Qed.

Lemma all_digits_ofN (n : N) : Str.all_digits (Str.ofN n) = true.
Proof. apply all_digits_uint. Qed.

Lemma ofN_nonempty (n : N) : Str.ofN n <> "".
Proof.
  unfold Str.ofN. destruct n as [|p]; [discriminate|].
  simpl. pose proof (DecimalPos.Unsigned.to_uint_nonnil p) as Hn.
  destruct (Pos.to_uint p); simpl; congruence.
Qed.


(** ** Identifiers *)

Lemma all_digits_app (a b : string) :
  Str.all_digits (a ++ b) = Str.all_digits a && Str.all_digits b.
Proof.
  induction a as [|c a IH]; simpl; [reflexivity|].
  rewrite IH. apply andb_assoc.
Qed.

Lemma all_digits_zeros (n : nat) : Str.all_digits (Str.repeat "0" n) = true.
Proof. induction n; simpl; auto. Qed.

Lemma parse_acc_zeros (n : nat) (s : string) :
  Str.parse_acc 0 (Str.repeat "0" n ++ s) = Str.parse_acc 0 s.
Proof. induction n; simpl; auto. Qed.

Lemma pad_digits (n : N) : Str.all_digits (pad n) = true.
Proof.
  unfold pad, Str.padStart.
  rewrite all_digits_app, all_digits_zeros, all_digits_ofN. reflexivity.
Qed.

Lemma pad_nonempty (n : N) : pad n <> "".
Proof.
  unfold pad, Str.padStart. intros H.
  destruct (Str.repeat "0" (4 - String.length (Str.ofN n))) as [|c r];
    simpl in H; [|discriminate].
  exact (ofN_nonempty n H).
Qed.

Lemma parseInt_pad (n : N) : Str.parseInt (pad n) = n.
Proof.
  unfold pad, Str.padStart, Str.parseInt.
  rewrite parse_acc_zeros. apply parseInt_ofN.
Qed.

Lemma take_digits_all (s : string) :
  Str.all_digits s = true -> Str.take_digits s = s.
Proof.
  induction s as [|c s IH]; simpl; [reflexivity|].
  intros H. apply andb_prop in H as [Hc Hs]. rewrite Hc, IH; auto.
Qed.

Lemma match_IMG_prefixed (ds : string) :
  Str.all_digits ds = true -> ds <> "" -> match_IMG ("IMG-" ++ ds) = Some ds.
Proof.
  intros Hd Hne. destruct ds as [|d ds]; [congruence|].
  simpl in Hd. apply andb_prop in Hd as [Hc Hs].
  change ("IMG-" ++ String d ds)
    with (String "I" (String "M" (String "G" (String "-" (String d ds))))).
  cbn [match_IMG String.prefix Str.drop Str.take_digits].
  repeat (destruct (ascii_dec _ _) as [_|Hx]; [|congruence]).
  rewrite Hc, take_digits_all by assumption. reflexivity.
Qed.

Lemma id_number_img_id (n : N) : id_number (img_id n) = Some n.
Proof.
  unfold id_number, img_id.
  rewrite match_IMG_prefixed by (apply pad_digits || apply pad_nonempty).
  simpl. f_equal. apply parseInt_pad.
Qed.

Lemma img_id_inj (n m : N) : img_id n = img_id m -> n = m.
Proof.
  intros H. apply (f_equal id_number) in H.
  rewrite !id_number_img_id in H. congruence.
Qed.

(** ** The order on titles *)

Lemma ascii_compare_trans (a b c : ascii) (r : comparison) :
  Ascii.compare a b = r -> Ascii.compare b c = r -> Ascii.compare a c = r.
Proof.
  unfold Ascii.compare. intros H1 H2. destruct r.
  - apply N.compare_eq_iff in H1, H2. apply N.compare_eq_iff. congruence.
  - rewrite N.compare_lt_iff in *. lia.
  - rewrite N.compare_gt_iff in *. lia.
Qed.

Lemma string_compare_lt_trans (a b c : string) :
  String.compare a b = Lt -> String.compare b c = Lt -> String.compare a c = Lt.
Proof.
  revert b c. induction a as [|x a IH]; intros [|y b] [|z c]; simpl;
    try discriminate; auto.
  destruct (Ascii.compare x y) eqn:Hxy; try discriminate;
    destruct (Ascii.compare y z) eqn:Hyz; try discriminate; intros H1 H2.
  - rewrite (ascii_compare_trans _ _ _ _ Hxy Hyz). eauto.
  - apply Ascii.compare_eq_iff in Hxy. subst. rewrite Hyz. reflexivity.
  - apply Ascii.compare_eq_iff in Hyz. subst. rewrite Hxy. reflexivity.
  - rewrite (ascii_compare_trans _ _ _ _ Hxy Hyz). reflexivity.
Qed.

Lemma str_le_iff (a b : string) :
  str_le a b <-> String.compare a b = Lt \/ a = b.
Proof.
  unfold str_le, String.leb. split.
  - destruct (String.compare a b) eqn:H; intros; try discriminate; auto.
    right. apply String.compare_eq_iff. assumption.
  - intros [H | ->].
    + rewrite H. reflexivity.
    + destruct (String.compare b b) eqn:H; auto.
      pose proof (String.compare_antisym b b) as A.
      rewrite H in A. discriminate A.
Qed.

#[global] Instance str_le_refl : Reflexive str_le.
Proof. intros a. apply str_le_iff. auto. Qed.

#[global] Instance str_le_trans : Transitive str_le.
Proof.
  intros a b c Hab Hbc. apply str_le_iff in Hab, Hbc. apply str_le_iff.
  destruct Hab as [Hab | ->]; destruct Hbc as [Hbc | ->]; auto.
  left. eapply string_compare_lt_trans; eassumption.
Qed.

#[global] Instance str_le_total : Total str_le.
Proof. intros a b. apply String.leb_total. Qed.

#[global] Instance str_le_antisym : AntiSymm eq str_le.
Proof. intros a b. apply String.leb_antisym. Qed.

Lemma str_le_of_not (a b : string) : String.leb a b = false -> str_le b a.
Proof.
  intros H. destruct (str_le_total a b) as [Hab|Hba]; [|exact Hba].
  unfold str_le in Hab. congruence.
Qed.

Lemma later_title_greatest (ts : list string) (t : string) :
  foldr later_title None ts = Some t <-> greatest t ts.
Proof.
  revert t. induction ts as [|x ts IH]; intros t; simpl.
  - split; [discriminate | intros [H _]; by apply elem_of_nil in H].
  - destruct (foldr later_title None ts) as [m|] eqn:Hm; simpl.
    + destruct (proj1 (IH m) eq_refl) as [Hin Hmax].
      assert (Hg : greatest (if String.leb m x then x else m) (x :: ts)).
      { destruct (String.leb m x) eqn:Hle; split.
        - apply elem_of_cons; auto.
        - intros t' Ht'. apply elem_of_cons in Ht' as [-> | Ht'];
            [reflexivity|]. transitivity m; [auto | exact Hle].
        - apply elem_of_cons; auto.
        - intros t' Ht'. apply elem_of_cons in Ht' as [-> | Ht']; auto.
          by apply str_le_of_not. }
      split.
      * intros [= <-]. exact Hg.
      * intros [Ht Hgt]. f_equal. destruct Hg as [Hi Hg].
        apply (anti_symm str_le); auto.
    + destruct ts as [|y ts].
      * split.
        -- intros [= <-]. split; [apply elem_of_cons; auto|].
           intros t' Ht'. apply elem_of_cons in Ht' as [-> | Ht'];
             [reflexivity | by apply elem_of_nil in Ht'].
        -- intros [Ht _]. apply elem_of_cons in Ht as [-> | Ht];
             [reflexivity | by apply elem_of_nil in Ht].
      * simpl in Hm. destruct (foldr later_title None ts); discriminate.
Qed.

(** ** Sequencing (claim C1) *)

Lemma getNextImageNumber_seed (st : Store) (seed : N) :
  seed_of st seed -> getNextImageNumber st = seed.
Proof.
  unfold getNextImageNumber, last_title. intros [Hnone | t Hg Hm | t M Hg Hm].
  - destruct (foldr later_title None (titles st)) as [t|] eqn:Ht;
      [|reflexivity].
    apply later_title_greatest in Ht as [Hin _]. by rewrite (Hnone t Hin).
  - apply later_title_greatest in Hg. by rewrite Hg, Hm.
  - apply later_title_greatest in Hg. rewrite Hg.
    unfold id_number in Hm. destruct (match_IMG t); simpl in Hm; congruence.
Qed.

Lemma uploadQueue_lookup (counter : N) (pending : list PendingPhoto)
    (k : nat) (item : PendingPhoto) :
  pending !! k = Some item ->
  uploadQueue counter pending !! k
  = Some {| q_filePath := filePath item; q_hash := p_hash item;
            id := img_id (counter + N.of_nat k) |}.
Proof. intros H. unfold uploadQueue. by rewrite list_lookup_imap, H. Qed.

(** C1, as the code has it: the seed is read from the greatest title of
    the whole store.  When that title matches the pattern with number [M]
    the [k]-th surviving candidate gets [IMG-] followed by [M + 1 + k]; when
    the store is empty, no title matches, or the greatest title does not
    match, it gets [IMG-] followed by [k]. *)
Theorem monotonic_sequencing (st : Store) (seed : N)
    (pending : list PendingPhoto) (k : nat) (item : PendingPhoto) :
  seed_of st seed ->
  pending !! k = Some item ->
  seed + N.of_nat k < 2 ^ 53 ->
  uploadQueue (getNextImageNumber st) pending !! k
  = Some {| q_filePath := filePath item; q_hash := p_hash item;
            id := img_id (seed + N.of_nat k) |}
  /\ id_number (img_id (seed + N.of_nat k)) = Some (seed + N.of_nat k).
Proof.
  intros Hseed Hk _. rewrite (getNextImageNumber_seed st seed Hseed).
  split; [by apply uploadQueue_lookup | apply id_number_img_id].
Qed.

(** In a store whose titles all match the pattern, as [processPhoto]
    writes them, the greatest matching title is the greatest title. *)
Lemma greatest_matching_greatest (t : string) (st : Store) :
  (forall t', t' ∈ titles st -> is_Some (match_IMG t')) ->
  greatest_matching t st -> greatest t (titles st).
Proof.
  intros Hall (Hin & _ & Hmax). split; [exact Hin|].
  intros t' Ht'. apply Hmax; [exact Ht' | by apply Hall].
Qed.

Lemma store_0007_greatest : greatest "IMG-0007" (titles store_0007).
Proof.
  split; [vm_compute; apply list_elem_of_singleton; reflexivity|].
  intros t' Ht'. vm_compute in Ht'.
  apply list_elem_of_singleton in Ht' as ->. reflexivity.
Qed.

Lemma monotonic_sequencing_witness :
  uploadQueue (getNextImageNumber store_0007) three_pending !! 2%nat
  = Some {| q_filePath := "b/1.jpg"; q_hash := "x3"; id := "IMG-0010" |}.
Proof.
  exact (proj1 (monotonic_sequencing store_0007 8 three_pending 2
                  {| filePath := "b/1.jpg"; p_hash := "x3" |}
                  (seed_next store_0007 "IMG-0007" 7 store_0007_greatest
                     eq_refl)
                  eq_refl eq_refl)).
Defined.

(** The claim as written reads the seed from the greatest title among
    those that match the pattern; a store that also holds a greater title
    of another form (here a record titled by hand) restarts the numbering
    at 0. *)
Lemma monotonic_sequencing_counterexample :
  greatest_matching "IMG-0003" mixed_store
  /\ id_number "IMG-0003" = Some 3
  /\ id <$> uploadQueue (getNextImageNumber mixed_store) three_pending !! 0%nat
     = Some "IMG-0000"
  /\ "IMG-0000" <> img_id (3 + 1).
Proof.
  split; [|split; [reflexivity | split; [reflexivity | discriminate]]].
  split; [|split].
  - vm_compute. apply list_elem_of_In. simpl. auto.
  - eexists. reflexivity.
  - intros t' Ht' Hm. vm_compute in Ht'.
    apply list_elem_of_In in Ht'. simpl in Ht'.
    destruct Ht' as [<- | [<- | []]];
      first [reflexivity | destruct Hm as [x Hx]; discriminate Hx].
Qed.

(** Titles are compared as strings: once a number has five digits the
    greatest title is no longer the one with the greatest number, and the
    next identifier is one the store already holds. *)
Example sequencing_beyond_padding :
  getNextImageNumber five_digit_store = 10000
  /\ is_Some (five_digit_store !! img_id 10000).
Proof. split; [vm_compute; reflexivity | vm_compute; eauto]. Qed.
(** ** The order of [sort] *)

Lemma units_compare_refl (a : list N) : Utf16.compare a a = Eq.
Proof.
  induction a as [|x a IH]; simpl; [done|]. by rewrite N.compare_refl.
Qed.

Lemma units_compare_eq (a b : list N) : Utf16.compare a b = Eq -> a = b.
Proof.
  revert b. induction a as [|x a IH]; intros [|y b]; simpl; try done.
  destruct (x ?= y) eqn:Hxy; try done.
  apply N.compare_eq in Hxy. intros H. by rewrite Hxy, (IH b H).
Qed.

Lemma units_compare_antisym (a b : list N) :
  Utf16.compare b a = CompOpp (Utf16.compare a b).
Proof.
  revert b. induction a as [|x a IH]; intros [|y b]; simpl; try done.
  rewrite (N.compare_antisym x y). destruct (x ?= y); simpl; auto.
Qed.

Lemma units_compare_lt_trans (a b c : list N) :
  Utf16.compare a b = Lt -> Utf16.compare b c = Lt -> Utf16.compare a c = Lt.
Proof.
  revert b c. induction a as [|x a IH]; intros [|y b] [|z c]; simpl; try done.
  destruct (x ?= y) eqn:Hxy; try done; destruct (y ?= z) eqn:Hyz; try done.
  - apply N.compare_eq in Hxy, Hyz. subst. rewrite N.compare_refl. apply IH.
  - apply N.compare_eq in Hxy. subst. by rewrite Hyz.
  - apply N.compare_eq in Hyz. subst. by rewrite Hxy.
  - rewrite N.compare_lt_iff in Hxy, Hyz.
    assert (Hxz : (x ?= z) = Lt) by (apply N.compare_lt_iff; lia).
    by rewrite Hxz.
Qed.

Lemma js_compare_eq (a b : string) : js_compare a b = Eq -> a = b.
Proof.
  unfold js_compare.
  destruct (Utf16.compare (Utf16.of_utf8 a) (Utf16.of_utf8 b)); try done.
  apply String.compare_eq_iff.
Qed.

Lemma js_compare_refl (a : string) : js_compare a a = Eq.
Proof.
  unfold js_compare. rewrite units_compare_refl.
  pose proof (String.compare_antisym a a) as A.
  by destruct (String.compare a a).
Qed.

Lemma js_compare_antisym (a b : string) :
  js_compare b a = CompOpp (js_compare a b).
Proof.
  unfold js_compare.
  rewrite (units_compare_antisym (Utf16.of_utf8 a) (Utf16.of_utf8 b)).
  destruct (Utf16.compare (Utf16.of_utf8 a) (Utf16.of_utf8 b)); simpl; auto.
  apply String.compare_antisym.
Qed.

Lemma js_compare_lt_trans (a b c : string) :
  js_compare a b = Lt -> js_compare b c = Lt -> js_compare a c = Lt.
Proof.
  unfold js_compare.
  destruct (Utf16.compare (Utf16.of_utf8 a) (Utf16.of_utf8 b)) eqn:Hab;
    try done;
    destruct (Utf16.compare (Utf16.of_utf8 b) (Utf16.of_utf8 c)) eqn:Hbc;
    try done; intros H1 H2.
  - apply units_compare_eq in Hab, Hbc. rewrite Hab, Hbc, units_compare_refl.
    eapply string_compare_lt_trans; eassumption.
  - apply units_compare_eq in Hab. by rewrite Hab, Hbc.
  - apply units_compare_eq in Hbc. by rewrite <- Hbc, Hab.
  - by rewrite (units_compare_lt_trans _ _ _ Hab Hbc).
Qed.

Lemma js_le_iff (a b : string) :
  js_le a b <-> js_compare a b = Lt \/ a = b.
Proof.
  unfold js_le, js_leb. split.
  - destruct (js_compare a b) eqn:H; intros; try discriminate; auto.
    right. by apply js_compare_eq.
  - intros [-> | ->]; [done|]. by rewrite js_compare_refl.
Qed.

#[global] Instance js_le_refl : Reflexive js_le.
Proof. intros a. apply js_le_iff. auto. Qed.

#[global] Instance js_le_trans : Transitive js_le.
Proof.
  intros a b c Hab Hbc. apply js_le_iff in Hab, Hbc. apply js_le_iff.
  destruct Hab as [Hab | ->]; destruct Hbc as [Hbc | ->]; auto.
  left. eapply js_compare_lt_trans; eassumption.
Qed.

#[global] Instance js_le_total : Total js_le.
Proof.
  intros a b. unfold js_le, js_leb. rewrite (js_compare_antisym a b).
  destruct (js_compare a b); simpl; auto.
Qed.

#[global] Instance js_le_antisym : AntiSymm eq js_le.
Proof.
  intros a b Hab Hba. apply js_le_iff in Hab as [Hab | ->]; [|done].
  apply js_le_iff in Hba as [Hba | ->]; [|done].
  rewrite (js_compare_antisym a b), Hab in Hba. discriminate.
Qed.

(** *** Well-formed strings *)

Lemma byte_of (c : ascii) (n : N) : n = N_of_ascii c -> byte n = c.
Proof. intros ->. apply ascii_N_embedding. Qed.

Lemma byte_bound (c : ascii) : N_of_ascii c < 256.
Proof. apply N_ascii_bounded. Qed.

Ltac bools :=
  repeat match goal with
  | H : _ && _ = true |- _ => apply andb_true_iff in H as [? ?]
  | H : _ || _ = true |- _ => apply orb_true_iff in H as [H|H]
  | H : negb _ = true |- _ => apply negb_true_iff in H
  | H : (_ <? _) = true |- _ => apply N.ltb_lt in H
  | H : (_ <? _) = false |- _ => apply N.ltb_ge in H
  | H : (_ <=? _) = true |- _ => apply N.leb_le in H
  | H : (_ <=? _) = false |- _ => apply N.leb_gt in H
  | H : (_ =? _) = true |- _ => apply N.eqb_eq in H
  | H : (_ =? _) = false |- _ => apply N.eqb_neq in H
  end.


Lemma low6_continuation (c : ascii) :
  continuation c = true -> Utf16.low6 c = N_of_ascii c - 0x80.
Proof.
  unfold continuation, Utf16.low6. intros H. bools.
  symmetry. apply (N.mod_unique _ _ 2); lia.
Qed.

Lemma continuation_bounds (c : ascii) :
  continuation c = true -> 0x80 <= N_of_ascii c < 0xC0.
Proof. unfold continuation. intros H. bools. lia. Qed.

(** The bytes of a sequence of two, three and four bytes, read back
    from its code point. *)
Lemma two_bytes (b0 b1 : N) :
  0xC2 <= b0 < 0xE0 -> 0x80 <= b1 < 0xC0 ->
  let u := (b0 - 0xC0) * 64 + (b1 - 0x80) in
  0x80 <= u < 0x800 /\ 0xC0 + u / 64 = b0 /\ 0x80 + u mod 64 = b1.
Proof.
  intros H0 H1 u.
  assert (Hq : u / 64 = b0 - 0xC0)
    by (symmetry; apply (N.div_unique _ _ _ (b1 - 0x80)); subst u; lia).
  assert (Hm : u mod 64 = b1 - 0x80)
    by (symmetry; apply (N.mod_unique _ _ (b0 - 0xC0)); subst u; lia).
  rewrite Hq, Hm. subst u. lia.
Qed.

Lemma three_bytes (b0 b1 b2 : N) :
  0xE0 <= b0 < 0xF0 -> 0x80 <= b1 < 0xC0 -> 0x80 <= b2 < 0xC0 ->
  (0xE0 < b0 \/ 0xA0 <= b1) -> (b0 <> 0xED \/ b1 < 0xA0) ->
  let u := (b0 - 0xE0) * 4096 + (b1 - 0x80) * 64 + (b2 - 0x80) in
  0x800 <= u < 0x10000 /\ ~ (0xD800 <= u < 0xDC00)
  /\ 0xE0 + u / 4096 = b0 /\ 0x80 + (u / 64) mod 64 = b1
  /\ 0x80 + u mod 64 = b2.
Proof.
  intros H0 H1 H2 H3 H4 u.
  assert (Hq : u / 4096 = b0 - 0xE0)
    by (symmetry;
        apply (N.div_unique _ _ _ ((b1 - 0x80) * 64 + (b2 - 0x80)));
        subst u; lia).
  assert (Hq2 : u / 64 = (b0 - 0xE0) * 64 + (b1 - 0x80))
    by (symmetry; apply (N.div_unique _ _ _ (b2 - 0x80)); subst u; lia).
  assert (Hm2 : (u / 64) mod 64 = b1 - 0x80)
    by (rewrite Hq2; symmetry; apply (N.mod_unique _ _ (b0 - 0xE0)); lia).
  assert (Hm : u mod 64 = b2 - 0x80)
    by (symmetry;
        apply (N.mod_unique _ _ ((b0 - 0xE0) * 64 + (b1 - 0x80)));
        subst u; lia).
  rewrite Hq, Hm2, Hm. subst u. lia.
Qed.

Lemma four_bytes (b0 b1 b2 b3 : N) :
  0xF0 <= b0 < 0xF5 -> 0x80 <= b1 < 0xC0 -> 0x80 <= b2 < 0xC0 ->
  0x80 <= b3 < 0xC0 ->
  (0xF0 < b0 \/ 0x90 <= b1) -> (b0 < 0xF4 \/ b1 < 0x90) ->
  let cp := (b0 - 0xF0) * 262144 + (b1 - 0x80) * 4096 + (b2 - 0x80) * 64
            + (b3 - 0x80) in
  0x10000 <= cp < 0x110000
  /\ 0xF0 + cp / 262144 = b0 /\ 0x80 + (cp / 4096) mod 64 = b1
  /\ 0x80 + (cp / 64) mod 64 = b2 /\ 0x80 + cp mod 64 = b3.
Proof.
  intros H0 H1 H2 H3 H4 H5 cp.
  assert (Hq : cp / 262144 = b0 - 0xF0)
    by (symmetry;
        apply (N.div_unique _ _ _
                 ((b1 - 0x80) * 4096 + (b2 - 0x80) * 64 + (b3 - 0x80)));
        subst cp; lia).
  assert (Hq1 : cp / 4096 = (b0 - 0xF0) * 64 + (b1 - 0x80))
    by (symmetry;
        apply (N.div_unique _ _ _ ((b2 - 0x80) * 64 + (b3 - 0x80)));
        subst cp; lia).
  assert (Hq2 : cp / 64
                = (b0 - 0xF0) * 4096 + (b1 - 0x80) * 64 + (b2 - 0x80))
    by (symmetry; apply (N.div_unique _ _ _ (b3 - 0x80)); subst cp; lia).
  assert (Hm1 : (cp / 4096) mod 64 = b1 - 0x80)
    by (rewrite Hq1; symmetry; apply (N.mod_unique _ _ (b0 - 0xF0)); lia).
  assert (Hm2 : (cp / 64) mod 64 = b2 - 0x80)
    by (rewrite Hq2; symmetry;
        apply (N.mod_unique _ _ ((b0 - 0xF0) * 64 + (b1 - 0x80))); lia).
  assert (Hm : cp mod 64 = b3 - 0x80)
    by (symmetry;
        apply (N.mod_unique _ _
                 ((b0 - 0xF0) * 4096 + (b1 - 0x80) * 64 + (b2 - 0x80)));
        subst cp; lia).
  rewrite Hq, Hm1, Hm2, Hm. subst cp. lia.
Qed.

(** The surrogate pair of a code point beyond the Basic Multilingual
    Plane, and the code point read back from it. *)
Lemma surrogates (cp : N) :
  0x10000 <= cp < 0x110000 ->
  let hi := 0xD800 + (cp - 0x10000) / 1024 in
  let lo := 0xDC00 + (cp - 0x10000) mod 1024 in
  Utf16.units cp = [hi; lo] /\ 0xD800 <= hi < 0xDC00
  /\ 0x10000 + (hi - 0xD800) * 1024 + (lo - 0xDC00) = cp.
Proof.
  intros Hcp hi lo. unfold Utf16.units.
  rewrite (proj2 (N.ltb_ge cp 0x10000)) by lia.
  split; [reflexivity|].
  pose proof (N.div_mod (cp - 0x10000) 1024 ltac:(lia)) as Hdm.
  pose proof (N.mod_upper_bound (cp - 0x10000) 1024 ltac:(lia)) as Hub.
  assert (Hq : (cp - 0x10000) / 1024 < 1024)
    by (apply N.Div0.div_lt_upper_bound; lia).
  subst hi lo.
  set (q := (cp - 0x10000) / 1024) in *.
  set (m := (cp - 0x10000) mod 1024) in *. lia.
Qed.

Ltac ltb_true := match goal with
  | |- context [?a <? ?b] => rewrite (proj2 (N.ltb_lt a b)) by lia
  end.
Ltac ltb_false := match goal with
  | |- context [?a <? ?b] => rewrite (proj2 (N.ltb_ge a b)) by lia
  end.

(** A well-formed string is read back from its code units. *)
Lemma to_utf8_of_utf8 (s : string) :
  well_formed s = true -> to_utf8 (Utf16.of_utf8 s) = s.
Proof.
  assert (H : forall n s, (String.length s <= n)%nat ->
            well_formed s = true -> to_utf8 (Utf16.of_utf8 s) = s);
    [|by apply (H (String.length s))].
  clear s. induction n as [|n IH]; intros s Hn Hwf.
  { destruct s; [reflexivity|]. simpl in Hn. lia. }
  destruct s as [|c0 s1]; [reflexivity|].
  cbn [well_formed Utf16.of_utf8] in *. cbv zeta in *.
  pose proof (byte_bound c0) as Hb0.
  set (b0 := N_of_ascii c0) in *.
  assert (Hc0 : byte b0 = c0) by (by apply byte_of).
  simpl in Hn.
  destruct (N.ltb_spec b0 0x80) as [H80|H80].
  { cbn [to_utf8]. ltb_true. rewrite Hc0, IH; [reflexivity|lia|exact Hwf]. }
  destruct (N.ltb_spec b0 0xC2) as [HC2|HC2]; [discriminate|].
  rewrite (proj2 (N.ltb_ge b0 0xC0)) by lia.
  destruct (N.ltb_spec b0 0xE0) as [HE0|HE0].
  { destruct s1 as [|c1 s2]; [discriminate|].
    apply andb_true_iff in Hwf as [Hc1 Hwf].
    rewrite (low6_continuation c1 Hc1).
    pose proof (continuation_bounds c1 Hc1) as Hb1.
    destruct (two_bytes b0 (N_of_ascii c1) ltac:(lia) Hb1) as (Hu & Hq & Hm).
    cbv zeta in Hu, Hq, Hm. simpl in Hn.
    cbn [to_utf8]. ltb_false. ltb_true.
    rewrite Hq, Hm, Hc0, (byte_of c1 _ eq_refl), IH;
      [reflexivity|lia|exact Hwf]. }
  destruct (N.ltb_spec b0 0xF0) as [HF0|HF0].
  { destruct s1 as [|c1 [|c2 s3]]; try discriminate.
    do 4 (apply andb_true_iff in Hwf as [Hwf ?]).
    match goal with H : well_formed s3 = true |- _ => rename H into Hwf3 end.
    match goal with H : continuation c2 = true |- _ => rename H into Hc2 end.
    rename Hwf into Hc1.
    rewrite (low6_continuation c1 Hc1), (low6_continuation c2 Hc2).
    pose proof (continuation_bounds c1 Hc1) as Hb1.
    pose proof (continuation_bounds c2 Hc2) as Hb2.
    bools.
    all: destruct (three_bytes b0 (N_of_ascii c1) (N_of_ascii c2)
                ltac:(lia) Hb1 Hb2 ltac:(lia) ltac:(lia))
           as (Hu & Hns & Hq & Hm1 & Hm).
    all: cbv zeta in Hu, Hns, Hq, Hm1, Hm; simpl in Hn.
    all: cbn [to_utf8]; ltb_false; ltb_false.
    all: match goal with
         | |- context [(?lo <=? ?u) && (?u <? ?hi)] =>
             assert (Hsur : (lo <=? u) && (u <? hi) = false)
         end.
    all: try (apply andb_false_iff;
              match goal with
              | |- (?lo <=? ?u) = false \/ _ =>
                  destruct (N.leb_spec lo u); [right|by left]
              end; apply N.ltb_ge; lia).
    all: rewrite Hsur, Hq, Hm1, Hm, Hc0, (byte_of c1 _ eq_refl),
           (byte_of c2 _ eq_refl), IH; [reflexivity|lia|exact Hwf3]. }
  destruct (N.ltb_spec b0 0xF5) as [HF5|HF5]; [|discriminate].
  destruct s1 as [|c1 [|c2 [|c3 s4]]]; try discriminate.
  do 5 (apply andb_true_iff in Hwf as [Hwf ?]).
  match goal with H : well_formed s4 = true |- _ => rename H into Hwf4 end.
  match goal with H : continuation c2 = true |- _ => rename H into Hc2 end.
  match goal with H : continuation c3 = true |- _ => rename H into Hc3 end.
  rename Hwf into Hc1.
  rewrite (low6_continuation c1 Hc1), (low6_continuation c2 Hc2),
    (low6_continuation c3 Hc3).
  pose proof (continuation_bounds c1 Hc1) as Hb1.
  pose proof (continuation_bounds c2 Hc2) as Hb2.
  pose proof (continuation_bounds c3 Hc3) as Hb3.
  bools.
  all: destruct (four_bytes b0 (N_of_ascii c1) (N_of_ascii c2)
                  (N_of_ascii c3) ltac:(lia) Hb1 Hb2 Hb3 ltac:(lia)
                  ltac:(lia)) as (Hcp & Hq & Hm1 & Hm2 & Hm).
  all: cbv zeta in Hcp, Hq, Hm1, Hm2, Hm.
  all: match type of Hcp with
       | _ <= ?v < _ => set (cp := v) in *
       end.
  all: destruct (surrogates cp Hcp) as (Hun & Hhi & Hback).
  all: cbv zeta in Hun, Hhi, Hback; rewrite Hun; simpl in Hn.
  all: cbn [app to_utf8]; ltb_false; ltb_false.
  all: match goal with
       | |- context [(?lo <=? ?u) && (?u <? ?hi)] =>
           rewrite (proj2 (N.leb_le lo u)) by lia;
           rewrite (proj2 (N.ltb_lt u hi)) by lia
       end.
  all: cbn [andb]; cbv zeta; rewrite Hback, Hq, Hm1, Hm2, Hm, Hc0,
         (byte_of c1 _ eq_refl), (byte_of c2 _ eq_refl),
         (byte_of c3 _ eq_refl), IH; [reflexivity|lia|exact Hwf4].
Qed.

(** Two well-formed strings with the same code units are the same. *)
Lemma of_utf8_inj (a b : string) :
  well_formed a = true -> well_formed b = true ->
  Utf16.of_utf8 a = Utf16.of_utf8 b -> a = b.
Proof.
  intros Ha Hb Heq.
  by rewrite <- (to_utf8_of_utf8 a Ha), Heq, (to_utf8_of_utf8 b Hb).
Qed.

(** On well-formed strings the comparison of [sort] is that of the code
    units alone. *)
Lemma js_compare_well_formed (a b : string) :
  well_formed a = true -> well_formed b = true ->
  js_compare a b = Utf16.compare (Utf16.of_utf8 a) (Utf16.of_utf8 b).
Proof.
  intros Ha Hb. unfold js_compare.
  destruct (Utf16.compare (Utf16.of_utf8 a) (Utf16.of_utf8 b)) eqn:Hc;
    try reflexivity.
  assert (a = b) as ->.
  { apply of_utf8_inj; auto. by apply units_compare_eq. }
  pose proof (String.compare_antisym b b) as A.
  by destruct (String.compare b b).
Qed.

(** ** Units, windows and the loop over windows *)

Lemma unit_step_sound (h : Host) (total : nat) (it : QueueItem) (p : phase)
    (w : World) :
  step h total it p w (unit_step h total it p w).1 (unit_step h total it p w).2.
Proof.
  destruct p as [| |exif|exif up]; simpl.
  - destruct (hashExists (store w) (q_hash it)) eqn:E; simpl; by constructor.
  - destruct (exifr_parse h (q_filePath it)) as [exif|msg] eqn:E; simpl;
      by constructor.
  - destruct (Cloud.upload h (upload_request it) (assets w)) as [[up a']|msg]
      eqn:E; simpl; by constructor.
  - destruct (set_fault h (id it)) as [msg|] eqn:E; simpl; by constructor.
Qed.

Lemma step_rank (h : Host) (total : nat) (it : QueueItem) (p p' : phase)
    (w w' : World) :
  step h total it p w (Some p') w' -> rank p = S (rank p').
Proof. inversion 1; reflexivity. Qed.

Lemma rank_pos (p : phase) : (0 < rank p)%nat.
Proof. destruct p; simpl; lia. Qed.

Lemma weight_insert (us : list (QueueItem * phase)) (k : nat)
    (it : QueueItem) (p p' : phase) :
  us !! k = Some (it, p) -> rank p = S (rank p') ->
  weight us = S (weight (<[k := (it, p')]> us)).
Proof.
  unfold weight. revert k. induction us as [|u us IH]; intros [|k] Hk Hr;
    simplify_eq/=; [lia|].
  rewrite (IH k Hk Hr). lia.
Qed.

Lemma weight_delete (us : list (QueueItem * phase)) (k : nat)
    (it : QueueItem) (p : phase) :
  us !! k = Some (it, p) -> (weight (delete k us) < weight us)%nat.
Proof.
  unfold weight. revert k. induction us as [|u us IH]; intros [|k] Hk;
    simplify_eq/=.
  - pose proof (rank_pos p). lia.
  - specialize (IH k Hk). lia.
Qed.

Lemma weight_launch (batch : list QueueItem) :
  weight (launch batch) = window_fuel batch.
Proof.
  unfold weight, launch, window_fuel.
  induction batch as [|it b IH]; [reflexivity|].
  rewrite !fmap_cons. cbn [sum_list sum_list_with length].
  rewrite IH. simpl. lia.
Qed.

Section Window.

Context (h : Host) (total : nat).
Variable Inv : list (QueueItem * phase) -> World -> Prop.

Hypothesis Inv_resumed :
  forall us w k it p p' w',
    us !! k = Some (it, p) -> step h total it p w (Some p') w' ->
    Inv us w -> Inv (<[k := (it, p')]> us) w'.

Hypothesis Inv_settled :
  forall us w k it p w',
    us !! k = Some (it, p) -> step h total it p w None w' ->
    Inv us w -> Inv (delete k us) w'.

(** An invariant of the steps holds when the window is over, and the
    window is over within its fuel: no unit is left. *)
Lemma run_window_invariant (fuel : nat) (sched : list nat)
    (us : list (QueueItem * phase)) (w : World) :
  (weight us <= fuel)%nat -> Inv us w ->
  Inv [] (run_window h total fuel sched us w).
Proof.
  revert sched us w. induction fuel as [|fuel IH]; intros sched us w Hw HI.
  - destruct us as [|[it p] us]; [exact HI|].
    unfold weight in Hw. simpl in Hw. pose proof (rank_pos p). lia.
  - destruct us as [|u us]; [exact HI|]. cbn [run_window].
    set (k := (List.hd 0%nat sched mod length (u :: us))%nat).
    destruct ((u :: us) !! k) as [[it p]|] eqn:Hk.
    + pose proof (unit_step_sound h total it p w) as Hs.
      destruct (unit_step h total it p w) as [[p'|] w']; simpl in Hs.
      * apply IH; [|eapply Inv_resumed; eassumption].
        pose proof (weight_insert _ _ _ _ p' Hk (step_rank _ _ _ _ _ _ _ Hs)).
        lia.
      * apply IH; [|eapply Inv_settled; eassumption].
        pose proof (weight_delete _ _ _ _ Hk). lia.
    + exfalso. apply lookup_ge_None in Hk.
      assert (k < length (u :: us))%nat; [|lia].
      apply Nat.mod_upper_bound. simpl. lia.
Qed.

End Window.

Section Loop.

Context (h : Host) (total : nat) (queue : list QueueItem).
Variable Inv : nat -> World -> Prop.

Hypothesis Inv_window :
  forall i w sched,
    (i < length queue)%nat -> Inv i w ->
    let batch := take CONCURRENCY (drop i queue) in
    Inv (i + CONCURRENCY)%nat
      (run_window h total (window_fuel batch) sched (launch batch)
         (emit (Called <$> batch) w)).

(** An invariant of the windows holds when the loop is over, and the loop
    is over within its fuel: every index has been passed. *)
Lemma upload_loop_invariant (fuel i : nat) (scheds : list (list nat))
    (w : World) :
  (length queue <= i + fuel)%nat -> Inv i w ->
  exists j, (length queue <= j)%nat
            /\ Inv j (upload_loop h total fuel i queue scheds w).
Proof.
  revert i scheds w. induction fuel as [|fuel IH]; intros i scheds w Hf HI.
  - exists i. split; [lia | exact HI].
  - cbn [upload_loop]. destruct (i <? length queue)%nat eqn:Hi.
    + apply Nat.ltb_lt in Hi. apply IH.
      * unfold CONCURRENCY. lia.
      * by apply Inv_window.
    + apply Nat.ltb_ge in Hi. exists i. split; [lia | exact HI].
Qed.

End Loop.

(** ** Every unit reaches exactly one outcome *)

Ltac step_cases H := inversion H; subst; clear H; simpl in *.

Lemma window_accounting (h : Host) (total fuel : nat) (sched : list nat)
    (us : list (QueueItem * phase)) (w : World) :
  (weight us <= fuel)%nat ->
  let w' := run_window h total fuel sched us w in
  (completed w' + length (failed w')
   = completed w + length (failed w) + length us)%nat.
Proof.
  intros Hf. simpl.
  pose (Inv := fun (us' : list (QueueItem * phase)) (w' : World) =>
    (completed w' + length (failed w') + length us'
     = completed w + length (failed w) + length us)%nat).
  assert (H : Inv [] (run_window h total fuel sched us w)).
  { apply run_window_invariant; [| |exact Hf|reflexivity]; unfold Inv.
    - intros us1 w1 k it p p' w1' Hk Hs HI. rewrite length_insert.
      step_cases Hs; exact HI.
    - intros us1 w1 k it p w1' Hk Hs HI.
      assert (Hlen : length us1 = S (length (delete k us1))).
      { rewrite length_delete by eauto.
        apply lookup_lt_Some in Hk. lia. }
      step_cases Hs; rewrite ?length_app in *; simpl in *; lia. }
  unfold Inv in H. simpl in H. lia.
Qed.

Lemma loop_accounting (h : Host) (total : nat) (queue : list QueueItem)
    (scheds : list (list nat)) (w : World) :
  let w' := upload_loop h total (length queue) 0 queue scheds w in
  (completed w' + length (failed w')
   = completed w + length (failed w) + length queue)%nat.
Proof.
  simpl.
  pose (Inv := fun (i : nat) (w' : World) =>
    (completed w' + length (failed w')
     = completed w + length (failed w) + (i `min` length queue))%nat).
  destruct (upload_loop_invariant h total queue Inv) with
    (fuel := length queue) (i := 0%nat) (scheds := scheds) (w := w)
    as (j & Hj & HI); unfold Inv in *.
  - intros i w1 sched Hi HI1.
    rewrite window_accounting by (rewrite weight_launch; lia).
    unfold launch. rewrite length_fmap. simpl.
    rewrite length_take, length_drop. unfold CONCURRENCY. lia.
  - lia.
  - simpl. lia.
  - lia.
Qed.

(** ** A failure stays with its unit *)

Lemma key_inj (it it' : QueueItem) :
  Cloud.key (upload_request it) = Cloud.key (upload_request it') ->
  id it = id it'.
Proof. unfold Cloud.key. simpl. intros H. by simplify_eq. Qed.

Lemma upload_ok (h : Host) (req : UploadRequest) (a a' : Assets)
    (up : UploadResponse) :
  Cloud.upload h req a = Ok (up, a') ->
  (up_width up, up_height up)
  = Cloud.render (transformation req) (image_size h (u_file req))
  /\ exists asset, a' = <[Cloud.key req := asset]> a.
Proof.
  unfold Cloud.upload.
  destruct (upload_fault h (u_file req) (public_id req)); [discriminate|].
  destruct (bool_decide (is_Some (a !! Cloud.key req)) && negb (overwrite req));
    [discriminate|].
  destruct (Cloud.render (transformation req) (image_size h (u_file req)))
    as [wd ht].
  intros [= <- <-]. simpl. eauto.
Qed.

Lemma upload_refused (h : Host) (req : UploadRequest) (a : Assets)
    (msg : string) :
  Cloud.upload h req a = Err msg ->
  is_Some (upload_fault h (u_file req) (public_id req))
  \/ (is_Some (a !! Cloud.key req) /\ overwrite req = false).
Proof.
  unfold Cloud.upload.
  destruct (upload_fault h (u_file req) (public_id req)); [eauto|].
  destruct (bool_decide (is_Some (a !! Cloud.key req))) eqn:Hex; simpl.
  - apply bool_decide_eq_true in Hex. destruct (overwrite req); simpl.
    + destruct (Cloud.render _ _); discriminate.
    + auto.
  - destruct (Cloud.render _ _); discriminate.
Qed.

Lemma lookup_delete_inv {A : Type} (l : list A) (k j : nat) (x : A) :
  delete k l !! j = Some x -> exists j', l !! j' = Some x.
Proof.
  intros H. destruct (decide (j < k)%nat).
  - rewrite list_lookup_delete_lt in H by done. eauto.
  - rewrite list_lookup_delete_ge in H by lia. eauto.
Qed.

Lemma ids_of_insert (us : list (QueueItem * phase)) (k : nat)
    (it : QueueItem) (p p' : phase) :
  us !! k = Some (it, p) -> ids_of (<[k := (it, p')]> us) = ids_of us.
Proof.
  intros Hk. unfold ids_of. rewrite list_fmap_insert. simpl.
  apply list_insert_id. by rewrite list_lookup_fmap, Hk.
Qed.

Lemma ids_of_delete (us : list (QueueItem * phase)) (k : nat) :
  ids_of (delete k us) = delete k (ids_of us).
Proof. unfold ids_of. apply list_fmap_delete. Qed.

Lemma ids_distinct (us : list (QueueItem * phase)) (rest : list string)
    (j k : nat) (it it' : QueueItem) (p p' : phase) :
  NoDup (ids_of us ++ rest) ->
  us !! k = Some (it, p) -> us !! j = Some (it', p') -> j <> k ->
  id it' <> id it.
Proof.
  intros Hnd Hk Hj Hne Heq. apply NoDup_app in Hnd as (Hnd & _ & _).
  apply Hne. eapply NoDup_lookup; [exact Hnd| |];
    unfold ids_of; rewrite list_lookup_fmap.
  - by rewrite Hj.
  - rewrite Hk. simpl. by rewrite Heq.
Qed.

Lemma ids_apart (us : list (QueueItem * phase)) (rest : list QueueItem)
    (k : nat) (it it' : QueueItem) (p : phase) :
  NoDup (ids_of us ++ (id <$> rest)) ->
  us !! k = Some (it, p) -> it' ∈ rest -> id it' <> id it.
Proof.
  intros Hnd Hk Hin Heq. apply NoDup_app in Hnd as (_ & Hd & _).
  apply (Hd (id it)).
  - unfold ids_of. apply list_elem_of_fmap. exists (it, p).
    split; [reflexivity|]. eapply list_elem_of_lookup_2; eassumption.
  - rewrite <- Heq. apply list_elem_of_fmap. eauto.
Qed.

Section Isolation.

Context (h : Host) (total : nat) (a0 : Assets).
Context (queue rest : list QueueItem).

Lemma blamed_push (w w' : World) (it : QueueItem) :
  blamed h a0 queue w -> it ∈ queue -> faulty h a0 it ->
  failed w' = (failed w ++ [id it])%list ->
  blamed h a0 queue w'.
Proof.
  intros Hb Hin Hf Heq x Hx. rewrite Heq in Hx.
  apply elem_of_app in Hx as [Hx | Hx]; [by apply Hb|].
  apply list_elem_of_singleton in Hx as ->. eauto.
Qed.

Lemma isolated_resumed us w k it p p' w' :
  us !! k = Some (it, p) -> step h total it p w (Some p') w' ->
  isolated h a0 queue rest us w ->
  isolated h a0 queue rest (<[k := (it, p')]> us) w'.
Proof.
  intros Hk Hs (Hb & Hnd & Hus & Hrest).
  destruct (Hus k it p Hk) as [Hin Hun].
  assert (Hlook : forall j it' q,
    <[k := (it, p')]> us !! j = Some (it', q) ->
    (j = k /\ it' = it /\ q = p') \/ (j <> k /\ us !! j = Some (it', q))).
  { intros j it' q Hj. apply list_lookup_insert_Some in Hj.
    destruct Hj as [(-> & [= <- <-] & _) | (Hne & Hj)]; auto. }
  split; [|split; [|split]].
  - intros x Hx. apply Hb. step_cases Hs; exact Hx.
  - by rewrite (ids_of_insert us k it p p' Hk).
  - intros j it' q Hj.
    destruct (Hlook j it' q Hj) as [(-> & -> & ->) | (Hne & Hj')].
    + split; [exact Hin|]. intros Hpre.
      step_cases Hs; try (apply Hun; exact I); contradiction.
    + destruct (Hus j it' q Hj') as [Hin' Hun']. split; [exact Hin'|].
      intros Hpre. specialize (Hun' Hpre). unfold untouched in *.
      step_cases Hs; try exact Hun'.
      match goal with
      | H : Cloud.upload _ _ _ = Ok _ |- _ =>
          apply upload_ok in H as (_ & asset & ->)
      end.
      rewrite lookup_insert_ne; [exact Hun'|].
      intros Hkey. apply key_inj in Hkey.
      by apply (ids_distinct us (id <$> rest) j k it it' _ q Hnd Hk Hj' Hne).
  - intros it' Hin'. specialize (Hrest it' Hin'). unfold untouched in *.
    step_cases Hs; try exact Hrest.
    match goal with
    | H : Cloud.upload _ _ _ = Ok _ |- _ =>
        apply upload_ok in H as (_ & asset & ->)
    end.
    rewrite lookup_insert_ne; [exact Hrest|].
    intros Hkey. apply key_inj in Hkey.
    by apply (ids_apart us rest k it it' _ Hnd Hk Hin').
Qed.

Lemma isolated_settled us w k it p w' :
  us !! k = Some (it, p) -> step h total it p w None w' ->
  isolated h a0 queue rest us w ->
  isolated h a0 queue rest (delete k us) w'.
Proof.
  intros Hk Hs (Hb & Hnd & Hus & Hrest).
  destruct (Hus k it p Hk) as [Hin Hun].
  assert (Hassets : assets w' = assets w) by (step_cases Hs; reflexivity).
  split; [|split; [|split]].
  - step_cases Hs; try exact Hb.
    + eapply blamed_push; [exact Hb|exact Hin| |reflexivity].
      left. eauto.
    + eapply blamed_push; [exact Hb|exact Hin| |reflexivity].
      match goal with
      | H : Cloud.upload _ _ _ = Err _ |- _ =>
          apply upload_refused in H as [Hf | [Hex _]]
      end.
      * right; left. exact Hf.
      * right; right; left. rewrite <- (Hun I). exact Hex.
    + eapply blamed_push; [exact Hb|exact Hin| |reflexivity].
      right; right; right. eauto.
  - rewrite ids_of_delete. eapply sublist_NoDup; [exact Hnd|].
    apply sublist_app; [apply sublist_delete | reflexivity].
  - intros j it' q Hj. apply lookup_delete_inv in Hj as [j' Hj'].
    destruct (Hus j' it' q Hj') as [Hin' Hun']. split; [exact Hin'|].
    unfold untouched in *. rewrite Hassets. exact Hun'.
  - intros it' Hin'. unfold untouched. rewrite Hassets. by apply Hrest.
Qed.

End Isolation.

Lemma launch_lookup (batch : list QueueItem) (j : nat) (it : QueueItem)
    (p : phase) :
  launch batch !! j = Some (it, p) ->
  batch !! j = Some it /\ p = AwaitHashExists.
Proof.
  unfold launch. rewrite list_lookup_fmap.
  destruct (batch !! j); simpl; intros [= <- <-]; auto.
Qed.

Lemma ids_of_launch (batch : list QueueItem) :
  ids_of (launch batch) = id <$> batch.
Proof. unfold ids_of, launch. by rewrite <- list_fmap_compose. Qed.

Lemma window_split (queue : list QueueItem) (i : nat) :
  (take CONCURRENCY (drop i queue) ++ drop (i + CONCURRENCY) queue)%list
  = drop i queue.
Proof.
  rewrite <- drop_drop. apply take_drop.
Qed.

Lemma elem_of_drop {A : Type} (l : list A) (i : nat) (x : A) :
  x ∈ drop i l -> x ∈ l.
Proof. intros H. eapply elem_of_sublist; [exact H | apply sublist_drop]. Qed.

Lemma loop_isolation (h : Host) (total : nat) (a0 : Assets)
    (queue : list QueueItem) (scheds : list (list nat)) (w : World) :
  NoDup (id <$> queue) ->
  blamed h a0 queue w ->
  (forall it, it ∈ queue -> untouched a0 it w) ->
  blamed h a0 queue (upload_loop h total (length queue) 0 queue scheds w).
Proof.
  intros Hnd Hb Hun.
  pose (Inv := fun (i : nat) (w' : World) =>
    blamed h a0 queue w'
    /\ forall it, it ∈ drop i queue -> untouched a0 it w').
  destruct (upload_loop_invariant h total queue Inv) with
    (fuel := length queue) (i := 0%nat) (scheds := scheds) (w := w)
    as (j & Hj & HI & _); unfold Inv in *; [| lia | by auto | exact HI].
  intros i w1 sched Hi [Hb1 Hun1].
  set (batch := take CONCURRENCY (drop i queue)).
  set (rest := drop (i + CONCURRENCY) queue).
  assert (Hsplit : (batch ++ rest)%list = drop i queue) by apply window_split.
  assert (Hfin : isolated h a0 queue rest []
            (run_window h total (window_fuel batch) sched (launch batch)
               (emit (Called <$> batch) w1))).
  { apply run_window_invariant.
    - intros; eapply isolated_resumed; eassumption.
    - intros; eapply isolated_settled; eassumption.
    - rewrite weight_launch. lia.
    - split; [exact Hb1|split; [|split]].
      + rewrite ids_of_launch, <- fmap_app, Hsplit.
        eapply sublist_NoDup; [exact Hnd|].
        apply fmap_sublist, sublist_drop.
      + intros j it p Hj. apply launch_lookup in Hj as [Hj ->].
        apply list_elem_of_lookup_2 in Hj.
        assert (it ∈ drop i queue).
        { rewrite <- Hsplit. apply elem_of_app. auto. }
        split; [by eapply elem_of_drop|]. intros _. by apply Hun1.
      + intros it Hin. apply Hun1. rewrite <- Hsplit.
        apply elem_of_app. auto. }
  destruct Hfin as (Hb2 & _ & _ & Hrest). split; [exact Hb2|exact Hrest].
Qed.

Lemma uploadQueue_id_lookup (counter : N) (pending : list PendingPhoto)
    (i : nat) (x : string) :
  (id <$> uploadQueue counter pending) !! i = Some x ->
  x = img_id (counter + N.of_nat i).
Proof.
  unfold uploadQueue. rewrite list_lookup_fmap, list_lookup_imap.
  destruct (pending !! i); [|discriminate]. by intros [= <-].
Qed.

Lemma uploadQueue_ids_unique (counter : N) (pending : list PendingPhoto) :
  NoDup (id <$> uploadQueue counter pending).
Proof.
  apply NoDup_alt. intros i j x Hi Hj.
  apply uploadQueue_id_lookup in Hi, Hj. rewrite Hi in Hj.
  apply img_id_inj in Hj. lia.
Qed.

Lemma unique_by_id (queue : list QueueItem) (it it' : QueueItem) :
  NoDup (id <$> queue) -> it ∈ queue -> it' ∈ queue -> id it = id it' ->
  it = it'.
Proof.
  intros Hnd Hin Hin' Heq.
  apply list_elem_of_lookup in Hin as [i Hi].
  apply list_elem_of_lookup in Hin' as [j Hj].
  assert (i = j).
  { eapply NoDup_lookup; [exact Hnd| |]; rewrite list_lookup_fmap.
    - by rewrite Hi.
    - rewrite Hj. simpl. by rewrite Heq. }
  subst. congruence.
Qed.

(** ** The order of events *)

Lemma called_items_app (l1 l2 : list event) :
  called_items (l1 ++ l2) = (called_items l1 ++ called_items l2)%list.
Proof. apply omap_app. Qed.

Lemma settled_ids_app (l1 l2 : list event) :
  settled_ids (l1 ++ l2) = (settled_ids l1 ++ settled_ids l2)%list.
Proof. apply omap_app. Qed.

Lemma called_items_Called (batch : list QueueItem) :
  called_items (Called <$> batch) = batch.
Proof. induction batch as [|it b IH]; simpl; [done|]. by f_equal. Qed.

Lemma settled_ids_Called (batch : list QueueItem) :
  settled_ids (Called <$> batch) = [].
Proof. induction batch as [|it b IH]; simpl; done. Qed.

Lemma elem_of_called_items (it : QueueItem) (l : list event) :
  it ∈ called_items l <-> Called it ∈ l.
Proof.
  unfold called_items. rewrite list_elem_of_omap. split.
  - intros (e & He & Hc). destruct e; simplify_eq/=. exact He.
  - intros H. exists (Called it). auto.
Qed.

Lemma elem_of_settled_ids (x : string) (l : list event) :
  x ∈ settled_ids l <-> Settled x ∈ l.
Proof.
  unfold settled_ids. rewrite list_elem_of_omap. split.
  - intros (e & He & Hc). destruct e; simplify_eq/=. exact He.
  - intros H. exists (Settled x). auto.
Qed.

Lemma in_flight_app (l1 l2 : list event) :
  in_flight (l1 ++ l2) = (in_flight l1 + in_flight l2)%Z.
Proof.
  unfold in_flight. rewrite called_items_app, settled_ids_app, !length_app.
  lia.
Qed.

Lemma renderProgress_quiet (done total : nat) :
  called_items (renderProgress done total) = []
  /\ settled_ids (renderProgress done total) = [].
Proof. unfold renderProgress. destruct (done =? total)%nat; done. Qed.

(** What one step adds to the log. *)
Lemma step_trace (h : Host) (total : nat) (it : QueueItem) (p : phase)
    (w w' : World) (o : option phase) :
  step h total it p w o w' ->
  exists es, log w' = (log w ++ es)%list
             /\ called_items es = []
             /\ settled_ids es = match o with
                                 | None => [id it]
                                 | Some _ => []
                                 end.
Proof.
  intros Hs. unfold called_items, settled_ids.
  step_cases Hs.
  all: try (exists []; by rewrite app_nil_r).
  all: rewrite <- ?app_assoc; eexists; (split; [reflexivity|]).
  all: rewrite ?omap_app; simpl.
  all: by repeat case_match.
Qed.

Lemma window_trace (h : Host) (total fuel : nat) (sched : list nat)
    (us : list (QueueItem * phase)) (w : World) :
  (weight us <= fuel)%nat ->
  exists body,
    log (run_window h total fuel sched us w) = (log w ++ body)%list
    /\ called_items body = []
    /\ settled_ids body ≡ₚ ids_of us.
Proof.
  intros Hf.
  pose (Inv := fun (us' : list (QueueItem * phase)) (w' : World) =>
    exists body, log w' = (log w ++ body)%list
                 /\ called_items body = []
                 /\ (settled_ids body ++ ids_of us')%list ≡ₚ ids_of us).
  assert (H : Inv [] (run_window h total fuel sched us w)).
  { apply run_window_invariant; [| |exact Hf|]; unfold Inv.
    - intros us1 w1 k it p p' w1' Hk Hs (body & Hl & Hc & Hp).
      destruct (step_trace _ _ _ _ _ _ _ Hs) as (es & Hl' & Hc' & Hs').
      exists (body ++ es)%list. rewrite Hl', Hl, app_assoc.
      split; [done|]. rewrite called_items_app, settled_ids_app, Hc, Hc', Hs'.
      split; [done|]. by rewrite app_nil_r, (ids_of_insert us1 k it p p' Hk).
    - intros us1 w1 k it p w1' Hk Hs (body & Hl & Hc & Hp).
      destruct (step_trace _ _ _ _ _ _ _ Hs) as (es & Hl' & Hc' & Hs').
      exists (body ++ es)%list. rewrite Hl', Hl, app_assoc.
      split; [done|]. rewrite called_items_app, settled_ids_app, Hc, Hc', Hs'.
      split; [done|]. rewrite <- Hp, <- app_assoc. f_equiv. simpl.
      rewrite ids_of_delete. symmetry. apply delete_Permutation.
      unfold ids_of. by rewrite list_lookup_fmap, Hk.
    - exists []. by rewrite !app_nil_r. }
  destruct H as (body & Hl & Hc & Hp). exists body.
  by rewrite app_nil_r in Hp.
Qed.

Lemma prefix_app_split {A : Type} (p l1 l2 : list A) :
  p `prefix_of` (l1 ++ l2)%list ->
  p `prefix_of` l1 \/ exists p', p = (l1 ++ p')%list /\ p' `prefix_of` l2.
Proof.
  revert p. induction l1 as [|x l1 IH]; intros p Hp.
  - right. exists p. auto.
  - destruct p as [|y p]; [left; apply prefix_nil|].
    simpl in Hp. pose proof (prefix_cons_inv_1 _ _ _ _ Hp) as ->.
    apply prefix_cons_inv_2 in Hp.
    destruct (IH p Hp) as [H | (p' & -> & H)].
    + left. by apply prefix_cons.
    + right. exists p'. auto.
Qed.

Lemma prefix_omap {A B : Type} (f : A -> option B) (p l : list A) :
  p `prefix_of` l -> omap f p `prefix_of` omap f l.
Proof. intros [k ->]. rewrite omap_app. by apply prefix_app_r. Qed.

Lemma prefix_elem_of {A : Type} (p l : list A) (x : A) :
  p `prefix_of` l -> x ∈ p -> x ∈ l.
Proof. intros [k ->] H. apply elem_of_app. auto. Qed.

Lemma windowed_balanced (queue : list QueueItem) (i : nat)
    (trace : list event) :
  windowed queue i trace -> in_flight trace = 0%Z.
Proof.
  intros (Hc & Hs & _). unfold in_flight.
  rewrite Hc, Hs, length_fmap. lia.
Qed.

(** The events of one window, after the events of the windows before it. *)
Lemma windowed_extend (queue : list QueueItem) (i m : nat)
    (trace body : list event) :
  NoDup (id <$> queue) ->
  i = (m * CONCURRENCY)%nat ->
  windowed queue i trace ->
  let batch := take CONCURRENCY (drop i queue) in
  called_items body = [] ->
  settled_ids body ≡ₚ id <$> batch ->
  windowed queue (i + CONCURRENCY)
    (trace ++ (Called <$> batch) ++ body)%list.
Proof.
  intros Hnd Hi Hw batch Hcb Hsb.
  pose proof (windowed_balanced _ _ _ Hw) as Hbal.
  destruct Hw as (Hc & Hs & Hb & Hq).
  assert (Hlen : (length batch <= CONCURRENCY)%nat).
  { subst batch. rewrite length_take. lia. }
  split; [|split; [|split]].
  - rewrite !called_items_app, called_items_Called, Hc, Hcb, app_nil_r.
    apply take_take_drop.
  - rewrite !settled_ids_app, settled_ids_Called, Hs, Hsb. simpl.
    rewrite <- fmap_app. subst batch. by rewrite take_take_drop.
  - intros p Hp. apply prefix_app_split in Hp as [Hp | (p' & -> & Hp)];
      [by apply Hb|].
    rewrite in_flight_app, Hbal.
    apply prefix_app_split in Hp as [Hp | (b' & -> & Hp)].
    + pose proof (prefix_omap called_item _ _ Hp) as H1.
      pose proof (prefix_omap settled_id _ _ Hp) as H2.
      fold (called_items p') (called_items (Called <$> batch)) in H1.
      fold (settled_ids p') (settled_ids (Called <$> batch)) in H2.
      rewrite called_items_Called in H1. rewrite settled_ids_Called in H2.
      apply prefix_length in H1. apply prefix_nil_inv in H2.
      unfold in_flight. rewrite H2. simpl. lia.
    + pose proof (prefix_omap called_item _ _ Hp) as H1.
      pose proof (prefix_omap settled_id _ _ Hp) as H2.
      fold (called_items b') (called_items body) in H1.
      fold (settled_ids b') (settled_ids body) in H2.
      rewrite Hcb in H1. apply prefix_nil_inv in H1.
      apply prefix_length in H2. rewrite Hsb, length_fmap in H2.
      rewrite in_flight_app. unfold in_flight.
      rewrite called_items_Called, settled_ids_Called, H1. simpl. lia.
  - intros p j k it_j it_k Hp Hj Hk Hjk Hcall.
    assert (Hearlier : forall j' it', queue !! j' = Some it' ->
              (j' < i)%nat -> Settled (id it') ∈ trace).
    { intros j' it' Hj' Hlt. apply elem_of_settled_ids. rewrite Hs.
      apply list_elem_of_fmap. exists it'. split; [done|].
      apply list_elem_of_lookup. exists j'. by rewrite lookup_take_lt. }
    apply prefix_app_split in Hp as [Hp | (p' & -> & Hp)];
      [by eapply Hq|].
    apply elem_of_app. left.
    apply elem_of_app in Hcall as [Hcall | Hcall].
    + eapply (Hq trace); [done|exact Hj|exact Hk|exact Hjk|exact Hcall].
    + apply (Hearlier j it_j Hj).
      pose proof (prefix_elem_of _ _ _ Hp Hcall) as Hin.
      apply elem_of_called_items in Hin.
      rewrite called_items_app, called_items_Called, Hcb, app_nil_r in Hin.
      apply list_elem_of_lookup in Hin as [n Hn]. subst batch.
      apply lookup_take_Some in Hn as [Hn Hn8]. rewrite lookup_drop in Hn.
      assert (k = (i + n)%nat).
      { apply NoDup_fmap_1 in Hnd.
        eapply NoDup_lookup; [exact Hnd|exact Hk|exact Hn]. }
      subst k i. unfold CONCURRENCY in *.
      assert ((m * 8 + n) / 8 = m)%nat.
      { symmetry. apply (Nat.div_unique _ 8 m n); lia. }
      assert (8 * (j / 8) <= j < 8 * (j / 8) + 8)%nat.
      { pose proof (Nat.div_mod_eq j 8). pose proof (Nat.mod_upper_bound j 8).
        lia. }
      lia.
Qed.

Lemma loop_trace (h : Host) (total : nat) (queue : list QueueItem)
    (scheds : list (list nat)) (w : World) :
  NoDup (id <$> queue) ->
  exists trace,
    log (upload_loop h total (length queue) 0 queue scheds w)
    = (log w ++ trace)%list
    /\ windowed queue (length queue) trace.
Proof.
  intros Hnd.
  pose (Inv := fun (i : nat) (w' : World) =>
    (exists m, i = (m * CONCURRENCY)%nat)
    /\ exists trace, log w' = (log w ++ trace)%list /\ windowed queue i trace).
  destruct (upload_loop_invariant h total queue Inv) with
    (fuel := length queue) (i := 0%nat) (scheds := scheds) (w := w)
    as (j & Hj & _ & trace & Hl & Hw); unfold Inv in *.
  - intros i w1 sched Hi [[m Hm] (trace & Hl & Hw)].
    split; [exists (S m); lia|].
    destruct (window_trace h total
                (window_fuel (take CONCURRENCY (drop i queue))) sched
                (launch (take CONCURRENCY (drop i queue)))
                (emit (Called <$> take CONCURRENCY (drop i queue)) w1))
      as (body & Hl' & Hc & Hs); [rewrite weight_launch; lia|].
    rewrite ids_of_launch in Hs.
    exists (trace ++ (Called <$> take CONCURRENCY (drop i queue)) ++ body)%list.
    split.
    + rewrite Hl'. simpl. rewrite Hl. by rewrite <- !app_assoc.
    + by eapply windowed_extend.
  - lia.
  - split; [exists 0%nat; lia|]. exists []. rewrite app_nil_r.
    split; [done|]. split; [|split; [|split]].
    + by rewrite take_0.
    + by rewrite take_0.
    + intros p Hp. apply prefix_nil_inv in Hp as ->. unfold in_flight. simpl.
      lia.
    + intros p j k it_j it_k Hp _ _ _ Hc. apply prefix_nil_inv in Hp as ->.
      by apply elem_of_nil in Hc.
  - exists trace. split; [exact Hl|].
    destruct Hw as (Hc & Hs & Hb & Hq).
    rewrite take_ge in Hc, Hs by lia.
    split; [|split; [|split]]; rewrite ?firstn_all; done.
Qed.

(** ** Where documents and upload calls come from *)

Lemma elem_of_progress (e : event) (done total : nat) :
  e ∈ renderProgress done total -> e = ProgressLine done total \/ e = NewLine.
Proof.
  unfold renderProgress. intros H. apply elem_of_cons in H as [-> | H]; [auto|].
  destruct (done =? total)%nat; [|by apply elem_of_nil in H].
  apply list_elem_of_singleton in H. auto.
Qed.

Lemma elem_of_resolve (e : event) (total : nat) (it : QueueItem) (w : World) :
  e ∈ log (resolve total it w) ->
  e ∈ log w \/ (exists d, e = ProgressLine d total) \/ e = NewLine
  \/ e = Settled (id it).
Proof.
  intros H. unfold resolve in H. cbn [log] in H.
  rewrite !elem_of_app in H. destruct H as [H | [H | H]]; [auto| |].
  - apply elem_of_progress in H as [-> | ->]; eauto.
  - apply list_elem_of_singleton in H. auto.
Qed.

Lemma elem_of_reject (e : event) (total : nat) (it : QueueItem) (msg : string)
    (w : World) :
  e ∈ log (reject total it msg w) ->
  e ∈ log w \/ (exists d, e = ProgressLine d total) \/ e = NewLine
  \/ e = Settled (id it) \/ e = FailureLine (id it) msg.
Proof.
  intros H. unfold reject in H. cbn [log] in H.
  rewrite !elem_of_app in H. destruct H as [H | [H | [H | H]]]; [auto| | |].
  - apply list_elem_of_singleton in H. auto.
  - apply elem_of_progress in H as [-> | ->]; eauto.
  - apply list_elem_of_singleton in H. auto.
Qed.

Section Provenance.

Context (h : Host) (total : nat) (queue : list QueueItem) (w0 : World).

(** What a step may add to the store and to the log. *)
Lemma step_provenance it p w o w' :
  step h total it p w o w' ->
  (forall exif up, p = AwaitSet exif up -> rendered h it up) ->
  it ∈ queue ->
  (forall doc r, store w' !! doc = Some r ->
     store w !! doc = Some r \/ written_for h queue doc r)
  /\ (forall req, UploadCalled req ∈ log w' ->
        UploadCalled req ∈ log w \/ req = upload_request it)
  /\ (forall doc r, Persisted doc r ∈ log w' ->
        Persisted doc r ∈ log w \/ written_for h queue doc r)
  /\ (forall p' exif up, o = Some p' -> p' = AwaitSet exif up ->
        rendered h it up).
Proof.
  intros Hs Hr Hin.
  assert (Hw : forall exif up, p = AwaitSet exif up ->
            written_for h queue (id it) (photo_record h it exif up)).
  { intros exif up ->. exists it, exif, up. eauto. }
  inversion Hs; subst; clear Hs.
  all: split; [|split; [|split]].
  all: try (intros doc r Hd; simpl in Hd;
            try (apply lookup_insert_Some in Hd as [[<- <-] | [_ Hd]]);
            eauto; fail).
  all: try (intros; discriminate).
  all: try (intros e1 He;
            first [ apply elem_of_resolve in He | apply elem_of_reject in He
                  | idtac ];
            simpl in He; rewrite ?elem_of_app, ?list_elem_of_singleton in He;
            intuition (try discriminate; eauto);
            repeat match goal with
                   | H : exists _, _ |- _ => destruct H
                   end; simplify_eq; eauto; fail).
  all: try (intros e1 e2 He;
            first [ apply elem_of_resolve in He | apply elem_of_reject in He
                  | idtac ];
            simpl in He; rewrite ?elem_of_app, ?list_elem_of_singleton in He;
            intuition (try discriminate; eauto);
            repeat match goal with
                   | H : exists _, _ |- _ => destruct H
                   end; simplify_eq; eauto; fail).
  - intros p' exif' up' [= <-] [= <- <-]. unfold rendered.
    match goal with
    | H : Cloud.upload _ _ _ = Ok _ |- _ => apply upload_ok in H as [H _]
    end. assumption.
Qed.

End Provenance.

Section ProvenanceRun.

Context (h : Host) (total : nat) (queue : list QueueItem) (w0 : World).

Lemma provenance_step us w k it p o w' (us' : list (QueueItem * phase)) :
  us !! k = Some (it, p) -> step h total it p w o w' ->
  (forall j it' q, us' !! j = Some (it', q) ->
     (exists j', us !! j' = Some (it', q))
     \/ (it' = it /\ o = Some q)) ->
  provenance h queue w0 us w -> provenance h queue w0 us' w'.
Proof.
  intros Hk Hs Hus' (Hst & Hup & Hpe & Hus).
  destruct (Hus k it p Hk) as [Hin Hr].
  destruct (step_provenance h total queue it p w o w' Hs Hr Hin)
    as (Hst' & Hup' & Hpe' & Hr').
  split; [|split; [|split]].
  - intros doc r Hd. destruct (Hst' doc r Hd) as [H | H]; auto.
  - intros req Hq. destruct (Hup' req Hq) as [H | ->]; eauto.
  - intros doc r Hd. destruct (Hpe' doc r Hd) as [H | H]; auto.
  - intros j it' q Hj. destruct (Hus' j it' q Hj) as [[j' Hj'] | [-> ->]].
    + by apply (Hus j').
    + split; [exact Hin|]. intros exif up ->. by eapply Hr'.
Qed.

Lemma window_provenance (fuel : nat) (sched : list nat)
    (us : list (QueueItem * phase)) (w : World) :
  (weight us <= fuel)%nat ->
  provenance h queue w0 us w ->
  provenance h queue w0 [] (run_window h total fuel sched us w).
Proof.
  intros Hf HI. apply run_window_invariant; [| |exact Hf|exact HI].
  - intros us1 w1 k it p p' w1' Hk Hs.
    eapply provenance_step; [exact Hk|exact Hs|].
    intros j it' q Hj. apply list_lookup_insert_Some in Hj.
    destruct Hj as [(-> & [= <- <-] & _) | (Hne & Hj)]; eauto.
  - intros us1 w1 k it p w1' Hk Hs.
    eapply provenance_step; [exact Hk|exact Hs|].
    intros j it' q Hj. left. by eapply lookup_delete_inv.
Qed.

End ProvenanceRun.

Lemma not_Called_UploadCalled (req : UploadRequest) (batch : list QueueItem) :
  UploadCalled req ∉ Called <$> batch.
Proof.
  intros H. apply list_elem_of_fmap in H as (it & H & _). discriminate.
Qed.

Lemma not_Called_Persisted (doc : string) (r : PhotoRecord)
    (batch : list QueueItem) :
  Persisted doc r ∉ Called <$> batch.
Proof.
  intros H. apply list_elem_of_fmap in H as (it & H & _). discriminate.
Qed.

Lemma loop_provenance (h : Host) (total : nat) (queue : list QueueItem)
    (scheds : list (list nat)) (w : World) :
  provenance h queue w []
    (upload_loop h total (length queue) 0 queue scheds w).
Proof.
  pose (Inv := fun (i : nat) (w' : World) => provenance h queue w [] w').
  destruct (upload_loop_invariant h total queue Inv) with
    (fuel := length queue) (i := 0%nat) (scheds := scheds) (w := w)
    as (j & Hj & HI); unfold Inv in *; [| lia | | exact HI].
  - intros i w1 sched Hi (Hst & Hup & Hpe & _).
    apply window_provenance; [rewrite weight_launch; lia|].
    split; [exact Hst|split; [|split]].
    + intros req Hq. simpl in Hq. apply elem_of_app in Hq as [Hq | Hq];
        [auto | by apply not_Called_UploadCalled in Hq].
    + intros doc r Hd. simpl in Hd. apply elem_of_app in Hd as [Hd | Hd];
        [auto | by apply not_Called_Persisted in Hd].
    + intros j it p Hj. apply launch_lookup in Hj as [Hj ->].
      split; [|discriminate].
      apply list_elem_of_lookup_2 in Hj.
      apply elem_of_take in Hj as (n & Hn & _).
      rewrite lookup_drop in Hn. by eapply list_elem_of_lookup_2.
  - split; [|split; [|split]]; auto. intros j it p Hj.
    by rewrite lookup_nil in Hj.
Qed.

(** ** The units of a batch, taken together *)

Lemma emit_log (es : list event) (w : World) :
  log (emit es w) = (log w ++ es)%list.
Proof. reflexivity. Qed.

Lemma emit_counts (es : list event) (w : World) :
  completed (emit es w) = completed w /\ failed (emit es w) = failed w
  /\ store (emit es w) = store w /\ assets (emit es w) = assets w.
Proof. done. Qed.

Lemma outside_units_quiet (es : list event) :
  Forall outside_units es ->
  called_items es = [] /\ settled_ids es = []
  /\ (forall req, UploadCalled req ∉ es)
  /\ (forall doc r, Persisted doc r ∉ es).
Proof.
  induction 1 as [|e es He _ (Hc & Hs & Hu & Hp)].
  - repeat split; intros; apply not_elem_of_nil.
  - repeat split.
    + destruct e; simpl in *; done.
    + destruct e; simpl in *; done.
    + intros req Hq. apply elem_of_cons in Hq as [<- | Hq]; [done|].
      by apply Hu in Hq.
    + intros doc r Hq. apply elem_of_cons in Hq as [<- | Hq]; [done|].
      by apply Hp in Hq.
Qed.

Lemma provenance_emit (h : Host) (queue : list QueueItem) (w0 w : World)
    (es : list event) :
  Forall outside_units es ->
  provenance h queue w0 [] w ->
  provenance h queue w0 [] (emit es w).
Proof.
  intros Hes (Hst & Hup & Hpe & Hus).
  destruct (outside_units_quiet es Hes) as (_ & _ & Hu & Hp).
  split; [exact Hst|split; [|split]].
  - intros req Hq. rewrite emit_log in Hq.
    apply elem_of_app in Hq as [Hq | Hq]; [auto | by apply Hu in Hq].
  - intros doc r Hd. rewrite emit_log in Hd.
    apply elem_of_app in Hd as [Hd | Hd]; [auto | by apply Hp in Hd].
  - exact Hus.
Qed.

Lemma provenance_from (h : Host) (queue : list QueueItem) (w0 w : World)
    (es : list event) :
  Forall outside_units es ->
  provenance h queue (emit es w0) [] w -> provenance h queue w0 [] w.
Proof.
  intros Hes (Hst & Hup & Hpe & Hus).
  destruct (outside_units_quiet es Hes) as (_ & _ & Hu & Hp).
  split; [|split; [|split]].
  - exact Hst.
  - intros req Hq. destruct (Hup req Hq) as [H | H]; [|auto].
    rewrite emit_log in H. apply elem_of_app in H as [H | H]; [auto|].
    by apply Hu in H.
  - intros doc r Hd. destruct (Hpe doc r Hd) as [H | H]; [|auto].
    rewrite emit_log in H. apply elem_of_app in H as [H | H]; [auto|].
    by apply Hp in H.
  - exact Hus.
Qed.

Lemma provenance_refl (h : Host) (queue : list QueueItem) (w : World) :
  provenance h queue w [] w.
Proof.
  split; [|split; [|split]]; auto. intros j it p Hj.
  by rewrite lookup_nil in Hj.
Qed.

(** What the units of a batch leave behind, whatever the schedule. *)
Lemma upload_pending_summary (h : Host) (scheds : list (list nat))
    (allFiles : list string) (counter : N) (pending : list PendingPhoto)
    (w : World) :
  failed w = [] ->
  let queue := uploadQueue counter pending in
  let r := upload_pending h scheds allFiles counter pending w in
  (completed r.2 + length (failed r.2) = completed w + length queue)%nat
  /\ (exists trace, log r.2 = (log w ++ trace)%list
                    /\ called_items trace = queue
                    /\ settled_ids trace ≡ₚ id <$> queue)
  /\ blamed h (assets w) queue r.2
  /\ provenance h queue w [] r.2
  /\ (failed r.2 <> [] -> r.1 = Rejected (failure_message (failed r.2)))
  /\ (failed r.2 = [] -> r.1 = Resolved).
Proof.
  intros Hf queue r. subst r. unfold upload_pending.
  destruct pending as [|p0 pending].
  { simpl. rewrite Hf. simpl. split; [lia|]. split.
    - exists [LoggedNoNewPhotos]. auto.
    - split; [by intros x Hx; simpl in Hx; rewrite Hf in Hx;
                 apply elem_of_nil in Hx|].
      split; [|done].
      apply provenance_emit; [by repeat constructor|].
      apply provenance_refl. }
  fold queue.
  set (w3 := emit [LoggedFound (length allFiles);
                   LoggedStartingFrom (img_id counter)] w).
  set (w4 := upload_loop h (length allFiles) (length queue) 0 queue scheds w3).
  pose proof (uploadQueue_ids_unique counter (p0 :: pending)) as Hnd.
  fold queue in Hnd.
  assert (Hacc : (completed w4 + length (failed w4)
                  = completed w + length queue)%nat).
  { pose proof (loop_accounting h (length allFiles) queue scheds w3) as H.
    change (completed w3) with (completed w) in H.
    change (failed w3) with (failed w) in H.
    rewrite Hf in H. cbn [length] in H. fold w4 in H. lia. }
  destruct (loop_trace h (length allFiles) queue scheds w3 Hnd)
    as (trace & Hlog & Hc & Hs & _).
  rewrite firstn_all in Hc, Hs.
  assert (Hbl : blamed h (assets w) queue w4).
  { apply loop_isolation; [exact Hnd| |done].
    intros x Hx. simpl in Hx. rewrite Hf in Hx. by apply elem_of_nil in Hx. }
  assert (Hpr : provenance h queue w [] w4).
  { eapply provenance_from; [|apply loop_provenance].
    by repeat constructor. }
  fold w3 w4 in Hlog.
  destruct (0 <? length (failed w4))%nat eqn:Hfail; cbn [fst snd].
  - apply Nat.ltb_lt in Hfail.
    split; [lia|]. split.
    + exists ([LoggedFound (length allFiles);
               LoggedStartingFrom (img_id counter)] ++ trace)%list.
      split; [rewrite Hlog; unfold w3; by rewrite emit_log, <- !app_assoc|].
      rewrite !called_items_app, !settled_ids_app, Hc. by split.
    + split; [exact Hbl|]. split; [exact Hpr|]. split; [done|].
      intros H0. rewrite H0 in Hfail. simpl in Hfail. lia.
  - apply Nat.ltb_ge in Hfail.
    assert (H0 : failed w4 = [])
      by (destruct (failed w4); simpl in *; [done|lia]).
    destruct (emit_counts [LoggedComplete] w4) as (-> & -> & _).
    split; [lia|]. split.
    + exists ([LoggedFound (length allFiles);
               LoggedStartingFrom (img_id counter)] ++ trace
              ++ [LoggedComplete])%list.
      split; [rewrite emit_log, Hlog; unfold w3;
              by rewrite emit_log, <- !app_assoc|].
      rewrite !called_items_app, !settled_ids_app, Hc.
      split; simpl; by rewrite app_nil_r.
    + split; [exact Hbl|]. split; [|done].
      apply provenance_emit; [by repeat constructor|exact Hpr].
Qed.

(** ** Discovery, and the run as a whole *)

Lemma emit_emit (es1 es2 : list event) (w : World) :
  emit es2 (emit es1 w) = emit (es1 ++ es2) w.
Proof. unfold emit. simpl. by rewrite app_assoc. Qed.

Lemma emit_nil (w : World) : emit [] w = w.
Proof. destruct w. unfold emit. simpl. by rewrite app_nil_r. Qed.

Lemma scan_emits (h : Host) (folders : list string) (w : World) :
  exists es, (scan h folders w).2 = emit es w /\ Forall outside_units es.
Proof.
  revert w. induction folders as [|dir rest IH]; intros w; simpl.
  - exists []. by rewrite emit_nil.
  - destruct (existsSync h dir); simpl.
    + destruct (readdirSync h dir) as [names|msg]; simpl.
      * destruct (IH w) as (es & He & Hq).
        destruct (scan h rest w) as [[more|msg] w']; simpl in *; eauto.
      * exists []. by rewrite emit_nil.
    + destruct (IH (emit [Warned dir] w)) as (es & He & Hq).
      exists (Warned dir :: es). rewrite He, emit_emit. split; [done|].
      by constructor.
Qed.

Lemma scan_result (h : Host) (folders : list string) (w w' : World) :
  (scan h folders w).1 = (scan h folders w').1.
Proof.
  revert w w'. induction folders as [|dir rest IH]; intros w w'; simpl; [done|].
  destruct (existsSync h dir); simpl; [|apply IH].
  destruct (readdirSync h dir) as [names|msg]; simpl; [|done].
  specialize (IH w w').
  destruct (scan h rest w) as [[more|msg] w1],
           (scan h rest w') as [[more'|msg'] w1']; simpl in *; congruence.
Qed.

Lemma collect_emits (h : Host) (files : list string) (w : World) :
  exists es, (collect_pending h files w).2 = emit es w
             /\ Forall outside_units es.
Proof.
  revert w. induction files as [|file rest IH]; intros w; simpl.
  - exists []. by rewrite emit_nil.
  - destruct (hashFile h file) as [hs|msg]; simpl.
    + destruct (hashExists (store w) hs).
      * destruct (IH (emit [SkippedDuplicate (path_basename h file)] w))
          as (es & He & Hq).
        exists (SkippedDuplicate (path_basename h file) :: es).
        rewrite He, emit_emit. split; [done|]. by constructor.
      * destruct (IH w) as (es & He & Hq).
        destruct (collect_pending h rest w) as [[ps|msg] w']; simpl in *; eauto.
    + exists []. by rewrite emit_nil.
Qed.

Lemma collect_result (h : Host) (files : list string) (w w' : World) :
  store w = store w' ->
  (collect_pending h files w).1 = (collect_pending h files w').1.
Proof.
  revert w w'. induction files as [|file rest IH]; intros w w' Hs; simpl;
    [done|].
  destruct (hashFile h file) as [hs|msg]; simpl; [|done].
  rewrite <- Hs. destruct (hashExists (store w) hs).
  - by apply IH.
  - specialize (IH w w' Hs).
    destruct (collect_pending h rest w) as [[ps|msg] w1],
             (collect_pending h rest w') as [[ps'|msg'] w1']; simpl in *;
      congruence.
Qed.

(** A run either ends before the units, leaving the stores as they were,
    or is the work of [upload_pending] on the planned queue. *)
Lemma uploadPhotos_plan (h : Host) (listFile : string)
    (scheds : list (list nat)) (st : Store) (a : Assets) :
  exists es, Forall outside_units es
    /\ ((plan h listFile st = []
         /\ (uploadPhotos h listFile scheds st a).2 = emit es (start st a))
        \/ exists allFiles pending,
             plan h listFile st
             = uploadQueue (getNextImageNumber st) pending
             /\ uploadPhotos h listFile scheds st a
                = upload_pending h scheds allFiles (getNextImageNumber st)
                    pending (emit es (start st a))).
Proof.
  unfold uploadPhotos, plan.
  destruct (existsSync h listFile); cbn [negb];
    [|exists []; rewrite emit_nil; auto].
  destruct (readFileSync h listFile) as [text|msg];
    [|exists []; rewrite emit_nil; auto].
  destruct (folders_of h text) as [|d ds].
  { exists [LoggedNoFolders]. split; [by repeat constructor|]. left.
    split; reflexivity. }
  destruct (scan_emits h (d :: ds) (start st a)) as (es1 & He1 & Hq1).
  rewrite (scan_result h (d :: ds) (start st ∅) (start st a)).
  destruct (scan h (d :: ds) (start st a)) as [[files|msg] w1];
    cbn [fst snd] in *; subst w1; [|exists es1; auto].
  unfold upload_files.
  rewrite (collect_result h (sort_paths files) (start st ∅)
             (emit es1 (start st a))) by done.
  destruct (sort_paths files) as [|f fs].
  { exists (es1 ++ [LoggedNoImages])%list. rewrite <- emit_emit.
    split; [apply Forall_app; split; [done|by repeat constructor]|].
    left. split; reflexivity. }
  destruct (collect_emits h (f :: fs) (emit es1 (start st a)))
    as (es2 & He2 & Hq2).
  destruct (collect_pending h (f :: fs) (emit es1 (start st a)))
    as [[pending|msg] w2]; cbn [fst snd] in *; subst w2; rewrite emit_emit.
  - exists (es1 ++ es2)%list. split; [by apply Forall_app|]. right.
    exists (f :: fs), pending. split; reflexivity.
  - exists (es1 ++ es2)%list. split; [by apply Forall_app|]. left. auto.
Qed.

(** ** Windowed concurrency (claim C5) *)


(** ** Determinism of the assignment (claim C6) *)

Lemma filter_Permutation {A : Type} (f : A -> bool) (l1 l2 : list A) :
  l1 ≡ₚ l2 -> List.filter f l1 ≡ₚ List.filter f l2.
Proof.
  induction 1 as [|x l1 l2 _ IH|x y l|l1 l2 l3 _ IH1 _ IH2]; simpl.
  - done.
  - destruct (f x); [by constructor | done].
  - destruct (f x), (f y); try done. apply perm_swap.
  - by etrans.
Qed.

Lemma sort_paths_Permutation (l1 l2 : list string) :
  l1 ≡ₚ l2 -> sort_paths l1 = sort_paths l2.
Proof.
  intros Hp. unfold sort_paths.
  apply (StronglySorted_unique js_le).
  - apply StronglySorted_merge_sort; apply _.
  - apply StronglySorted_merge_sort; apply _.
  - by rewrite !merge_sort_Permutation.
Qed.

Lemma scan_same (h1 h2 : Host) (folders : list string) (w w' : World) :
  same_inputs h1 h2 ->
  same_listing (scan h1 folders w).1 (scan h2 folders w').1.
Proof.
  intros (Hex & _ & _ & Hjoin & _ & Hdir). revert w w'.
  induction folders as [|dir rest IH]; intros w w'; simpl; [done|].
  rewrite <- Hex. destruct (existsSync h1 dir); simpl; [|apply IH].
  specialize (Hdir dir).
  destruct (readdirSync h1 dir) as [n1|m1], (readdirSync h2 dir) as [n2|m2];
    simpl in *; try done.
  specialize (IH w w').
  destruct (scan h1 rest w) as [[f1|e1] w1],
           (scan h2 rest w') as [[f2|e2] w2]; simpl in *; try done.
  apply Permutation_app; [|done].
  rewrite <- (list_fmap_ext (path_join h1 dir) (path_join h2 dir))
    by (intros; apply Hjoin).
  apply fmap_Permutation. by apply filter_Permutation.
Qed.

Lemma collect_same (h1 h2 : Host) (files : list string) (w w' : World) :
  (forall p, hashFile h1 p = hashFile h2 p) -> store w = store w' ->
  (collect_pending h1 files w).1 = (collect_pending h2 files w').1.
Proof.
  intros Hh. revert w w'.
  induction files as [|file rest IH]; intros w w' Hs; simpl; [done|].
  rewrite <- Hh. destruct (hashFile h1 file) as [hs|msg]; simpl; [|done].
  rewrite <- Hs. destruct (hashExists (store w) hs).
  - by apply IH.
  - specialize (IH w w' Hs).
    destruct (collect_pending h1 rest w) as [[ps|msg] w1],
             (collect_pending h2 rest w') as [[ps'|msg'] w1']; simpl in *;
      congruence.
Qed.

Lemma plan_same (h1 h2 : Host) (listFile : string) (st : Store) :
  same_inputs h1 h2 -> plan h1 listFile st = plan h2 listFile st.
Proof.
  intros Hsame. pose proof Hsame as (Hex & Hrd & Htrim & _ & Hh & _).
  unfold plan. rewrite <- Hex, <- Hrd.
  destruct (existsSync h1 listFile); [|done].
  destruct (readFileSync h1 listFile) as [text|msg]; [|done].
  assert (Hf : folders_of h2 text = folders_of h1 text).
  { unfold folders_of. f_equal. apply list_fmap_ext. intros. symmetry.
    apply Htrim. }
  rewrite Hf.
  pose proof (scan_same h1 h2 (folders_of h1 text) (start st ∅) (start st ∅)
                Hsame) as Hscan.
  destruct (scan h1 (folders_of h1 text) (start st ∅)) as [[f1|e1] w1],
           (scan h2 (folders_of h1 text) (start st ∅)) as [[f2|e2] w2];
    simpl in *; try done.
  rewrite (sort_paths_Permutation f1 f2 Hscan).
  by rewrite (collect_same h1 h2 (sort_paths f2) (start st ∅) (start st ∅)).
Qed.

Lemma Forall_List_filter {A : Type} (P : A -> Prop) (f : A -> bool)
    (l : list A) :
  Forall P l -> Forall P (List.filter f l).
Proof.
  induction 1 as [|x l Hx _ IH]; simpl; [done|].
  destruct (f x); [by constructor | done].
Qed.

Lemma StronglySorted_List_filter {A : Type} (R : relation A) (f : A -> bool)
    (l : list A) :
  StronglySorted R l -> StronglySorted R (List.filter f l).
Proof.
  induction 1 as [|x l _ IH Hx]; simpl; [constructor|].
  destruct (f x); [|done]. constructor; [done|].
  by apply Forall_List_filter.
Qed.

(** The pass before assignment keeps the candidates without a record, in
    their order, and writes a skip line for each of the others. *)
Lemma collect_pending_spec (h : Host) (files : list string) (w w' : World)
    (pending : list PendingPhoto) :
  collect_pending h files w = (Ok pending, w') ->
  filePath <$> pending = List.filter (fresh h (store w)) files
  /\ Forall (fun p => hashFile h (filePath p) = Ok (p_hash p)
                      /\ hashExists (store w) (p_hash p) = false) pending
  /\ w' = emit ((SkippedDuplicate ∘ path_basename h)
                  <$> List.filter (fun f => negb (fresh h (store w) f)) files)
               w.
Proof.
  revert w w' pending.
  induction files as [|file rest IH]; intros w w' pending; simpl.
  - intros [= <- <-]. split; [done|]. split; [done|].
    symmetry. apply emit_nil.
  - destruct (hashFile h file) as [hs|msg] eqn:Hh; [|discriminate].
    assert (Hfresh : fresh h (store w) file = negb (hashExists (store w) hs))
      by (unfold fresh; by rewrite Hh).
    rewrite Hfresh.
    destruct (hashExists (store w) hs) eqn:Hex; simpl.
    + intros Hc. destruct (IH _ _ _ Hc) as (Hp & Hall & ->).
      split; [exact Hp|]. split; [exact Hall|]. by rewrite emit_emit.
    + destruct (collect_pending h rest w) as [[ps|msg] w1] eqn:Hc;
        [|discriminate].
      intros [= <- <-]. destruct (IH _ _ _ Hc) as (Hp & Hall & ->).
      split; [by rewrite fmap_cons, Hp|]. split; [|done].
      constructor; [|done]. simpl. auto.
Qed.

Lemma uploadQueue_paths (counter : N) (pending : list PendingPhoto) :
  q_filePath <$> uploadQueue counter pending = filePath <$> pending.
Proof.
  apply list_eq. intros i. unfold uploadQueue.
  rewrite !list_lookup_fmap, list_lookup_imap. by destruct (pending !! i).
Qed.

Lemma uploadQueue_elem (counter : N) (pending : list PendingPhoto)
    (it : QueueItem) :
  it ∈ uploadQueue counter pending ->
  exists p, p ∈ pending /\ q_filePath it = filePath p /\ q_hash it = p_hash p.
Proof.
  intros Hin. apply list_elem_of_lookup in Hin as [i Hi].
  unfold uploadQueue in Hi. rewrite list_lookup_imap in Hi.
  destruct (pending !! i) as [p|] eqn:Hp; [|discriminate].
  simpl in Hi. injection Hi as <-. exists p.
  split; [by eapply list_elem_of_lookup_2 | done].
Qed.

(** The planned queue holds, in the order of the sorted paths, the
    candidates whose content has no record in the store. *)
Lemma plan_paths (h : Host) (listFile : string) (st : Store) :
  exists files,
    q_filePath <$> plan h listFile st
    = List.filter (fresh h st) (sort_paths files)
    /\ Forall (fun it => hashFile h (q_filePath it) = Ok (q_hash it)
                         /\ hashExists st (q_hash it) = false)
         (plan h listFile st).
Proof.
  assert (Hnone : exists files : list string,
            q_filePath <$> [] = List.filter (fresh h st) (sort_paths files)
            /\ Forall (fun it => hashFile h (q_filePath it) = Ok (q_hash it)
                                 /\ hashExists st (q_hash it) = false) []).
  { exists []. split; [reflexivity | constructor]. }
  unfold plan.
  destruct (existsSync h listFile); [|exact Hnone].
  destruct (readFileSync h listFile) as [text|msg]; [|exact Hnone].
  destruct (scan h (folders_of h text) (start st ∅)) as [[files|msg] w1];
    cbn [fst]; [|exact Hnone].
  destruct (collect_pending h (sort_paths files) (start st ∅))
    as [[pending|msg] w2] eqn:Hc; cbn [fst]; [|exact Hnone].
  exists files. apply collect_pending_spec in Hc as (Hp & Hall & _).
  change (store (start st ∅)) with st in Hp, Hall.
  rewrite uploadQueue_paths. split; [exact Hp|].
  apply Forall_forall. intros it Hin.
  apply uploadQueue_elem in Hin as (p & Hp' & -> & ->).
  rewrite Forall_forall in Hall. by apply Hall.
Qed.

(** What a run calls and writes, in terms of its plan. *)
Lemma uploadPhotos_follows_plan (h : Host) (listFile : string)
    (scheds : list (list nat)) (st : Store) (a : Assets) :
  let r := uploadPhotos h listFile scheds st a in
  called_items (log r.2) = plan h listFile st
  /\ blamed h a (plan h listFile st) r.2
  /\ provenance h (plan h listFile st) (start st a) [] r.2.
Proof.
  intros r. subst r.
  destruct (uploadPhotos_plan h listFile scheds st a)
    as (es & Hes & [[Hplan Hw] | (allFiles & pending & Hplan & Hrun)]).
  - rewrite Hw, Hplan. destruct (outside_units_quiet es Hes) as (Hc & _).
    split; [by rewrite emit_log, called_items_app, Hc|].
    split; [intros x Hx; by apply elem_of_nil in Hx|].
    apply provenance_emit; [done | apply provenance_refl].
  - rewrite Hrun, Hplan.
    destruct (upload_pending_summary h scheds allFiles
                (getNextImageNumber st) pending (emit es (start st a))
                eq_refl)
      as (_ & (trace & Hl & Hc & _) & Hbl & Hpr & _).
    destruct (outside_units_quiet es Hes) as (Hc' & _).
    split; [|split].
    + rewrite Hl, emit_log, !called_items_app, Hc', Hc. done.
    + exact Hbl.
    + eapply provenance_from; [exact Hes | exact Hpr].
Qed.

(** C6: two runs over the same input files and the same store enter the
    same items with the same identifiers in the same order: whatever order
    the folders are listed in by the file system, whatever units fail, and
    whichever unit finishes first.  The order is that of the sorted
    paths, which is the order of their UTF-16 code units, and every
    document a run writes carries the identifier and the hash of its item
    of that assignment. *)
Theorem determinism (h1 h2 : Host) (listFile : string) (st : Store)
    (a1 a2 : Assets) (scheds1 scheds2 : list (list nat)) :
  same_inputs h1 h2 ->
  let r1 := uploadPhotos h1 listFile scheds1 st a1 in
  let r2 := uploadPhotos h2 listFile scheds2 st a2 in
  called_items (log r1.2) = called_items (log r2.2)
  /\ called_items (log r1.2) = plan h1 listFile st
  /\ StronglySorted js_le (q_filePath <$> plan h1 listFile st)
  /\ (forall doc r, store r1.2 !! doc = Some r ->
        st !! doc = Some r
        \/ exists it, it ∈ plan h1 listFile st
                      /\ doc = id it /\ title r = id it
                      /\ hash r = q_hash it)
  /\ (forall doc r, store r2.2 !! doc = Some r ->
        st !! doc = Some r
        \/ exists it, it ∈ plan h1 listFile st
                      /\ doc = id it /\ title r = id it
                      /\ hash r = q_hash it).
Proof.
  intros Hsame r1 r2.
  destruct (uploadPhotos_follows_plan h1 listFile scheds1 st a1)
    as (Hc1 & _ & (Hst1 & _)).
  destruct (uploadPhotos_follows_plan h2 listFile scheds2 st a2)
    as (Hc2 & _ & (Hst2 & _)).
  rewrite <- (plan_same h1 h2 listFile st Hsame) in Hc2, Hst2.
  fold r1 in Hc1, Hst1. fold r2 in Hc2, Hst2.
  split; [congruence|]. split; [done|]. split; [|split].
  - destruct (plan_paths h1 listFile st) as (files & -> & _).
    apply StronglySorted_List_filter.
    apply StronglySorted_merge_sort; apply _.
  - intros doc r Hd. destruct (Hst1 doc r Hd)
      as [H | (it & exif & up & Hin & -> & -> & _)]; [auto|]. right. eauto.
  - intros doc r Hd. destruct (Hst2 doc r Hd)
      as [H | (it & exif & up & Hin & -> & -> & _)]; [auto|]. right. eauto.
Qed.

Lemma example_same_inputs : same_inputs example_host example_host_faulty.
Proof.
  repeat split; try done. intros d. simpl.
  change ["3.png"; "notes.txt"; "1.jpg"; "2.JPG"]
    with (reverse ["2.JPG"; "1.jpg"; "notes.txt"; "3.png"]).
  symmetry. apply reverse_Permutation.
Qed.

Lemma determinism_witness :
  let r1 := uploadPhotos example_host "list.txt" [] ∅ ∅ in
  let r2 := uploadPhotos example_host_faulty "list.txt" round_robin ∅ ∅ in
  called_items (log r1.2) = called_items (log r2.2)
  /\ called_items (log r1.2) = plan example_host "list.txt" ∅
  /\ StronglySorted js_le (q_filePath <$> plan example_host "list.txt" ∅)
  /\ (forall doc r, store r1.2 !! doc = Some r ->
        (∅ : Store) !! doc = Some r
        \/ exists it, it ∈ plan example_host "list.txt" ∅
                      /\ doc = id it /\ title r = id it
                      /\ hash r = q_hash it)
  /\ (forall doc r, store r2.2 !! doc = Some r ->
        (∅ : Store) !! doc = Some r
        \/ exists it, it ∈ plan example_host "list.txt" ∅
                      /\ doc = id it /\ title r = id it
                      /\ hash r = q_hash it).
Proof.
  exact (determinism example_host example_host_faulty "list.txt" ∅ ∅ ∅
           [] round_robin example_same_inputs).
Defined.

(** The assignment of the two runs of the witness. *)
Example determinism_run :
  called_items
    (log (uploadPhotos example_host_faulty "list.txt" round_robin ∅ ∅).2)
  = [ {| q_filePath := "a/1.jpg"; q_hash := "sha1:a/1.jpg"; id := "IMG-0000" |};
      {| q_filePath := "a/2.JPG"; q_hash := "sha1:a/2.JPG"; id := "IMG-0001" |};
      {| q_filePath := "a/3.png"; q_hash := "sha1:a/3.png"; id := "IMG-0002" |} ].
Proof. vm_compute. reflexivity. Qed.

(** The order of [sort] is that of the code units, not of the bytes: the
    surrogates of an emoji come before a fullwidth tilde ([U+FF5E]), and
    capitals come before small letters. *)
Example sort_paths_code_units :
  sort_paths ["a/～.jpg"; "a/b.jpg"; "a/😀.jpg"; "a/B.jpg"]
  = ["a/B.jpg"; "a/b.jpg"; "a/😀.jpg"; "a/～.jpg"]
  /\ merge_sort str_le ["a/～.jpg"; "a/😀.jpg"] = ["a/～.jpg"; "a/😀.jpg"]
  /\ Utf16.of_utf8 "😀" = [0xD83D; 0xDE00] /\ Utf16.of_utf8 "～" = [0xFF5E]
  /\ forallb well_formed ["a/～.jpg"; "a/b.jpg"; "a/😀.jpg"; "a/B.jpg"] = true.
Proof. vm_compute. auto 6. Qed.

(** ** Deduplication (claim C2) *)



(** ** The size rules of the upload request *)

Lemma scale_bounds (a b c : N) :
  c <> 0 ->
  2 * c * Cloud.scale a b c <= 2 * a * b + c
  /\ 2 * a * b + c < 2 * c * Cloud.scale a b c + 2 * c.
Proof.
  intros Hc. unfold Cloud.scale.
  assert (H2c : 2 * c <> 0) by lia.
  pose proof (N.div_mod (2 * a * b + c) (2 * c) H2c) as Hdm.
  pose proof (N.mod_upper_bound (2 * a * b + c) (2 * c) H2c) as Hub.
  set (q := (2 * a * b + c) / (2 * c)) in *.
  set (m := (2 * a * b + c) mod (2 * c)) in *.
  nia.
Qed.

(** What the two rules of the request do to an image of [sw] by [sh]
    pixels. *)
Lemma render_request (it : QueueItem) (sw sh : N) :
  let d := Cloud.render (transformation (upload_request it)) (sw, sh) in
  (sw <= MAX_SIDE -> sh <= MAX_SIDE -> d = (sw, sh))
  /\ (d <> (sw, sh) -> MAX_SIDE < sw \/ MAX_SIDE < sh)
  /\ fst d <= sw /\ snd d <= sh
  /\ fst d <= MAX_SIDE /\ snd d <= MAX_SIDE
  /\ 2 * (fst d * sh) <= 2 * (snd d * sw) + N.max sw sh
  /\ 2 * (snd d * sw) <= 2 * (fst d * sh) + N.max sw sh.
Proof.
  unfold MAX_SIDE. cbn [Cloud.render transformation upload_request foldl].
  unfold Cloud.apply, Cloud.holds, Cloud.crop_limit, MAX_SIDE.
  cbn [t_if t_width t_height t_crop fst snd].
  destruct (N.ltb_spec 2048 sw) as [Hw | Hw].
  - assert (Hle : (sw <=? 2048) = false) by (apply N.leb_gt; lia).
    rewrite Hle. cbn [andb].
    assert (Hsw : sw <> 0) by lia.
    destruct (N.leb_spec (2048 * sh) (2048 * sw)) as [Hs | Hs].
    + pose proof (scale_bounds sh 2048 sw Hsw) as [H1 H2].
      cbn [fst snd].
      assert (Hh : Cloud.scale sh 2048 sw <= 2048) by nia.
      assert (Hlt : (2048 <? Cloud.scale sh 2048 sw) = false)
        by (apply N.ltb_ge; lia).
      rewrite Hlt. cbn [fst snd].
      repeat split; first [lia | nia | (intros; lia)].
    + assert (Hsh : sh <> 0) by lia.
      pose proof (scale_bounds sw 2048 sh Hsh) as [H1 H2].
      cbn [fst snd]. rewrite N.ltb_irrefl. cbn [fst snd].
      repeat split; first [lia | nia | (intros; lia)].
  - cbn [fst snd].
    destruct (N.ltb_spec 2048 sh) as [Hh | Hh].
    + assert (Hle : (sh <=? 2048) = false) by (apply N.leb_gt; lia).
      rewrite Hle, andb_false_r.
      assert (Hs : (2048 * sh <=? 2048 * sw) = false) by (apply N.leb_gt; lia).
      rewrite Hs. assert (Hsh : sh <> 0) by lia.
      pose proof (scale_bounds sw 2048 sh Hsh) as [H1 H2].
      cbn [fst snd].
      repeat split; first [lia | nia | (intros; lia)].
    + cbn [fst snd].
      repeat split; first [lia | done | (intros H; by destruct H)].
Qed.

(** ** Shutter speed (claim C8) *)





(** An exposure of [2^-64] s: the denominator [2^64] is beyond the
    integers that are printed digit by digit, and its text is that of
    Number::toString. *)
Example shutter_beyond_exact (h : Host) :
  shutter_string h 0x1p-64%float
  = "1/" ++ numberToString h 0x1p+64%float.
Proof. reflexivity. Qed.

(** ** The scan of the listed folders *)

Lemma scan_skips_missing (h : Host) (folders : list string) (w : World) :
  (scan h folders w).1 = (scan h (List.filter (existsSync h) folders) w).1.
Proof.
  revert w. induction folders as [|dir rest IH]; intros w; [done|].
  cbn [scan List.filter]. destruct (existsSync h dir) eqn:Hex; cbn [negb].
  - cbn [scan]. rewrite Hex. cbn [negb].
    destruct (readdirSync h dir) as [names|msg]; [|done].
    specialize (IH w).
    destruct (scan h rest w) as [[more|msg] w1],
             (scan h (List.filter (existsSync h) rest) w) as [[more'|msg'] w1'];
      simpl in *; congruence.
  - rewrite IH. apply scan_result.
Qed.

Lemma scan_warns (h : Host) (folders : list string) (w w' : World)
    (files : list string) :
  scan h folders w = (Ok files, w') ->
  w' = emit (Warned <$> List.filter (fun d => negb (existsSync h d)) folders) w.
Proof.
  revert w w' files. induction folders as [|dir rest IH]; intros w w' files.
  - intros [= <- <-]. symmetry. apply emit_nil.
  - cbn [scan List.filter]. destruct (existsSync h dir); cbn [negb].
    + destruct (readdirSync h dir) as [names|msg]; [|discriminate].
      destruct (scan h rest w) as [[more|msg] w1] eqn:Hs; [|discriminate].
      intros [= <- <-]. by eapply IH.
    + intros Hs. rewrite (IH _ _ _ Hs), emit_emit. done.
Qed.

(** ** The check inside the unit (claim C10) *)

(** C10: a unit whose content hash has a record when its own check is
    answered finishes at that check: nothing is uploaded, no document is
    written (the one named by its identifier, if any, stays as it was),
    nothing is added to [failed], and [completed] grows by one; the
    identifiers of the queue are fixed by position, so the identifier of
    such a unit is not given to another candidate. *)
Theorem in_run_duplicate (h : Host) (total fuel : nat) (sched : list nat)
    (it : QueueItem) (w : World) :
  hashExists (store w) (q_hash it) = true ->
  let w' := run_window h total (S fuel) sched [(it, AwaitHashExists)] w in
  unit_step h total it AwaitHashExists w = (None, w')
  /\ store w' = store w /\ assets w' = assets w
  /\ completed w' = S (completed w) /\ failed w' = failed w
  /\ log w'
     = (log w ++ [SkippedInRun (path_basename h (q_filePath it))]
          ++ renderProgress (S (completed w) + length (failed w)) total
          ++ [Settled (id it)])%list
  /\ (forall counter pending k,
        (k < length pending)%nat ->
        id <$> uploadQueue counter pending !! k
        = Some (img_id (counter + N.of_nat k))).
Proof.
  intros Hex w'. subst w'. cbn [run_window].
  rewrite Nat.mod_1_r. cbn [lookup list_lookup unit_step].
  rewrite Hex. cbn [delete list_delete].
  assert (Hend : forall w1, run_window h total fuel (List.tl sched) [] w1 = w1)
    by (intros w1; by destruct fuel).
  rewrite Hend. repeat split; try done.
  - cbn. by rewrite <- !app_assoc.
  - intros counter pending k Hk.
    destruct (lookup_lt_is_Some_2 pending k Hk) as [item Hitem].
    by rewrite (uploadQueue_lookup counter pending k item Hitem).
Qed.

Lemma example_item_has_record :
  hashExists (store (start store_with_twin ∅)) (q_hash example_item) = true.
Proof. vm_compute. reflexivity. Qed.

Lemma in_run_duplicate_witness :
  let w := start store_with_twin ∅ in
  let w' := run_window example_host 3 1 [] [(example_item, AwaitHashExists)] w in
  unit_step example_host 3 example_item AwaitHashExists w = (None, w')
  /\ store w' = store w /\ assets w' = assets w
  /\ completed w' = S (completed w) /\ failed w' = failed w
  /\ log w'
     = (log w ++ [SkippedInRun (path_basename example_host
                                  (q_filePath example_item))]
          ++ renderProgress (S (completed w) + length (failed w)) 3
          ++ [Settled (id example_item)])%list
  /\ (forall counter pending k,
        (k < length pending)%nat ->
        id <$> uploadQueue counter pending !! k
        = Some (img_id (counter + N.of_nat k))).
Proof.
  exact (in_run_duplicate example_host 3 0 [] example_item
           (start store_with_twin ∅) example_item_has_record).
Defined.

(** Two files with the same bytes, their units resumed one after the
    other: the second is stopped by its own check, its identifier
    [IMG-0001] is never written, the third file still gets [IMG-0002], and
    all three units count as completed. *)
Example in_run_duplicate_run :
  let r := uploadPhotos example_host_twins "list.txt" [] ∅ ∅ in
  r.1 = Resolved /\ completed r.2 = 3%nat /\ failed r.2 = []
  /\ hash <$> store r.2 !! "IMG-0000" = Some "sha1:twin"
  /\ store r.2 !! "IMG-0001" = None
  /\ hash <$> store r.2 !! "IMG-0002" = Some "sha1:c"
  /\ SkippedInRun "2.JPG" ∈ log r.2.
Proof.
  vm_compute. repeat split. apply list_elem_of_In. vm_compute. tauto.
Qed.

(** ** Progress accounting (claim C4) *)

Lemma progress_of_resolve (d t total : nat) (it : QueueItem) (w : World) :
  ProgressLine d t ∈ log (resolve total it w) ->
  ProgressLine d t ∈ log w
  \/ (t = total /\ d = (S (completed w) + length (failed w))%nat).
Proof.
  intros H. unfold resolve in H. cbn [log] in H.
  rewrite !elem_of_app in H. destruct H as [H | [H | H]]; [auto| |].
  - apply elem_of_progress in H as [H | H]; [|discriminate].
    injection H as -> ->. auto.
  - apply list_elem_of_singleton in H. discriminate.
Qed.

Lemma progress_of_reject (d t total : nat) (it : QueueItem) (msg : string)
    (w : World) :
  ProgressLine d t ∈ log (reject total it msg w) ->
  ProgressLine d t ∈ log w
  \/ (t = total /\ d = (completed w + S (length (failed w)))%nat).
Proof.
  intros H. unfold reject in H. cbn [log] in H.
  rewrite !elem_of_app in H. destruct H as [H | [H | [H | H]]]; [auto| | |].
  - apply list_elem_of_singleton in H. discriminate.
  - apply elem_of_progress in H as [H | H]; [|discriminate].
    injection H as -> ->. rewrite length_app, Nat.add_1_r. auto.
  - apply list_elem_of_singleton in H. discriminate.
Qed.

Lemma newline_of_resolve (total : nat) (it : QueueItem) (w : World) :
  NewLine ∈ log (resolve total it w) ->
  NewLine ∈ log w \/ (S (completed w) + length (failed w))%nat = total.
Proof.
  intros H. unfold resolve, renderProgress in H. cbn [log] in H.
  rewrite !elem_of_app in H. destruct H as [H | [H | H]]; [auto| |].
  - apply elem_of_cons in H as [H | H]; [discriminate|].
    destruct (_ =? total)%nat eqn:E; [|by apply elem_of_nil in H].
    apply Nat.eqb_eq in E. auto.
  - apply list_elem_of_singleton in H. discriminate.
Qed.

Lemma newline_of_reject (total : nat) (it : QueueItem) (msg : string)
    (w : World) :
  NewLine ∈ log (reject total it msg w) ->
  NewLine ∈ log w \/ (completed w + S (length (failed w)))%nat = total.
Proof.
  intros H. unfold reject, renderProgress in H. cbn [log] in H.
  rewrite !elem_of_app in H. destruct H as [H | [H | [H | H]]]; [auto| | |].
  - apply list_elem_of_singleton in H. discriminate.
  - apply elem_of_cons in H as [H | H]; [discriminate|].
    destruct (_ =? total)%nat eqn:E; [|by apply elem_of_nil in H].
    apply Nat.eqb_eq in E. rewrite length_app, Nat.add_1_r in E. auto.
  - apply list_elem_of_singleton in H. discriminate.
Qed.

(** What a step adds to the progress lines: only a step that settles its
    unit adds any, namely the count of outcomes so far against [total],
    and a newline only when the two are equal. *)
Lemma step_progress (h : Host) (total : nat) (it : QueueItem) (p : phase)
    (w w' : World) (o : option phase) :
  step h total it p w o w' ->
  (forall d t, ProgressLine d t ∈ log w' ->
     ProgressLine d t ∈ log w
     \/ (o = None /\ t = total
         /\ d = (completed w' + length (failed w'))%nat))
  /\ (NewLine ∈ log w' ->
      NewLine ∈ log w
      \/ (o = None /\ (completed w' + length (failed w'))%nat = total))
  /\ match o with
     | None => (completed w' + length (failed w')
                = S (completed w + length (failed w)))%nat
     | Some _ => completed w' = completed w /\ failed w' = failed w
     end.
Proof.
  intros Hs. inversion Hs; subst; clear Hs; (split; [|split]).
  all: try (intros d t Hd; first [ apply progress_of_resolve in Hd
                                  | apply progress_of_reject in Hd
                                  | idtac ]).
  all: try (intros Hn; first [ apply newline_of_resolve in Hn
                              | apply newline_of_reject in Hn
                              | idtac ]).
  all: cbn [completed failed log emit with_store with_assets resolve reject]
         in *.
  all: rewrite ?length_app, ?Nat.add_1_r in *; cbn [length] in *.
  all: rewrite ?elem_of_app, ?list_elem_of_singleton in *.
  all: try lia.
  all: intuition (try discriminate; eauto).
  all: rewrite ?Nat.add_succ_r in *; auto.
Qed.

Lemma window_progress (h : Host) (total fuel lo hi : nat) (sched : list nat)
    (us : list (QueueItem * phase)) (w0 w : World) :
  (weight us <= fuel)%nat ->
  (lo <= completed w + length (failed w))%nat ->
  (completed w + length (failed w) + length us <= hi)%nat ->
  progress_within total lo hi w0 w ->
  let w' := run_window h total fuel sched us w in
  progress_within total lo hi w0 w'
  /\ (completed w' + length (failed w')
      = completed w + length (failed w) + length us)%nat.
Proof.
  intros Hf Hlo Hhi Hpw. cbv zeta.
  split; [|by apply window_accounting].
  pose (Inv := fun (us' : list (QueueItem * phase)) (w' : World) =>
    (lo <= completed w' + length (failed w'))%nat
    /\ (completed w' + length (failed w') + length us' <= hi)%nat
    /\ progress_within total lo hi w0 w').
  assert (H : Inv [] (run_window h total fuel sched us w)).
  { apply run_window_invariant; [| |exact Hf|done]; unfold Inv.
    - intros us1 w1 k it p p' w1' Hk Hs (H1 & H2 & H3 & H4).
      destruct (step_progress _ _ _ _ _ _ _ Hs) as (Hp & Hn & Hc & Hfl).
      rewrite length_insert, Hc, Hfl.
      split; [done|]. split; [done|]. split.
      + intros d t Hd. destruct (Hp d t Hd) as [Hd' | [? _]]; [auto|done].
      + intros Hnl. destruct (Hn Hnl) as [Hn' | [? _]]; [auto|done].
    - intros us1 w1 k it p w1' Hk Hs (H1 & H2 & H3 & H4).
      destruct (step_progress _ _ _ _ _ _ _ Hs) as (Hp & Hn & Hc).
      assert (Hlen : length us1 = S (length (delete k us1))).
      { rewrite length_delete by eauto. apply lookup_lt_Some in Hk. lia. }
      split; [lia|]. split; [lia|]. split.
      + intros d t Hd. destruct (Hp d t Hd) as [Hd' | (_ & -> & ->)]; [auto|].
        right. split; [done|lia].
      + intros Hnl. destruct (Hn Hnl) as [Hn' | (_ & <-)]; [auto|].
        right. lia. }
  by destruct H as (_ & _ & H).
Qed.

Lemma progress_within_emit (total lo hi : nat) (w0 w : World)
    (es : list event) :
  (forall d t, ProgressLine d t ∉ es) -> NewLine ∉ es ->
  progress_within total lo hi w0 w ->
  progress_within total lo hi w0 (emit es w).
Proof.
  intros Hp Hn [H1 H2]. split.
  - intros d t Hd. rewrite emit_log in Hd.
    apply elem_of_app in Hd as [Hd | Hd]; [auto | by apply Hp in Hd].
  - intros Hnl. rewrite emit_log in Hnl.
    apply elem_of_app in Hnl as [Hnl | Hnl]; [auto | done].
Qed.

Lemma loop_progress (h : Host) (total : nat) (queue : list QueueItem)
    (scheds : list (list nat)) (w : World) :
  let lo := (completed w + length (failed w))%nat in
  progress_within total lo (lo + length queue) w
    (upload_loop h total (length queue) 0 queue scheds w).
Proof.
  intros lo.
  pose (Inv := fun (i : nat) (w' : World) =>
    (completed w' + length (failed w') = lo + (i `min` length queue))%nat
    /\ progress_within total lo (lo + length queue) w w').
  destruct (upload_loop_invariant h total queue Inv) with
    (fuel := length queue) (i := 0%nat) (scheds := scheds) (w := w)
    as (j & Hj & _ & HI); unfold Inv in *; [| lia | | exact HI].
  - intros i w1 sched Hi [Hc Hpw].
    set (batch := take CONCURRENCY (drop i queue)).
    assert (Hb : length (launch batch)
                 = ((i + CONCURRENCY) `min` length queue - i)%nat).
    { unfold launch, batch. rewrite length_fmap, length_take, length_drop.
      lia. }
    destruct (window_progress h total (window_fuel batch) lo
                (lo + length queue) sched (launch batch) w
                (emit (Called <$> batch) w1)) as [Hpw' Hacc].
    + rewrite weight_launch. lia.
    + cbn [completed failed emit]. lia.
    + cbn [completed failed emit]. rewrite Hb. lia.
    + apply progress_within_emit; [| |done].
      * intros d t Hd. apply list_elem_of_fmap in Hd as (it & Hd & _).
        discriminate.
      * intros Hd. apply list_elem_of_fmap in Hd as (it & Hd & _).
        discriminate.
    + split; [|exact Hpw'].
      rewrite Hacc. cbn [completed failed emit]. rewrite Hb. lia.
  - split; [simpl; lia|]. split; auto.
Qed.

Lemma outside_units_no_progress (es : list event) :
  Forall outside_units es ->
  (forall d t, ProgressLine d t ∉ es) /\ NewLine ∉ es.
Proof.
  induction 1 as [|e es He _ [Hp Hn]].
  - split; intros; apply not_elem_of_nil.
  - split.
    + intros d t Hd. apply elem_of_cons in Hd as [<- | Hd]; [done|].
      by apply Hp in Hd.
    + intros Hd. apply elem_of_cons in Hd as [<- | Hd]; [done|].
      by apply Hn in Hd.
Qed.

Lemma progress_within_from (total lo hi : nat) (w0 w : World)
    (es : list event) :
  Forall outside_units es ->
  progress_within total lo hi (emit es w0) w ->
  progress_within total lo hi w0 w.
Proof.
  intros Hes [H1 H2]. destruct (outside_units_no_progress es Hes) as [Hp Hn].
  split.
  - intros d t Hd. destruct (H1 d t Hd) as [H | H]; [|auto].
    rewrite emit_log in H. apply elem_of_app in H as [H | H]; [auto|].
    by apply Hp in H.
  - intros Hnl. destruct (H2 Hnl) as [H | H]; [|auto].
    rewrite emit_log in H. apply elem_of_app in H as [H | H]; [auto|done].
Qed.

Lemma progress_within_refl (total lo hi : nat) (w : World) :
  progress_within total lo hi w w.
Proof. split; auto. Qed.

(** The progress lines of a batch count the outcomes from 1 to the length
    of the queue against the number of files found. *)
Lemma upload_pending_progress (h : Host) (scheds : list (list nat))
    (allFiles : list string) (counter : N) (pending : list PendingPhoto)
    (w : World) :
  completed w = 0%nat -> failed w = [] ->
  progress_within (length allFiles) 0 (length pending) w
    (upload_pending h scheds allFiles counter pending w).2.
Proof.
  intros Hc Hf. unfold upload_pending.
  destruct pending as [|p0 pending].
  { cbn [snd]. apply progress_within_emit.
    - intros d t Hd. apply list_elem_of_singleton in Hd. discriminate.
    - intros Hd. apply list_elem_of_singleton in Hd. discriminate.
    - apply progress_within_refl. }
  set (queue := uploadQueue counter (p0 :: pending)).
  set (es := [LoggedFound (length allFiles);
              LoggedStartingFrom (img_id counter)]).
  assert (Hes : Forall outside_units es) by (by repeat constructor).
  set (w4 := upload_loop h (length allFiles) (length queue) 0 queue scheds
               (emit es w)).
  assert (Hloop : progress_within (length allFiles) 0
                    (length (p0 :: pending)) w w4).
  { apply (progress_within_from _ _ _ _ _ es Hes).
    pose proof (loop_progress h (length allFiles) queue scheds (emit es w))
      as H.
    cbv zeta in H.
    change (completed (emit es w)) with (completed w) in H.
    change (failed (emit es w)) with (failed w) in H.
    rewrite Hc, Hf in H.
    replace (length (p0 :: pending)) with (length queue)
      by (unfold queue, uploadQueue; apply length_imap).
    exact H. }
  destruct (0 <? _)%nat; cbn [snd]; [exact Hloop|].
  apply progress_within_emit; [| |exact Hloop].
  - intros d t Hd. apply list_elem_of_singleton in Hd. discriminate.
  - intros Hd. apply list_elem_of_singleton in Hd. discriminate.
Qed.

Lemma length_List_filter {A : Type} (f : A -> bool) (l : list A) :
  (length (List.filter f l) <= length l)%nat.
Proof.
  induction l as [|x l IH]; simpl; [done|]. destruct (f x); simpl; lia.
Qed.

(** The total of the progress lines is the number of files found, while
    the counts stop at the number of files that passed deduplication: the
    newline that ends the progress line needs every file to have passed. *)
Lemma upload_files_progress (h : Host) (scheds : list (list nat))
    (allFiles : list string) (w : World) :
  completed w = 0%nat -> failed w = [] ->
  let survivors := List.filter (fresh h (store w)) allFiles in
  let r := upload_files h scheds allFiles w in
  (length survivors <= length allFiles)%nat
  /\ (forall d t, ProgressLine d t ∈ log r.2 ->
        ProgressLine d t ∈ log w
        \/ (t = length allFiles /\ 0 < d <= length survivors)%nat)
  /\ (NewLine ∈ log r.2 ->
      NewLine ∈ log w \/ length survivors = length allFiles).
Proof.
  intros Hc Hf. cbv zeta.
  pose proof (length_List_filter (fresh h (store w)) allFiles) as Hle.
  split; [exact Hle|].
  assert (Hpw : progress_within (length allFiles) 0
                  (length (List.filter (fresh h (store w)) allFiles)) w
                  (upload_files h scheds allFiles w).2).
  { unfold upload_files.
    destruct (collect_emits h allFiles w) as (es & He & Hes).
    destruct allFiles as [|f fs].
    { cbn [snd]. apply progress_within_emit.
      - intros d t Hd. apply list_elem_of_singleton in Hd. discriminate.
      - intros Hd. apply list_elem_of_singleton in Hd. discriminate.
      - apply progress_within_refl. }
    destruct (collect_pending h (f :: fs) w) as [[pending|msg] w2] eqn:Hcol;
      cbn [snd] in He; subst w2.
    - apply collect_pending_spec in Hcol as (Hp & _ & _).
      rewrite <- Hp, length_fmap.
      apply (progress_within_from _ _ _ _ _ es Hes).
      by apply upload_pending_progress.
    - cbn [snd]. destruct (outside_units_no_progress es Hes).
      apply progress_within_emit; [done|done|apply progress_within_refl]. }
  destruct Hpw as [H1 H2]. split; [exact H1|].
  intros Hnl. destruct (H2 Hnl) as [H | H]; [auto|]. right. lia.
Qed.

(** C4 fails on the code: [renderProgress] is called with the number of
    files found, not with the number left after deduplication.  With one
    of three files skipped before assignment the two units report 1/3 and
    2/3, and the newline that marks the end is never written. *)
Theorem progress_total_counts_skipped :
  let r := uploadPhotos example_host "list.txt" [] store_with_third ∅ in
  r.1 = Resolved
  /\ length (plan example_host "list.txt" store_with_third) = 2%nat
  /\ completed r.2 = 2%nat /\ failed r.2 = []
  /\ progress_events (log r.2) = [ProgressLine 1 3; ProgressLine 2 3].
Proof. vm_compute. auto 10. Qed.

(** ** File names *)

Lemma lowercase_app (a b : string) :
  Str.lowercase (a ++ b) = Str.lowercase a ++ Str.lowercase b.
Proof. induction a as [|c a IH]; simpl; [reflexivity|]. by rewrite IH. Qed.

Lemma lowercase_split (s pre suf : string) :
  Str.lowercase s = pre ++ suf ->
  exists a b, s = a ++ b /\ Str.lowercase a = pre /\ Str.lowercase b = suf.
Proof.
  revert s. induction pre as [|c pre IH]; intros s H.
  - exists "", s. auto.
  - destruct s as [|x s]; [discriminate|]. simpl in H.
    injection H as Hc Hs. destruct (IH s Hs) as (a & b & -> & Ha & Hb).
    exists (String x a), b. simpl. by rewrite Hc, Ha.
Qed.

Lemma drop_app_length (a b : string) : Str.drop (String.length a) (a ++ b) = b.
Proof. induction a as [|c a IH]; simpl; [by destruct b|exact IH]. Qed.

Lemma drop_split (n : nat) (s : string) :
  (n <= String.length s)%nat ->
  exists pre, s = pre ++ Str.drop n s /\ String.length pre = n.
Proof.
  revert s. induction n as [|n IH]; intros s Hn.
  - exists "". by destruct s.
  - destruct s as [|c s]; [simpl in Hn; lia|]. simpl in Hn.
    destruct (IH s) as (pre & Hs & Hl); [lia|].
    exists (String c pre). split; [|simpl; by rewrite Hl].
    cbn [Str.drop]. change (String c pre ++ Str.drop n s)
      with (String c (pre ++ Str.drop n s)). by rewrite <- Hs.
Qed.

Lemma length_append (a b : string) :
  String.length (a ++ b) = (String.length a + String.length b)%nat.
Proof. induction a as [|c a IH]; simpl; [reflexivity|]. by rewrite IH. Qed.

Lemma ends_with_iff (suf s : string) :
  Str.ends_with suf s = true <-> exists pre, s = pre ++ suf.
Proof.
  unfold Str.ends_with. rewrite andb_true_iff, Nat.leb_le, String.eqb_eq.
  split.
  - intros [Hle Heq].
    destruct (drop_split (String.length s - String.length suf) s)
      as (pre & Hs & _); [lia|].
    exists pre. rewrite Heq in Hs. exact Hs.
  - intros [pre ->]. rewrite length_append. split; [lia|].
    replace (String.length pre + String.length suf - String.length suf)%nat
      with (String.length pre) by lia.
    apply drop_app_length.
Qed.

Lemma lower_dot (c : ascii) : Str.lower c = "."%char -> c = "."%char.
Proof.
  destruct c as [[] [] [] [] [] [] [] []]; vm_compute; congruence.
Qed.

Lemma lowercase_dotted (b ext : string) :
  Str.lowercase b = "." ++ ext ->
  exists e, b = "." ++ e /\ Str.lowercase e = ext.
Proof.
  destruct b as [|c b]; [discriminate|]. simpl. intros [= Hc Hb].
  apply lower_dot in Hc as ->. eauto.
Qed.

Lemma ends_with_extension (ext file : string) :
  Str.ends_with ("." ++ ext) (Str.lowercase file) = true
  <-> exists stem e, file = stem ++ "." ++ e /\ Str.lowercase e = ext.
Proof.
  rewrite ends_with_iff. split.
  - intros [pre H]. apply lowercase_split in H as (a & b & -> & _ & Hb).
    apply lowercase_dotted in Hb as (e & -> & He). eauto.
  - intros (stem & e & -> & <-). exists (Str.lowercase stem).
    by rewrite !lowercase_app.
Qed.

(** X1: [isImage] accepts exactly the names that end in a dot and one of
    the four extensions, in any mix of upper and lower case. *)
Theorem isImage_extension (file : string) :
  isImage file = true
  <-> exists stem ext,
        file = stem ++ "." ++ ext /\ Str.lowercase ext ∈ extensions.
Proof.
  unfold isImage, extensions. cbv zeta.
  rewrite !orb_true_iff.
  change ".jpg" with ("." ++ "jpg"). change ".jpeg" with ("." ++ "jpeg").
  change ".png" with ("." ++ "png"). change ".webp" with ("." ++ "webp").
  rewrite !ends_with_extension. split.
  - intros [[[H|H]|H]|H]; destruct H as (stem & e & -> & He);
      exists stem, e; (split; [reflexivity|]); rewrite He;
      repeat (first [apply list_elem_of_here | apply list_elem_of_further]).
  - intros (stem & e & -> & He).
    repeat (apply elem_of_cons in He as [He|He]);
      [| | | | by apply elem_of_nil in He]; eauto 10.
Qed.

(** ** Padded numerals and their order *)

Lemma parse_acc_shift (s : string) (acc : N) :
  Str.parse_acc acc s = acc * 10 ^ N.of_nat (String.length s) + Str.parse_acc 0 s.
Proof.
  revert acc. induction s as [|c s IH]; intros acc.
  - simpl. lia.
  - cbn [Str.parse_acc String.length]. rewrite IH.
    rewrite (IH (10 * 0 + _)). rewrite Nat2N.inj_succ, N.pow_succ_r'. lia.
Qed.

Lemma digit_value (c : ascii) :
  Str.is_digit c = true -> N_of_ascii c - 48 <= 9 /\ 48 <= N_of_ascii c.
Proof.
  unfold Str.is_digit. rewrite andb_true_iff, !N.leb_le. lia.
Qed.

Lemma parseInt_bound (s : string) :
  Str.all_digits s = true -> Str.parseInt s < 10 ^ N.of_nat (String.length s).
Proof.
  unfold Str.parseInt. induction s as [|c s IH]; [simpl; lia|].
  cbn [Str.all_digits Str.parse_acc String.length].
  rewrite andb_true_iff. intros [Hc Hs]. specialize (IH Hs).
  apply digit_value in Hc as [Hc _].
  rewrite parse_acc_shift, Nat2N.inj_succ, N.pow_succ_r'.
  set (P := 10 ^ N.of_nat (String.length s)) in *. nia.
Qed.

Lemma digits_compare (a b : string) :
  Str.all_digits a = true -> Str.all_digits b = true ->
  String.length a = String.length b ->
  String.compare a b = N.compare (Str.parseInt a) (Str.parseInt b).
Proof.
  unfold Str.parseInt. revert b.
  induction a as [|c a IH]; intros [|d b]; try discriminate; [reflexivity|].
  cbn [Str.all_digits String.length String.compare Str.parse_acc].
  rewrite !andb_true_iff. intros [Hc Ha] [Hd Hb] [= Hl].
  pose proof (parseInt_bound a Ha) as Ba. pose proof (parseInt_bound b Hb) as Bb.
  unfold Str.parseInt in Ba, Bb.
  apply digit_value in Hc as [Hc Hc'], Hd as [Hd Hd'].
  rewrite (parse_acc_shift a), (parse_acc_shift b), <- Hl.
  rewrite <- Hl in Bb.
  set (P := 10 ^ N.of_nat (String.length a)) in *.
  unfold Ascii.compare.
  destruct (N.compare_spec (N_of_ascii c) (N_of_ascii d)) as [He|Hlt|Hgt].
  - rewrite He, (IH b Ha Hb Hl).
    destruct (N.compare_spec (Str.parse_acc 0 a) (Str.parse_acc 0 b));
      symmetry; [apply N.compare_eq_iff|apply N.compare_lt_iff
                |apply N.compare_gt_iff]; lia.
  - symmetry. apply N.compare_lt_iff. nia.
  - symmetry. apply N.compare_gt_iff. nia.
Qed.

Lemma length_string_of_uint (d : Decimal.uint) :
  String.length (NilEmpty.string_of_uint d) = Decimal.nb_digits d.
Proof. induction d; simpl; congruence. Qed.

Lemma uint_value_lower (d : Decimal.uint) (acc : N) :
  acc * 10 ^ N.of_nat (Decimal.nb_digits d) <= uint_value acc d.
Proof.
  revert acc. induction d; intros acc; cbn [uint_value Decimal.nb_digits];
    [simpl; lia|..];
    (etransitivity; [|apply IHd]);
    rewrite Nat2N.inj_succ, N.pow_succ_r'; nia.
Qed.

(** A numeral without a leading zero is at least the power of ten of
    its length. *)
Lemma canonical_lower (d : Decimal.uint) :
  Decimal.unorm d = d -> d <> Decimal.zero ->
  10 ^ N.of_nat (Decimal.nb_digits d) <= 10 * uint_value 0 d.
Proof.
  intros Hn Hz.
  assert (Hh : forall d', d <> Decimal.D0 d').
  { intros d' ->. unfold Decimal.unorm in Hn.
    destruct (Decimal.nzhead (Decimal.D0 d')) eqn:E; try discriminate Hn.
    - by apply Hz.
    - by apply DecimalFacts.nzhead_nonzero in E. }
  destruct d; cbn [uint_value Decimal.nb_digits];
    [discriminate Hn | by exfalso; eapply Hh |..];
    (etransitivity; [|apply N.mul_le_mono_l, uint_value_lower]);
    rewrite Nat2N.inj_succ, N.pow_succ_r'; nia.
Qed.

Lemma length_ofN (n : N) (k : nat) :
  n < 10 ^ N.of_nat k -> (0 < k)%nat -> (String.length (Str.ofN n) <= k)%nat.
Proof.
  intros Hn Hk. unfold Str.ofN. rewrite length_string_of_uint.
  destruct n as [|p]; [simpl; lia|].
  assert (Hz : N.to_uint (N.pos p) <> Decimal.zero)
    by apply DecimalPos.Unsigned.to_uint_nonzero.
  set (n := N.pos p) in *.
  pose proof (canonical_lower (N.to_uint n)) as H.
  rewrite <- (DecimalN.Unsigned.to_of (N.to_uint n)) in H at 1.
  rewrite DecimalN.Unsigned.of_to in H. specialize (H eq_refl Hz).
  rewrite uint_value_0, DecimalN.Unsigned.of_to in H.
  destruct (decide (Decimal.nb_digits (N.to_uint n) <= k)%nat) as [|Hgt];
    [assumption|exfalso].
  assert (10 ^ N.of_nat (S k) <= 10 ^ N.of_nat (Decimal.nb_digits (N.to_uint n))).
  { apply N.pow_le_mono_r; lia. }
  rewrite Nat2N.inj_succ, N.pow_succ_r' in H0. lia.
Qed.

Lemma length_repeat_char (c : ascii) (n : nat) : String.length (Str.repeat c n) = n.
Proof. induction n; simpl; congruence. Qed.

Lemma length_pad (n : N) : n < 10000 -> String.length (pad n) = 4%nat.
Proof.
  intros Hn. unfold pad, Str.padStart.
  rewrite length_append, length_repeat_char.
  pose proof (length_ofN n 4 Hn). lia.
Qed.

Lemma compare_prefixed (p a b : string) :
  String.compare (p ++ a) (p ++ b) = String.compare a b.
Proof.
  induction p as [|c p IH]; [reflexivity|].
  change (String c p ++ a) with (String c (p ++ a)).
  change (String c p ++ b) with (String c (p ++ b)).
  cbn [String.compare]. unfold Ascii.compare. by rewrite N.compare_refl.
Qed.

Lemma img_id_compare (n m : N) :
  n < 10000 -> m < 10000 ->
  String.compare (img_id n) (img_id m) = N.compare n m.
Proof.
  intros Hn Hm. unfold img_id. rewrite compare_prefixed.
  rewrite digits_compare, !parseInt_pad; auto using pad_digits.
  by rewrite !length_pad.
Qed.

Lemma img_id_le (n m : N) :
  n < 10000 -> m < 10000 -> (str_le (img_id n) (img_id m) <-> n <= m).
Proof.
  intros Hn Hm. rewrite str_le_iff, img_id_compare by assumption.
  rewrite N.compare_lt_iff. split.
  - intros [H|H]; [lia|]. apply img_id_inj in H. lia.
  - intros H. destruct (decide (n = m)) as [->|]; [by right|left; lia].
Qed.

(** X2: identifiers below ten thousand have eight characters and are
    ordered as their numbers are. *)
Theorem img_id_order (n m : N) :
  n < 10000 -> m < 10000 ->
  String.length (img_id n) = 8%nat
  /\ (str_le (img_id n) (img_id m) <-> n <= m).
Proof.
  intros Hn Hm. split; [|by apply img_id_le].
  unfold img_id. rewrite length_append, length_pad by assumption. reflexivity.
Qed.

Lemma img_id_order_witness :
  String.length (img_id 7) = 8%nat
  /\ (str_le (img_id 7) (img_id 10) <-> 7 <= 10).
Proof. exact (img_id_order 7 10 eq_refl eq_refl). Defined.

Lemma last_title_None (ts : list string) :
  foldr later_title None ts = None -> ts = [].
Proof.
  destruct ts as [|t ts]; [reflexivity|]. simpl.
  destruct (foldr later_title None ts); discriminate.
Qed.

Lemma numbered_below_next (st : Store) (n : N) :
  numbered st -> img_id n ∈ titles st -> n < getNextImageNumber st.
Proof.
  intros Hnum Hn.
  destruct (last_title st) as [t|] eqn:Hl; unfold last_title in Hl.
  - apply later_title_greatest in Hl as [Hin Hmax].
    destruct (Hnum t Hin) as (M & HM & ->).
    assert (Hnext : getNextImageNumber st = M + 1).
    { apply getNextImageNumber_seed. apply seed_next with (t := img_id M).
      - by split.
      - apply id_number_img_id. }
    destruct (Hnum _ Hn) as (n' & Hn' & Heq).
    apply img_id_inj in Heq as <-.
    apply Hmax in Hn. apply img_id_le in Hn; [lia|assumption..].
  - apply last_title_None in Hl. rewrite Hl in Hn.
    by apply elem_of_nil in Hn.
Qed.

(** X3: in a store whose titles are all padded identifiers below ten
    thousand the next number is one more than the greatest number in use,
    so it is above every number in use. *)
Theorem next_number_is_new (st : Store) :
  numbered st ->
  (forall n, img_id n ∈ titles st -> n < getNextImageNumber st)
  /\ (titles st <> [] ->
      exists n, img_id n ∈ titles st /\ getNextImageNumber st = n + 1)
  /\ (titles st = [] -> getNextImageNumber st = 0).
Proof.
  intros Hnum. split; [intros n; by apply numbered_below_next|].
  destruct (last_title st) as [t|] eqn:Hl; unfold last_title in Hl.
  - apply later_title_greatest in Hl as Hg. destruct Hg as [Hin Hmax].
    destruct (Hnum t Hin) as (M & HM & ->). split.
    + intros _. exists M. split; [exact Hin|].
      apply getNextImageNumber_seed. apply seed_next with (t := img_id M).
      * by split.
      * apply id_number_img_id.
    + intros Hnil. rewrite Hnil in Hin. by apply elem_of_nil in Hin.
  - apply last_title_None in Hl. split; [congruence|].
    intros _. unfold getNextImageNumber, last_title. by rewrite Hl.
Qed.

Lemma store_0007_numbered : numbered store_0007.
Proof.
  intros t Ht. assert (Hts : titles store_0007 = ["IMG-0007"])
    by (vm_compute; reflexivity).
  rewrite Hts in Ht. apply list_elem_of_singleton in Ht as ->.
  exists 7. split; reflexivity.
Qed.

Lemma next_number_is_new_witness :
  (forall n, img_id n ∈ titles store_0007 -> n < getNextImageNumber store_0007)
  /\ (titles store_0007 <> [] ->
      exists n, img_id n ∈ titles store_0007
                /\ getNextImageNumber store_0007 = n + 1)
  /\ (titles store_0007 = [] -> getNextImageNumber store_0007 = 0).
Proof. exact (next_number_is_new store_0007 store_0007_numbered). Defined.

(** ** What a run keeps of the store *)

Lemma hashExists_iff (st : Store) (hs : string) :
  hashExists st hs = true <-> exists doc r, st !! doc = Some r /\ hash r = hs.
Proof.
  unfold hashExists, records. rewrite existsb_exists. split.
  - intros (r & Hin & Heq). apply String.eqb_eq in Heq.
    apply list_elem_of_In, list_elem_of_fmap in Hin as ([doc r'] & -> & Hin).
    apply elem_of_map_to_list in Hin. eauto.
  - intros (doc & r & Hl & Heq). exists r. split; [|by apply String.eqb_eq].
    apply list_elem_of_In, list_elem_of_fmap. exists (doc, r).
    split; [reflexivity|]. by apply elem_of_map_to_list.
Qed.

Section Records.

Context (h : Host) (total : nat) (st0 : Store).
Context (queue rest : list QueueItem).
Hypothesis queue_ids : NoDup (id <$> queue).
Hypothesis queue_fresh :
  forall it, it ∈ queue -> hashExists st0 (q_hash it) = false.

Lemma lookup_delete_other {A : Type} (l : list A) (k j : nat) (x : A) :
  l !! j = Some x -> j <> k -> exists j', delete k l !! j' = Some x.
Proof.
  intros Hj Hne. destruct (decide (j < k)%nat).
  - exists j. by rewrite list_lookup_delete_lt.
  - exists (pred j). rewrite list_lookup_delete_ge by lia.
    replace (S (pred j)) with j by lia. exact Hj.
Qed.

Lemma kept_resumed us w k it p p' w' :
  us !! k = Some (it, p) -> step h total it p w (Some p') w' ->
  kept st0 queue rest us w -> kept st0 queue rest (<[k := (it, p')]> us) w'.
Proof.
  intros Hk Hs (Hframe & Hfrom & Hdom & Hall & Hin).
  assert (Hst : store w' = store w) by (step_cases Hs; reflexivity).
  assert (Hfl : failed w' = failed w) by (step_cases Hs; reflexivity).
  unfold kept. rewrite Hst, Hfl. split; [done|]. split; [done|]. split; [done|].
  split.
  - intros it0 Hit0.
    destruct (Hall it0 Hit0) as [(j & q & Hj) | H]; [left | by right].
    destruct (decide (j = k)) as [->|Hne].
    + rewrite Hk in Hj. injection Hj as -> ->. exists k, p'.
      apply list_lookup_insert_eq. by eapply lookup_lt_Some.
    + exists j, q. by rewrite list_lookup_insert_ne.
  - intros j it0 q Hj. apply list_lookup_insert_Some in Hj.
    destruct Hj as [(-> & [= <- <-] & _) | (Hne & Hj)]; eauto.
Qed.

Lemma recorded_insert (it x : QueueItem) (r : PhotoRecord) (w : World) :
  (forall doc r0, store w !! doc = Some r0 ->
     st0 !! doc = Some r0
     \/ exists it2, it2 ∈ queue /\ doc = id it2 /\ hash r0 = q_hash it2
                     /\ title r0 = doc /\ featured r0 = false) ->
  it ∈ queue -> x ∈ queue -> hash r = q_hash x ->
  recorded queue it (store w) ->
  recorded queue it (<[id x := r]> (store w)).
Proof.
  intros Hfrom Hit Hx Hr (it' & Hit' & Hrec).
  exists it'. split; [exact Hit'|].
  destruct (decide (id it' = id x)) as [Heq|Hne].
  - rewrite Heq, lookup_insert_eq. simpl. f_equal. rewrite Hr.
    rewrite Heq in Hrec.
    destruct (store w !! id x) as [r0|] eqn:Hr0; [|discriminate].
    injection Hrec as Hh.
    destruct (Hfrom _ _ Hr0) as [H0 | (it2 & Hit2 & Hid & Hh2 & _)].
    + exfalso. pose proof (queue_fresh it Hit) as Hf.
      assert (hashExists st0 (q_hash it) = true); [|congruence].
      apply hashExists_iff. eauto.
    + assert (it2 = x) by (apply (unique_by_id queue); auto). subst it2.
      congruence.
  - by rewrite lookup_insert_ne.
Qed.

Lemma kept_settled us w k it p w' :
  us !! k = Some (it, p) -> step h total it p w None w' ->
  kept st0 queue rest us w -> kept st0 queue rest (delete k us) w'.
Proof.
  intros Hk Hs (Hframe & Hfrom & Hdom & Hall & Hin).
  pose proof (Hin k it p Hk) as Hq.
  assert (Hothers : forall it0, it0 ∈ queue ->
    it0 = it \/ (exists j q, delete k us !! j = Some (it0, q))
    \/ it0 ∈ rest \/ id it0 ∈ failed w \/ recorded queue it0 (store w)).
  { intros it0 Hit0.
    destruct (Hall it0 Hit0) as [(j & q & Hj) | H]; [|by auto].
    destruct (decide (j = k)) as [->|Hne].
    - rewrite Hk in Hj. injection Hj as -> ->. by left.
    - right; left. destruct (lookup_delete_other us k j _ Hj Hne) as [j' Hj'].
      eauto. }
  assert (Hin' : forall j it0 q, delete k us !! j = Some (it0, q) ->
            it0 ∈ queue).
  { intros j it0 q Hj. apply lookup_delete_inv in Hj as [j' Hj']. eauto. }
  unfold kept. step_cases Hs.
  - (* a duplicate found by the check of the unit *)
    split; [done|]. split; [done|]. split; [done|]. split; [|done].
    intros it0 Hit0.
    destruct (Hothers it0 Hit0) as [-> | Hc]; [|by auto].
    right; right; right.
    match goal with
    | Hdup : hashExists _ _ = true |- _ =>
        apply hashExists_iff in Hdup as (doc & r & Hl & Hh)
    end.
    destruct (Hfrom _ _ Hl) as [H0 | (it2 & Hit2 & -> & Hh2 & _)].
    + exfalso. pose proof (queue_fresh it Hq) as Hf.
      assert (hashExists st0 (q_hash it) = true); [|congruence].
      apply hashExists_iff. eauto.
    + exists it2. split; [exact Hit2|]. simpl. rewrite Hl. simpl. congruence.
  - (* the EXIF read failed *)
    split; [done|]. split; [done|]. split; [done|]. split; [|done].
    intros it0 Hit0.
    destruct (Hothers it0 Hit0)
      as [-> | [Hc | [Hc | [Hc | Hc]]]]; auto.
    + right; right; left. simpl. apply elem_of_app. right.
      by apply list_elem_of_singleton.
    + right; right; left. simpl. apply elem_of_app. by left.
  - (* the upload failed *)
    split; [done|]. split; [done|]. split; [done|]. split; [|done].
    intros it0 Hit0.
    destruct (Hothers it0 Hit0)
      as [-> | [Hc | [Hc | [Hc | Hc]]]]; auto.
    + right; right; left. simpl. apply elem_of_app. right.
      by apply list_elem_of_singleton.
    + right; right; left. simpl. apply elem_of_app. by left.
  - (* the write failed *)
    split; [done|]. split; [done|]. split; [done|]. split; [|done].
    intros it0 Hit0.
    destruct (Hothers it0 Hit0)
      as [-> | [Hc | [Hc | [Hc | Hc]]]]; auto.
    + right; right; left. simpl. apply elem_of_app. right.
      by apply list_elem_of_singleton.
    + right; right; left. simpl. apply elem_of_app. by left.
  - (* the document is written *)
    split; [|split; [|split; [|split; [|done]]]].
    + intros doc Hdoc. rewrite lookup_insert_ne; [by apply Hframe|].
      intros <-. apply Hdoc. apply list_elem_of_fmap. eauto.
    + intros doc r Hl. apply lookup_insert_Some in Hl.
      destruct Hl as [[<- <-] | [Hne Hl]]; [|by apply Hfrom].
      right. exists it. repeat split; auto.
    + intros doc Hd. destruct (decide (id it = doc)) as [<-|Hne].
      * rewrite lookup_insert_eq. eauto.
      * rewrite lookup_insert_ne by done. by apply Hdom.
    + intros it0 Hit0.
      destruct (Hothers it0 Hit0)
        as [-> | [Hc | [Hc | [Hc | Hc]]]]; auto.
      * right; right; right. exists it. split; [exact Hq|].
        by rewrite lookup_insert_eq.
      * right; right; right.
        apply (recorded_insert it0 it _ w); auto.
Qed.

End Records.

Lemma kept_emit (st0 : Store) (queue rest : list QueueItem)
    (us : list (QueueItem * phase)) (es : list event) (w : World) :
  kept st0 queue rest us w -> kept st0 queue rest us (emit es w).
Proof. intros H. exact H. Qed.

Lemma loop_kept (h : Host) (total : nat) (queue : list QueueItem)
    (scheds : list (list nat)) (w : World) :
  NoDup (id <$> queue) ->
  (forall it, it ∈ queue -> hashExists (store w) (q_hash it) = false) ->
  kept (store w) queue [] []
    (upload_loop h total (length queue) 0 queue scheds w).
Proof.
  intros Hnd Hfresh.
  pose (Inv := fun (i : nat) (w' : World) =>
    kept (store w) queue (drop i queue) [] w').
  destruct (upload_loop_invariant h total queue Inv) with
    (fuel := length queue) (i := 0%nat) (scheds := scheds) (w := w)
    as (j & Hj & HI); unfold Inv in *.
  - intros i w1 sched Hi HI.
    set (batch := take CONCURRENCY (drop i queue)).
    set (rest := drop (i + CONCURRENCY) queue).
    assert (Hsplit : (batch ++ rest)%list = drop i queue)
      by apply window_split.
    apply run_window_invariant with (Inv := kept (store w) queue rest).
    + intros; eapply kept_resumed; eassumption.
    + intros; eapply kept_settled; eassumption.
    + rewrite weight_launch. lia.
    + apply kept_emit.
      destruct HI as (Hframe & Hfrom & Hdom & Hall & _).
      split; [done|]. split; [done|]. split; [done|]. split.
      * intros it Hit.
        destruct (Hall it Hit) as [(j & p & Hj) | [Hr | Hc]];
          [by rewrite lookup_nil in Hj | | by auto].
        rewrite <- Hsplit in Hr. apply elem_of_app in Hr as [Hb | Hr];
          [left | by auto].
        apply list_elem_of_lookup in Hb as [j Hj].
        exists j, AwaitHashExists. unfold launch.
        by rewrite list_lookup_fmap, Hj.
      * intros j it p Hj. apply launch_lookup in Hj as [Hj _].
        apply list_elem_of_lookup_2 in Hj.
        apply (elem_of_drop _ i). rewrite <- Hsplit.
        apply elem_of_app. by left.
  - lia.
  - split; [done|]. split; [by auto|]. split; [done|]. split.
    + intros it Hit. right; left. by rewrite drop_0.
    + intros j it p Hj. by rewrite lookup_nil in Hj.
  - rewrite drop_ge in HI by lia. exact HI.
Qed.

Lemma upload_pending_kept (h : Host) (scheds : list (list nat))
    (allFiles : list string) (counter : N) (pending : list PendingPhoto)
    (w : World) :
  let queue := uploadQueue counter pending in
  (forall it, it ∈ queue -> hashExists (store w) (q_hash it) = false) ->
  kept (store w) queue [] []
    (upload_pending h scheds allFiles counter pending w).2.
Proof.
  intros queue Hfresh. unfold upload_pending.
  destruct pending as [|p0 pending].
  { simpl. split; [done|]. split; [by auto|]. split; [done|].
    split; intros ? Hx; [by apply elem_of_nil in Hx|].
    intros ? Hj. by rewrite lookup_nil in Hj. }
  fold queue.
  set (w3 := emit [LoggedFound (length allFiles);
                   LoggedStartingFrom (img_id counter)] w).
  assert (Hk : kept (store w) queue [] []
            (upload_loop h (length allFiles) (length queue) 0 queue scheds w3)).
  { apply (loop_kept h (length allFiles) queue scheds w3); [|exact Hfresh].
    apply uploadQueue_ids_unique. }
  destruct (0 <? length (failed _))%nat; cbn [snd]; [exact Hk|].
  by apply kept_emit.
Qed.

Lemma uploadPhotos_kept (h : Host) (listFile : string)
    (scheds : list (list nat)) (st : Store) (a : Assets) :
  kept st (plan h listFile st) [] [] (uploadPhotos h listFile scheds st a).2.
Proof.
  destruct (uploadPhotos_plan h listFile scheds st a)
    as (es & Hes & [[Hp ->] | (allFiles & pending & Hp & ->)]).
  - rewrite Hp. split; [done|]. split; [by auto|]. split; [done|].
    split; intros ? Hx; [by apply elem_of_nil in Hx|].
    intros ? Hj. by rewrite lookup_nil in Hj.
  - rewrite Hp.
    apply (upload_pending_kept h scheds allFiles (getNextImageNumber st)
             pending (emit es (start st a))).
    intros it Hit. destruct (plan_paths h listFile st) as (files & _ & Hall).
    rewrite Hp in Hall. rewrite Forall_forall in Hall.
    by destruct (Hall it Hit).
Qed.

Lemma uploadPhotos_resolved (h : Host) (listFile : string)
    (scheds : list (list nat)) (st : Store) (a : Assets) :
  (uploadPhotos h listFile scheds st a).1 = Resolved ->
  failed (uploadPhotos h listFile scheds st a).2 = [].
Proof.
  destruct (uploadPhotos_plan h listFile scheds st a)
    as (es & Hes & [[Hp ->] | (allFiles & pending & Hp & ->)]);
    [reflexivity|].
  intros Hr.
  destruct (upload_pending_summary h scheds allFiles (getNextImageNumber st)
              pending (emit es (start st a)) eq_refl)
    as (_ & _ & _ & _ & Hrej & _).
  cbv zeta in Hrej.
  match goal with
  | |- ?f = [] => destruct (decide (f = [])) as [|Hne]; [assumption|]
  end.
  rewrite (Hrej Hne) in Hr. discriminate.
Qed.

Lemma kept_subseteq (h : Host) (listFile : string)
    (scheds : list (list nat)) (st : Store) (a : Assets) :
  (forall it, it ∈ plan h listFile st -> st !! id it = None) ->
  st ⊆ store (uploadPhotos h listFile scheds st a).2.
Proof.
  intros Hnew. destruct (uploadPhotos_kept h listFile scheds st a)
    as (Hframe & _).
  apply map_subseteq_spec. intros doc rec Hl.
  rewrite Hframe; [exact Hl|].
  intros Hin. apply list_elem_of_fmap in Hin as (it & -> & Hit).
  rewrite (Hnew it Hit) in Hl. discriminate.
Qed.

Lemma resolved_recorded (h : Host) (listFile : string)
    (scheds : list (list nat)) (st : Store) (a : Assets) (it : QueueItem) :
  (uploadPhotos h listFile scheds st a).1 = Resolved ->
  it ∈ plan h listFile st ->
  hashExists (store (uploadPhotos h listFile scheds st a).2) (q_hash it)
  = true.
Proof.
  intros Hres Hit.
  destruct (uploadPhotos_kept h listFile scheds st a)
    as (_ & _ & _ & Hall & _).
  pose proof (uploadPhotos_resolved h listFile scheds st a Hres) as Hf.
  destruct (Hall it Hit) as [(j & p & Hj) | [Hr | [Hr | Hr]]].
  - by rewrite lookup_nil in Hj.
  - by apply elem_of_nil in Hr.
  - rewrite Hf in Hr. by apply elem_of_nil in Hr.
  - destruct Hr as (it' & _ & Hrec).
    destruct (store _ !! id it') as [rec|] eqn:Hl; [|discriminate].
    injection Hrec as Hh. apply hashExists_iff. eauto.
Qed.

(** X7: a run deletes no document and changes none but those it assigned
    an identifier to; every document it leaves was there before or was
    written under an assigned identifier with the hash of its file; when
    no assigned identifier was in use, the store it started from is part
    of the store it leaves. *)
Theorem upload_keeps_documents (h : Host) (listFile : string)
    (scheds : list (list nat)) (st : Store) (a : Assets) :
  let r := uploadPhotos h listFile scheds st a in
  (forall doc, doc ∉ id <$> plan h listFile st -> store r.2 !! doc = st !! doc)
  /\ (forall doc, is_Some (st !! doc) -> is_Some (store r.2 !! doc))
  /\ (forall doc rec, store r.2 !! doc = Some rec ->
        st !! doc = Some rec
        \/ exists it, it ∈ plan h listFile st /\ doc = id it
                      /\ hash rec = q_hash it
                      /\ title rec = doc /\ featured rec = false)
  /\ ((forall it, it ∈ plan h listFile st -> st !! id it = None) ->
      st ⊆ store r.2).
Proof.
  intros r. destruct (uploadPhotos_kept h listFile scheds st a)
    as (Hframe & Hfrom & Hdom & _). fold r in Hframe, Hfrom, Hdom.
  split; [exact Hframe|]. split; [exact Hdom|]. split; [exact Hfrom|].
  apply kept_subseteq.
Qed.

(** X8: when a run resolves, the content of every file it queued is on
    record: a document under an identifier of this run carries its
    hash. *)
Theorem resolved_run_records_queue (h : Host) (listFile : string)
    (scheds : list (list nat)) (st : Store) (a : Assets) (it : QueueItem) :
  (uploadPhotos h listFile scheds st a).1 = Resolved ->
  it ∈ plan h listFile st ->
  let r := uploadPhotos h listFile scheds st a in
  hashExists (store r.2) (q_hash it) = true
  /\ exists it', it' ∈ plan h listFile st
                 /\ hash <$> store r.2 !! id it' = Some (q_hash it).
Proof.
  intros Hres Hit r. split; [by apply resolved_recorded|].
  destruct (uploadPhotos_kept h listFile scheds st a)
    as (_ & _ & _ & Hall & _). fold r in Hall.
  pose proof (uploadPhotos_resolved h listFile scheds st a Hres) as Hf.
  fold r in Hf.
  destruct (Hall it Hit) as [(j & p & Hj) | [Hr | [Hr | Hr]]].
  - by rewrite lookup_nil in Hj.
  - by apply elem_of_nil in Hr.
  - rewrite Hf in Hr. by apply elem_of_nil in Hr.
  - exact Hr.
Qed.

(** ** Running the same upload again *)

Lemma hashExists_mono (st st' : Store) (hs : string) :
  st ⊆ st' -> hashExists st hs = true -> hashExists st' hs = true.
Proof.
  intros Hsub H. apply hashExists_iff in H as (doc & r & Hl & Hh).
  apply hashExists_iff. exists doc, r. split; [|exact Hh].
  eapply lookup_weaken; eassumption.
Qed.

Lemma collect_pending_total (h : Host) (files : list string) (w w' : World)
    (pending : list PendingPhoto) :
  collect_pending h files w = (Ok pending, w') ->
  forall f, f ∈ files ->
    exists hs, hashFile h f = Ok hs
      /\ (hashExists (store w) hs = true
          \/ {| filePath := f; p_hash := hs |} ∈ pending).
Proof.
  revert w w' pending. induction files as [|g files IH];
    intros w w' pending Hc f Hf; [by apply elem_of_nil in Hf|].
  cbn [collect_pending] in Hc.
  destruct (hashFile h g) as [hs|msg] eqn:Hh; [|discriminate].
  destruct (hashExists (store w) hs) eqn:He.
  - apply elem_of_cons in Hf as [->|Hf]; [eauto|].
    destruct (IH _ _ _ Hc f Hf) as (hs' & H1 & H2). eauto.
  - destruct (collect_pending h files w) as [[ps|msg] w1] eqn:Hrec;
      [|discriminate].
    injection Hc as <- <-.
    apply elem_of_cons in Hf as [->|Hf].
    + exists hs. split; [exact Hh|]. right. apply list_elem_of_here.
    + destruct (IH _ _ _ Hrec f Hf) as (hs' & H1 & [H2|H2]); eauto.
      exists hs'. split; [exact H1|]. right. by apply list_elem_of_further.
Qed.

Lemma collect_pending_known (h : Host) (files : list string) (w : World) :
  (forall f, f ∈ files ->
     exists hs, hashFile h f = Ok hs /\ hashExists (store w) hs = true) ->
  (collect_pending h files w).1 = Ok [].
Proof.
  revert w. induction files as [|g files IH]; intros w Hall; [reflexivity|].
  cbn [collect_pending].
  destruct (Hall g) as (hs & -> & He); [apply list_elem_of_here|].
  rewrite He. apply IH. intros f Hf. apply Hall. by apply list_elem_of_further.
Qed.

Lemma uploadQueue_of_pending (counter : N) (pending : list PendingPhoto)
    (p : PendingPhoto) :
  p ∈ pending ->
  exists it, it ∈ uploadQueue counter pending
             /\ q_filePath it = filePath p /\ q_hash it = p_hash p.
Proof.
  intros Hp. apply list_elem_of_lookup in Hp as [k Hk].
  pose proof (uploadQueue_lookup counter pending k p Hk) as Hq.
  eexists. split; [eapply list_elem_of_lookup_2; exact Hq|]. auto.
Qed.

Lemma uploadQueue_nil (counter : N) (pending : list PendingPhoto) :
  uploadQueue counter pending = [] -> pending = [].
Proof. destruct pending; [reflexivity|discriminate]. Qed.

Lemma scan_store (h : Host) (folders : list string) (w : World) :
  store (scan h folders w).2 = store w /\ assets (scan h folders w).2 = assets w.
Proof.
  destruct (scan_emits h folders w) as (es & -> & _). split; reflexivity.
Qed.

Lemma collect_store (h : Host) (files : list string) (w : World) :
  store (collect_pending h files w).2 = store w
  /\ assets (collect_pending h files w).2 = assets w.
Proof.
  destruct (collect_emits h files w) as (es & -> & _). split; reflexivity.
Qed.

Lemma scan_discovered (h : Host) (folders : list string) (w : World) :
  (scan h folders w).1 = (scan h folders (start ∅ ∅)).1.
Proof. apply scan_result. Qed.

Lemma collect_hashed (h : Host) (files : list string) (w : World) :
  (collect_pending h files w).1 = hashed h (store w) files.
Proof. unfold hashed. by apply collect_result. Qed.

Lemma plan_discovered (h : Host) (listFile : string) (st : Store) :
  plan h listFile st
  = match discovered h listFile with
    | Some allFiles =>
        match hashed h st allFiles with
        | Ok pending => uploadQueue (getNextImageNumber st) pending
        | Err _ => []
        end
    | None => []
    end.
Proof.
  unfold plan, discovered.
  destruct (existsSync h listFile); [|reflexivity].
  destruct (readFileSync h listFile) as [text|]; [|reflexivity].
  rewrite (scan_discovered h _ (start st _)).
  destruct (scan h (folders_of h text) _).1; [|reflexivity].
  by rewrite collect_hashed.
Qed.

(** The paths of a run: it is rejected before its files are known, or
    while hashing them, or it resolves because nothing is new, or it is
    the work of [upload_pending]; until then it has only written lines of
    its own. *)
Lemma uploadPhotos_run (h : Host) (listFile : string)
    (scheds : list (list nat)) (st : Store) (a : Assets) :
  let r := uploadPhotos h listFile scheds st a in
  exists es, Forall outside_units es
    /\ ((discovered h listFile = None
         /\ exists msg, r = (Rejected msg, emit es (start st a)))
        \/ exists allFiles,
             discovered h listFile = Some allFiles
             /\ ((exists msg,
                    hashed h st allFiles = Err msg
                    /\ r = (Rejected msg, emit es (start st a)))
                 \/ (hashed h st allFiles = Ok []
                     /\ r = (Resolved, emit es (start st a)))
                 \/ exists pending,
                      hashed h st allFiles = Ok pending
                      /\ pending <> []
                      /\ r = upload_pending h scheds allFiles
                               (getNextImageNumber st) pending
                               (emit es (start st a)))).
Proof.
  unfold uploadPhotos, discovered.
  destruct (existsSync h listFile); cbn [negb];
    [|exists []; rewrite emit_nil; split; [done|left; eauto]].
  destruct (readFileSync h listFile) as [text|msg];
    [|exists []; rewrite emit_nil; split; [done|left; eauto]].
  rewrite <- (scan_discovered h _ (start st a)).
  destruct (folders_of h text) as [|d ds].
  { exists [LoggedNoFolders]. split; [by repeat constructor|]. right.
    exists []. split; [reflexivity|]. right; left. split; reflexivity. }
  destruct (scan_emits h (d :: ds) (start st a)) as (es1 & He1 & Hq1).
  destruct (scan h (d :: ds) (start st a)) as [[files|msg] w1];
    cbn [fst snd] in *; subst w1;
    [|exists es1; split; [done|left; eauto]].
  unfold upload_files.
  destruct (sort_paths files) as [|f fs].
  { exists (es1 ++ [LoggedNoImages])%list. rewrite <- emit_emit.
    split; [apply Forall_app; split; [done|by repeat constructor]|].
    right. exists []. split; [reflexivity|]. right; left.
    split; reflexivity. }
  pose proof (collect_hashed h (f :: fs) (emit es1 (start st a))) as Hcr.
  change (store (emit es1 (start st a))) with st in Hcr. symmetry in Hcr.
  destruct (collect_emits h (f :: fs) (emit es1 (start st a)))
    as (es2 & He2 & Hq2).
  destruct (collect_pending h (f :: fs) (emit es1 (start st a)))
    as [[pending|msg] w2]; cbn [fst snd] in *; subst w2; rewrite emit_emit.
  - destruct pending as [|p0 pending].
    + exists ((es1 ++ es2) ++ [LoggedNoNewPhotos])%list. rewrite <- emit_emit.
      split; [repeat (apply Forall_app; split); by repeat constructor|].
      right. exists (f :: fs). split; [reflexivity|]. right; left.
      split; [exact Hcr|reflexivity].
    + exists (es1 ++ es2)%list. split; [by apply Forall_app|]. right.
      exists (f :: fs). split; [reflexivity|]. right; right.
      exists (p0 :: pending). split; [exact Hcr|]. split; [done|reflexivity].
  - exists (es1 ++ es2)%list. split; [by apply Forall_app|]. right.
    exists (f :: fs). split; [reflexivity|]. left. eauto.
Qed.

Lemma outside_units_calls (es : list event) (w : World) :
  Forall outside_units es ->
  called_items (log (emit es w)) = called_items (log w).
Proof.
  intros Hes. rewrite emit_log, called_items_app.
  destruct (outside_units_quiet es Hes) as (-> & _). apply app_nil_r.
Qed.

(** A run that resolves has found its files and hashed every one. *)
Lemma resolved_discovered (h : Host) (listFile : string)
    (scheds : list (list nat)) (st : Store) (a : Assets) :
  (uploadPhotos h listFile scheds st a).1 = Resolved ->
  exists allFiles pending,
    discovered h listFile = Some allFiles
    /\ hashed h st allFiles = Ok pending.
Proof.
  destruct (uploadPhotos_run h listFile scheds st a)
    as (es & _ & [(_ & msg & ->)
                 | (allFiles & Hd & [(msg & _ & ->) | [[Hc _] | (pending & Hc & _)]])]);
    try discriminate; eauto.
Qed.

(** The outcome of a run whose files are all on record. *)
Lemma nothing_new (h : Host) (listFile : string) (scheds : list (list nat))
    (st : Store) (a : Assets) (allFiles : list string) :
  discovered h listFile = Some allFiles ->
  hashed h st allFiles = Ok [] ->
  let r := uploadPhotos h listFile scheds st a in
  r.1 = Resolved /\ store r.2 = st /\ assets r.2 = a
  /\ called_items (log r.2) = [].
Proof.
  intros Hd Hc r. subst r.
  destruct (uploadPhotos_run h listFile scheds st a)
    as (es & Hes & [(Hn & _)
                   | (allFiles' & Hd' & [(msg & Hc' & _)
                                        | [[_ ->] | (pending & Hc' & Hne & _)]])]);
    try congruence.
  cbn [fst snd]. rewrite outside_units_calls by done. repeat split.
Qed.

(** X9: a run that resolved, and whose identifiers were not in use
    before it, leaves nothing to upload: the same command on the store
    and the assets it left queues no file, resolves and changes neither
    the store nor the assets. *)
Theorem rerun_uploads_nothing (h : Host) (listFile : string)
    (scheds scheds' : list (list nat)) (st : Store) (a : Assets) :
  (uploadPhotos h listFile scheds st a).1 = Resolved ->
  (forall it, it ∈ plan h listFile st -> st !! id it = None) ->
  let r := uploadPhotos h listFile scheds st a in
  let r' := uploadPhotos h listFile scheds' (store r.2) (assets r.2) in
  plan h listFile (store r.2) = []
  /\ r'.1 = Resolved /\ store r'.2 = store r.2 /\ assets r'.2 = assets r.2
  /\ called_items (log r'.2) = [].
Proof.
  intros Hres Hnew r r'.
  destruct (resolved_discovered h listFile scheds st a Hres)
    as (allFiles & pending & Hdisc & Hcol).
  pose proof (kept_subseteq h listFile scheds st a Hnew) as Hsub.
  fold r in Hsub.
  assert (Hplan : plan h listFile st
                  = uploadQueue (getNextImageNumber st) pending).
  { by rewrite plan_discovered, Hdisc, Hcol. }
  assert (Hknown : hashed h (store r.2) allFiles
                   = Ok []).
  { apply collect_pending_known. intros f Hf. unfold hashed in Hcol.
    destruct (collect_pending h allFiles _) as [res w2] eqn:Hc.
    cbn [fst] in Hcol. subst res.
    destruct (collect_pending_total h allFiles _ _ _ Hc f Hf)
      as (hs & Hh & [He | Hp]); exists hs; (split; [exact Hh|]).
    - eapply hashExists_mono; [exact Hsub | exact He].
    - destruct (uploadQueue_of_pending (getNextImageNumber st) pending _ Hp)
        as (it & Hit & _ & Hq). rewrite <- Hplan in Hit.
      pose proof (resolved_recorded h listFile scheds st a it Hres Hit) as He.
      simpl in Hq. by rewrite <- Hq. }
  split.
  - by rewrite plan_discovered, Hdisc, Hknown.
  - exact (nothing_new h listFile scheds' (store r.2) (assets r.2) allFiles
             Hdisc Hknown).
Qed.

(** ** What is queued *)

Lemma elem_of_List_filter {A : Type} (f : A -> bool) (l : list A) (x : A) :
  x ∈ List.filter f l <-> x ∈ l /\ f x = true.
Proof. rewrite !list_elem_of_In. apply filter_In. Qed.

Lemma scan_files (h : Host) (folders : list string) (w w' : World)
    (files : list string) (f : string) :
  scan h folders w = (Ok files, w') ->
  f ∈ files
  <-> exists dir names name,
        dir ∈ folders /\ existsSync h dir = true
        /\ readdirSync h dir = Ok names
        /\ name ∈ names /\ isImage name = true
        /\ f = path_join h dir name.
Proof.
  revert w w' files. induction folders as [|d rest IH]; intros w w' files.
  { intros [= <- <-]. split; [by intros H; apply elem_of_nil in H|].
    intros (dir & _ & _ & H & _). by apply elem_of_nil in H. }
  cbn [scan]. destruct (existsSync h d) eqn:Hex; cbn [negb].
  - destruct (readdirSync h d) as [names|msg] eqn:Hrd; [|discriminate].
    destruct (scan h rest w) as [[more|msg] w1] eqn:Hs; [|discriminate].
    intros [= <- <-]. rewrite elem_of_app, (IH _ _ _ Hs). split.
    + intros [Hin | (dir & names' & name & Hd & H)].
      * apply list_elem_of_fmap in Hin as (name & -> & Hin).
        apply elem_of_List_filter in Hin as [Hin Him].
        exists d, names, name. split; [apply list_elem_of_here|].
        repeat split; auto.
      * exists dir, names', name. split; [by apply list_elem_of_further|].
        exact H.
    + intros (dir & names' & name & Hd & Hex' & Hrd' & Hin & Him & ->).
      apply elem_of_cons in Hd as [->|Hd].
      * left. rewrite Hrd in Hrd'. injection Hrd' as <-.
        apply list_elem_of_fmap. exists name. split; [reflexivity|].
        apply elem_of_List_filter. by split.
      * right. exists dir, names', name. repeat split; auto.
  - intros Hs. rewrite (IH _ _ _ Hs). split.
    + intros (dir & names & name & Hd & H).
      exists dir, names, name. split; [by apply list_elem_of_further|].
      exact H.
    + intros (dir & names & name & Hd & Hex' & H).
      apply elem_of_cons in Hd as [->|Hd]; [congruence|].
      exists dir, names, name. split; [exact Hd|]. split; [exact Hex'|exact H].
Qed.

Lemma discovered_files (h : Host) (listFile : string)
    (allFiles : list string) (f : string) :
  discovered h listFile = Some allFiles ->
  f ∈ allFiles <-> listed_image h listFile f.
Proof.
  unfold discovered, listed_image.
  destruct (existsSync h listFile); [|discriminate].
  destruct (readFileSync h listFile) as [text|msg]; [|discriminate].
  destruct (scan h (folders_of h text) (start ∅ ∅)) as [[files|msg] w1]
    eqn:Hs; cbn [fst]; [|discriminate].
  intros [= <-]. unfold sort_paths. rewrite merge_sort_Permutation.
  rewrite (scan_files h _ _ _ _ f Hs). split.
  - intros (dir & names & name & H). exists text, dir, names, name.
    split; [reflexivity|exact H].
  - intros (text' & dir & names & name & [= <-] & H).
    exists dir, names, name. exact H.
Qed.

Lemma hashed_paths (h : Host) (st : Store) (allFiles : list string)
    (pending : list PendingPhoto) :
  hashed h st allFiles = Ok pending ->
  filePath <$> pending = List.filter (fresh h st) allFiles
  /\ Forall (fun p => hashFile h (filePath p) = Ok (p_hash p)
                      /\ hashExists st (p_hash p) = false) pending.
Proof.
  unfold hashed.
  destruct (collect_pending h allFiles (start st ∅)) as [res w2] eqn:Hc.
  cbn [fst]. intros ->.
  destruct (collect_pending_spec h allFiles _ _ _ Hc) as (Hp & Hall & _).
  auto.
Qed.

(** X4: the files a run queues are images of existing folders of the
    list, hashed, with no record of their content; and when the folders
    could be read and the files hashed, every such image is queued. *)
Theorem queue_is_the_new_images (h : Host) (listFile : string) (st : Store) :
  (forall it, it ∈ plan h listFile st ->
     listed_image h listFile (q_filePath it)
     /\ hashFile h (q_filePath it) = Ok (q_hash it)
     /\ hashExists st (q_hash it) = false)
  /\ (forall allFiles pending path,
        discovered h listFile = Some allFiles ->
        hashed h st allFiles = Ok pending ->
        listed_image h listFile path -> fresh h st path = true ->
        exists it, it ∈ plan h listFile st /\ q_filePath it = path).
Proof.
  split.
  - intros it Hit. rewrite plan_discovered in Hit.
    destruct (discovered h listFile) as [allFiles|] eqn:Hd;
      [|by apply elem_of_nil in Hit].
    destruct (hashed h st allFiles) as [pending|msg] eqn:Hh;
      [|by apply elem_of_nil in Hit].
    destruct (hashed_paths h st allFiles pending Hh) as [Hpaths Hall].
    apply uploadQueue_elem in Hit as (p & Hp & Hpath & Hhash).
    rewrite Forall_forall in Hall. destruct (Hall p Hp) as [H1 H2].
    rewrite Hpath, Hhash. split; [|by split].
    apply (discovered_files h listFile allFiles _ Hd).
    assert (Hin : filePath p ∈ filePath <$> pending)
      by (apply list_elem_of_fmap; eauto).
    rewrite Hpaths in Hin. by apply elem_of_List_filter in Hin as [Hin _].
  - intros allFiles pending path Hd Hh Hli Hfr.
    destruct (hashed_paths h st allFiles pending Hh) as [Hpaths _].
    apply (discovered_files h listFile allFiles _ Hd) in Hli.
    assert (Hin : path ∈ filePath <$> pending).
    { rewrite Hpaths. apply elem_of_List_filter. by split. }
    apply list_elem_of_fmap in Hin as (p & -> & Hp).
    destruct (uploadQueue_of_pending (getNextImageNumber st) pending p Hp)
      as (it & Hit & Hpath & _).
    exists it. split; [|exact Hpath].
    by rewrite plan_discovered, Hd, Hh.
Qed.

(** ** When a run is rejected *)

Lemma collect_pending_err (h : Host) (files : list string) (w : World)
    (f m : string) :
  f ∈ files -> hashFile h f = Err m ->
  exists g msg, g ∈ files /\ hashFile h g = Err msg
                /\ (collect_pending h files w).1 = Err msg.
Proof.
  revert w. induction files as [|g files IH]; intros w Hf Hm;
    [by apply elem_of_nil in Hf|].
  cbn [collect_pending].
  destruct (hashFile h g) as [hs|msg] eqn:Hg.
  - apply elem_of_cons in Hf as [->|Hf]; [congruence|].
    assert (Hrec : forall w', exists g' msg,
              g' ∈ g :: files /\ hashFile h g' = Err msg
              /\ (collect_pending h files w').1 = Err msg).
    { intros w'. destruct (IH w' Hf Hm) as (g' & msg & Hin & Hh & Hc).
      exists g', msg. split; [by apply list_elem_of_further|]. auto. }
    destruct (hashExists (store w) hs); [apply Hrec|].
    destruct (Hrec w) as (g' & msg & Hin & Hh & Hc).
    exists g', msg. split; [exact Hin|]. split; [exact Hh|].
    destruct (collect_pending h files w) as [[ps|msg'] w1]; cbn [fst] in *;
      congruence.
  - exists g, msg. split; [apply list_elem_of_here|]. auto.
Qed.

(** X5: a file that cannot be hashed ends the run before anything is
    queued: the run is rejected with the error of such a file, and the
    store and the assets are as they were. *)
Theorem hash_error_rejects (h : Host) (listFile : string)
    (scheds : list (list nat)) (st : Store) (a : Assets)
    (allFiles : list string) (f m : string) :
  discovered h listFile = Some allFiles ->
  f ∈ allFiles -> hashFile h f = Err m ->
  let r := uploadPhotos h listFile scheds st a in
  (exists g msg, g ∈ allFiles /\ hashFile h g = Err msg
                 /\ r.1 = Rejected msg)
  /\ store r.2 = st /\ assets r.2 = a /\ completed r.2 = 0%nat
  /\ called_items (log r.2) = [].
Proof.
  intros Hd Hf Hm r.
  destruct (collect_pending_err h allFiles (start st (assets (start st a)))
              f m Hf Hm) as (g & msg & Hg & Hh & Hc).
  assert (Hhashed : hashed h st allFiles = Err msg).
  { rewrite <- Hc. symmetry.
    exact (collect_hashed h allFiles (start st (assets (start st a)))). }
  subst r.
  destruct (uploadPhotos_run h listFile scheds st a)
    as (es & Hes & [(Hn & _)
                   | (allFiles' & Hd' & [(msg' & Hc' & ->)
                                        | [[Hc' _] | (pending & Hc' & _)]])]);
    try congruence.
  assert (allFiles' = allFiles) by congruence. subst allFiles'.
  assert (msg' = msg) by congruence. subst msg'.
  cbn [fst snd]. rewrite outside_units_calls by done.
  split; [eauto|]. repeat split.
Qed.

Lemma example_unreadable_discovered :
  discovered example_host_unreadable "list.txt"
  = Some ["a/1.jpg"; "a/2.JPG"; "a/3.png"].
Proof. vm_compute. reflexivity. Qed.

Lemma hash_error_rejects_witness :
  let r := uploadPhotos example_host_unreadable "list.txt" [] ∅ ∅ in
  (exists g msg, g ∈ ["a/1.jpg"; "a/2.JPG"; "a/3.png"]
                 /\ hashFile example_host_unreadable g = Err msg
                 /\ r.1 = Rejected msg)
  /\ store r.2 = ∅ /\ assets r.2 = ∅ /\ completed r.2 = 0%nat
  /\ called_items (log r.2) = [].
Proof.
  exact (hash_error_rejects example_host_unreadable "list.txt" [] ∅ ∅
           ["a/1.jpg"; "a/2.JPG"; "a/3.png"] "a/2.JPG"
           "EACCES: permission denied" example_unreadable_discovered
           (list_elem_of_further _ _ _ (list_elem_of_here _ _)) eq_refl).
Defined.

(** X6: a run resolves exactly when the list and the folders could be
    read, every file found could be hashed and no unit failed. *)
Theorem resolves_iff (h : Host) (listFile : string)
    (scheds : list (list nat)) (st : Store) (a : Assets) :
  let r := uploadPhotos h listFile scheds st a in
  r.1 = Resolved
  <-> exists allFiles pending,
        discovered h listFile = Some allFiles
        /\ hashed h st allFiles = Ok pending
        /\ failed r.2 = [].
Proof.
  intros r. split.
  - intros Hres.
    destruct (resolved_discovered h listFile scheds st a Hres)
      as (allFiles & pending & Hd & Hc).
    exists allFiles, pending. split; [exact Hd|]. split; [exact Hc|].
    by apply uploadPhotos_resolved.
  - intros (allFiles & pending & Hd & Hc & Hf). subst r.
    destruct (uploadPhotos_run h listFile scheds st a)
      as (es & Hes & [(Hn & _)
                     | (allFiles' & Hd' & [(msg' & Hc' & _)
                                          | [[_ ->] | (pending' & _ & _ & Hr)]])]);
      try congruence; [reflexivity|].
    cbv zeta in Hr. rewrite Hr in Hf |- *.
    destruct (upload_pending_summary h scheds allFiles'
                (getNextImageNumber st) pending' (emit es (start st a))
                eq_refl) as (_ & _ & _ & _ & _ & Hok).
    by apply Hok.
Qed.

(** ** Numbered stores *)

Lemma elem_of_titles (st : Store) (t : string) :
  t ∈ titles st <-> exists doc r, st !! doc = Some r /\ title r = t.
Proof.
  unfold titles, records. rewrite list_elem_of_fmap. split.
  - intros (r & -> & Hin).
    apply list_elem_of_fmap in Hin as ([doc r'] & -> & Hin).
    apply elem_of_map_to_list in Hin. eauto.
  - intros (doc & r & Hl & <-). exists r. split; [reflexivity|].
    apply list_elem_of_fmap. exists (doc, r). split; [reflexivity|].
    by apply elem_of_map_to_list.
Qed.

Lemma plan_ids (h : Host) (listFile : string) (st : Store) (it : QueueItem) :
  it ∈ plan h listFile st ->
  exists k, (k < length (plan h listFile st))%nat
            /\ id it = img_id (getNextImageNumber st + N.of_nat k).
Proof.
  intros Hit. apply list_elem_of_lookup in Hit as [k Hk].
  exists k. split; [by eapply lookup_lt_Some|].
  rewrite plan_discovered in Hk.
  destruct (discovered h listFile) as [allFiles|];
    [|by rewrite lookup_nil in Hk].
  destruct (hashed h st allFiles) as [pending|msg];
    [|by rewrite lookup_nil in Hk].
  apply (uploadQueue_id_lookup (getNextImageNumber st) pending).
  by rewrite list_lookup_fmap, Hk.
Qed.

Lemma numbered_ids_free (h : Host) (listFile : string) (st : Store)
    (it : QueueItem) :
  numbered st -> ids_are_titles st ->
  it ∈ plan h listFile st -> st !! id it = None.
Proof.
  intros Hnum Hids Hit. destruct (plan_ids h listFile st it Hit) as (k & _ & Hk).
  destruct (st !! id it) as [r|] eqn:Hl; [exfalso|reflexivity].
  assert (Hin : img_id (getNextImageNumber st + N.of_nat k) ∈ titles st).
  { apply elem_of_titles. exists (id it), r. split; [exact Hl|].
    rewrite <- Hk. by apply Hids. }
  apply numbered_below_next in Hin; [lia|exact Hnum].
Qed.

(** X10: a store whose documents are titled by their ids, all of them
    padded identifiers below ten thousand, stays so through a run that
    does not reach ten thousand: the identifiers the run assigns are not
    in use, so the store it started from is part of the store it
    leaves. *)
Theorem numbered_store_stays_numbered (h : Host) (listFile : string)
    (scheds : list (list nat)) (st : Store) (a : Assets) :
  numbered st -> ids_are_titles st ->
  getNextImageNumber st + N.of_nat (length (plan h listFile st)) <= 10000 ->
  let r := uploadPhotos h listFile scheds st a in
  (forall it, it ∈ plan h listFile st -> st !! id it = None)
  /\ st ⊆ store r.2
  /\ numbered (store r.2) /\ ids_are_titles (store r.2).
Proof.
  intros Hnum Hids Hroom r.
  assert (Hfree : forall it, it ∈ plan h listFile st -> st !! id it = None)
    by (intros it Hit; by eapply numbered_ids_free).
  destruct (uploadPhotos_kept h listFile scheds st a) as (_ & Hfrom & _).
  fold r in Hfrom.
  split; [exact Hfree|]. split; [by apply kept_subseteq|]. split.
  - intros t Ht. apply elem_of_titles in Ht as (doc & rec & Hl & <-).
    destruct (Hfrom doc rec Hl) as [H0 | (it & Hit & -> & _ & Ht & _)].
    + apply Hnum. apply elem_of_titles. eauto.
    + destruct (plan_ids h listFile st it Hit) as (k & Hk & Hid).
      exists (getNextImageNumber st + N.of_nat k). split; [lia|].
      by rewrite Ht.
  - intros doc rec Hl.
    destruct (Hfrom doc rec Hl) as [H0 | (it & Hit & -> & _ & Ht & _)];
      [by apply Hids|exact Ht].
Qed.

Lemma store_0007_titled : ids_are_titles store_0007.
Proof.
  intros doc r Hl. unfold store_0007 in Hl.
  apply lookup_insert_Some in Hl as [[<- <-] | [_ Hl]]; [reflexivity|].
  by rewrite lookup_empty in Hl.
Qed.

Lemma example_room :
  getNextImageNumber store_0007
  + N.of_nat (length (plan example_host "list.txt" store_0007)) <= 10000.
Proof. vm_compute. discriminate. Qed.

Lemma numbered_store_stays_numbered_witness :
  let r := uploadPhotos example_host "list.txt" round_robin store_0007 ∅ in
  (forall it, it ∈ plan example_host "list.txt" store_0007 ->
     store_0007 !! id it = None)
  /\ store_0007 ⊆ store r.2
  /\ numbered (store r.2) /\ ids_are_titles (store r.2).
Proof.
  exact (numbered_store_stays_numbered example_host "list.txt" round_robin
           store_0007 ∅ store_0007_numbered store_0007_titled example_room).
Defined.

(** The run of the witness: the store holds [IMG-0007], the three files
    get the next three identifiers and the old document stays. *)
Example numbered_run :
  let r := uploadPhotos example_host "list.txt" round_robin store_0007 ∅ in
  id <$> plan example_host "list.txt" store_0007
  = ["IMG-0008"; "IMG-0009"; "IMG-0010"]
  /\ hash <$> store r.2 !! "IMG-0007" = Some "h7"
  /\ title <$> store r.2 !! "IMG-0008" = Some "IMG-0008"
  /\ title <$> store r.2 !! "IMG-0010" = Some "IMG-0010".
Proof. vm_compute. auto. Qed.

(** ** The text of the progress line *)

Lemma bars_checked : bars_ok CHECKED_FILES = true.
Proof. vm_compute. reflexivity. Qed.

Lemma bars_ok_spec (bound total done : nat) :
  bars_ok bound = true ->
  (0 < total <= bound)%nat -> (done <= total)%nat ->
  bar_ok total done = true.
Proof.
  unfold bars_ok. intros H Ht Hd.
  rewrite forallb_forall in H. specialize (H total).
  rewrite forallb_forall in H. apply H; apply in_seq; lia.
Qed.

Lemma bar_ok_checked (total done : nat) :
  (0 < total <= CHECKED_FILES)%nat -> (done <= total)%nat ->
  bar_ok total done = true.
Proof. exact (bars_ok_spec CHECKED_FILES total done bars_checked). Qed.

Lemma progress_text_of_bar (h : Host) (done total : nat) (f p : Z) :
  bar_of done total = Some (f, p) ->
  (0 <= f <= 30)%Z -> (0 <= p <= 100)%Z ->
  progress_text h done total
  = Ok (progress_line (Z.to_nat f) (Z.to_nat p) done total).
Proof.
  unfold bar_of, progress_text, progress_line. cbv zeta.
  destruct (Math_floor _) as [f'| |]; try discriminate.
  destruct (Math_floor _) as [p'| |]; try discriminate.
  intros [= -> ->] Hf Hp.
  cbn [repeat_cells cells_left floor_string]. unfold BAR_WIDTH.
  rewrite (proj2 (Z.ltb_ge f 0)) by lia.
  rewrite (proj2 (Z.ltb_ge (30 - f) 0)) by lia.
  rewrite (proj2 (Z.ltb_lt (Z.abs p) (2 ^ 53))) by (apply Z.abs_lt; lia).
  unfold Js.int_string. rewrite (proj2 (Z.ltb_ge p 0)) by lia.
  replace (Z.to_nat (30 - f)) with (30 - Z.to_nat f)%nat by lia.
  replace (N.of_nat (Z.to_nat p)) with (Z.to_N p) by lia.
  reflexivity.
Qed.

Lemma progress_text_renders (h : Host) (done total : nat) :
  (0 < total <= CHECKED_FILES)%nat -> (done <= total)%nat ->
  exists filled percent : nat,
    progress_text h done total = Ok (progress_line filled percent done total).
Proof.
  intros Ht Hd. pose proof (bar_ok_checked total done Ht Hd) as Hok.
  unfold bar_ok in Hok.
  destruct (bar_of done total) as [[f p]|] eqn:Hbar; [|discriminate].
  cbv zeta in Hok. rewrite !andb_true_iff in Hok.
  destruct Hok as ((((((_ & Hf0) & Hf30) & Hp0) & Hp100) & _) & _).
  apply Z.leb_le in Hf0, Hf30, Hp0, Hp100.
  exists (Z.to_nat f), (Z.to_nat p). apply progress_text_of_bar; auto; lia.
Qed.

(** X12: for a batch of up to 200 files and a count within it,
    [renderProgress] throws nothing and writes a bar of thirty cells, a
    percentage, the count and the total; the filled cells and the
    percentage are the exact quotients rounded down or, by the rounding
    of the division, one less; the bar is full and the percentage is 100
    exactly when the count is the total, and then a newline follows. *)
Theorem progress_text_bar (h : Host) (done total : nat) :
  (0 < total <= CHECKED_FILES)%nat -> (done <= total)%nat ->
  exists filled percent : nat,
    progress_text h done total = Ok (progress_line filled percent done total)
    /\ (filled <= 30)%nat /\ (percent <= 100)%nat
    /\ (filled = 30%nat <-> done = total)
    /\ (percent = 100%nat <-> done = total)
    /\ (30 * done / total - 1 <= filled <= 30 * done / total)%nat
    /\ (100 * done / total - 1 <= percent <= 100 * done / total)%nat.
Proof.
  intros Ht Hd. pose proof (bar_ok_checked total done Ht Hd) as Hok.
  unfold bar_ok in Hok.
  destruct (bar_of done total) as [[f p]|] eqn:Hbar; [|discriminate].
  cbv zeta in Hok. rewrite !andb_true_iff, !orb_true_iff in Hok.
  destruct Hok as (((((((Hf & Hp) & Hf0) & Hf30) & Hp0) & Hp100) & Hfull)
                   & Hcent).
  apply Z.leb_le in Hf0, Hf30, Hp0, Hp100.
  apply Bool.eqb_prop in Hfull, Hcent.
  rewrite !Z.eqb_eq in Hf, Hp.
  exists (Z.to_nat f), (Z.to_nat p).
  split; [apply progress_text_of_bar; auto; lia|].
  split; [lia|]. split; [lia|].
  assert (Hdiv : forall k : nat,
            (Z.of_nat k * Z.of_nat done / Z.of_nat total)%Z
            = Z.of_nat (k * done / total)).
  { intros k. rewrite Nat2Z.inj_div, Nat2Z.inj_mul. reflexivity. }
  change 30%Z with (Z.of_nat 30) in Hf.
  change 100%Z with (Z.of_nat 100) in Hp.
  rewrite Hdiv in Hf, Hp.
  split; [|split; [|split]].
  - split.
    + intros H30. apply Nat.eqb_eq. rewrite <- Hfull. apply Z.eqb_eq. lia.
    + intros Heq. apply Nat.eqb_eq in Heq. rewrite <- Hfull in Heq.
      apply Z.eqb_eq in Heq. lia.
  - split.
    + intros H100. apply Nat.eqb_eq. rewrite <- Hcent. apply Z.eqb_eq. lia.
    + intros Heq. apply Nat.eqb_eq in Heq. rewrite <- Hcent in Heq.
      apply Z.eqb_eq in Heq. lia.
  - lia.
  - lia.
Qed.

Lemma progress_text_bar_witness :
  exists filled percent : nat,
    progress_text example_host 29 100
    = Ok (progress_line filled percent 29 100)
    /\ (filled <= 30)%nat /\ (percent <= 100)%nat
    /\ (filled = 30%nat <-> 29%nat = 100%nat)
    /\ (percent = 100%nat <-> 29%nat = 100%nat)
    /\ (30 * 29 / 100 - 1 <= filled <= 30 * 29 / 100)%nat
    /\ (100 * 29 / 100 - 1 <= percent <= 100 * 29 / 100)%nat.
Proof.
  apply (progress_text_bar example_host 29 100); unfold CHECKED_FILES; lia.
Defined.

(** The division rounds [29 / 100 * 100] below 29. *)
Example progress_text_rounding :
  progress_text example_host 29 100
  = Ok (progress_line 8 28 29 100).
Proof. vm_compute. reflexivity. Qed.

(** ** The progress lines in order *)

Lemma progress_events_app (l1 l2 : list event) :
  progress_events (l1 ++ l2)
  = (progress_events l1 ++ progress_events l2)%list.
Proof. unfold progress_events. apply List.filter_app. Qed.

Lemma progress_events_render (done total : nat) :
  progress_events (renderProgress done total) = renderProgress done total.
Proof. unfold renderProgress. by destruct (done =? total)%nat. Qed.

Lemma progress_events_outside (es : list event) :
  Forall outside_units es -> progress_events es = [].
Proof.
  induction 1 as [|e es He _ IH]; [reflexivity|].
  cbn [progress_events List.filter]. fold (progress_events es).
  rewrite IH. by destruct e.
Qed.

Lemma progress_events_Called (batch : list QueueItem) :
  progress_events (Called <$> batch) = [].
Proof. induction batch as [|it b IH]; [reflexivity|exact IH]. Qed.

Lemma counting_up_S (total n : nat) :
  counting_up total (S n)
  = (counting_up total n ++ renderProgress (S n) total)%list.
Proof.
  unfold counting_up. rewrite seq_S, flat_map_app. simpl.
  by rewrite app_nil_r.
Qed.

Lemma step_counted (h : Host) (total : nat) (it : QueueItem) (p : phase)
    (w w' : World) (o : option phase) :
  step h total it p w o w' -> counted total w -> counted total w'.
Proof.
  unfold counted. intros Hs Hc.
  assert (Hfail : forall f : list string,
    (completed w + length (f ++ [id it]))%nat = S (completed w + length f)).
  { intros f. rewrite length_app. simpl. lia. }
  inversion Hs; subst; clear Hs;
    cbn [resolve reject emit with_store with_assets log completed failed];
    rewrite ?progress_events_app, ?Hc, ?progress_events_render, ?app_nil_r;
    try done;
    rewrite ?Hfail, ?counting_up_S; try done.
  - change (S (completed w) + length (failed w))%nat
      with (S (completed w + length (failed w))).
    by rewrite counting_up_S.
  - change (S (completed w) + length (failed w))%nat
      with (S (completed w + length (failed w))).
    by rewrite counting_up_S.
Qed.

Lemma loop_counted (h : Host) (total : nat) (queue : list QueueItem)
    (scheds : list (list nat)) (w : World) :
  counted total w ->
  counted total (upload_loop h total (length queue) 0 queue scheds w).
Proof.
  intros Hc.
  destruct (upload_loop_invariant h total queue (fun _ => counted total))
    with (fuel := length queue) (i := 0%nat) (scheds := scheds) (w := w)
    as (j & _ & HI); [| lia | exact Hc | exact HI].
  intros i w1 sched _ HI.
  apply run_window_invariant with (Inv := fun _ => counted total).
  - intros. eapply step_counted; eassumption.
  - intros. eapply step_counted; eassumption.
  - rewrite weight_launch. lia.
  - unfold counted in *. rewrite emit_log, progress_events_app, HI.
    by rewrite progress_events_Called, app_nil_r.
Qed.

Lemma counted_outside (total : nat) (es : list event) (st : Store)
    (a : Assets) :
  Forall outside_units es -> counted total (emit es (start st a)).
Proof.
  intros Hes. unfold counted.
  rewrite emit_log, progress_events_app, (progress_events_outside es Hes).
  reflexivity.
Qed.

Lemma run_counted (h : Host) (listFile : string)
    (scheds : list (list nat)) (st : Store) (a : Assets) :
  let r := uploadPhotos h listFile scheds st a in
  progress_events (log r.2)
  = counting_up (found h listFile) (length (plan h listFile st))
  /\ (completed r.2 + length (failed r.2))%nat = length (plan h listFile st).
Proof.
  intros r. subst r. unfold found. rewrite plan_discovered.
  destruct (uploadPhotos_run h listFile scheds st a)
    as (es & Hes & [(-> & msg & ->)
                   | (allFiles & -> & [(msg & -> & ->)
                                      | [[-> ->] | (pending & -> & _ & ->)]])]);
    cbn [fst snd];
    try (split; [apply (counted_outside 0 es st a Hes)|reflexivity]);
    try (split; [apply (counted_outside (length allFiles) es st a Hes)
                |reflexivity]).
  set (w := emit es (start st a)).
  assert (Hw : counted (length allFiles) w) by by apply counted_outside.
  destruct (upload_pending_summary h scheds allFiles (getNextImageNumber st)
              pending w eq_refl) as (Hacc & _).
  cbv zeta in Hacc. change (completed w) with 0%nat in Hacc.
  rewrite Nat.add_0_l in Hacc.
  split; [|exact Hacc].
  rewrite <- Hacc. clear Hacc. unfold upload_pending.
  destruct pending as [|p0 pending];
    [cbn [snd]; rewrite emit_log, progress_events_app, Hw; apply app_nil_r|].
  set (queue := uploadQueue (getNextImageNumber st) (p0 :: pending)).
  set (w3 := emit _ w).
  assert (H3 : counted (length allFiles) w3).
  { unfold counted, w3. rewrite emit_log, progress_events_app, Hw.
    apply app_nil_r. }
  pose proof (loop_counted h (length allFiles) queue scheds w3 H3) as H4.
  destruct (0 <? length (failed _))%nat; cbn [snd]; [exact H4|].
  unfold counted in H4. rewrite emit_log, progress_events_app, H4.
  apply app_nil_r.
Qed.

Lemma plan_length (h : Host) (listFile : string) (st : Store) :
  (length (plan h listFile st) <= found h listFile)%nat.
Proof.
  unfold found. rewrite plan_discovered.
  destruct (discovered h listFile) as [allFiles|]; [|simpl; lia].
  destruct (hashed h st allFiles) as [pending|msg] eqn:Hh; [|simpl; lia].
  destruct (hashed_paths h st allFiles pending Hh) as [Hp _].
  unfold uploadQueue. rewrite length_imap.
  rewrite <- (length_fmap filePath), Hp. apply length_List_filter.
Qed.

(** X11: the progress lines of a run count up from one, one line for
    each queued file in the order the units finish, each against the
    number of files found, which is at least the number queued; a newline
    follows a line exactly when its count is the number of files found. *)
Theorem progress_counts_up (h : Host) (listFile : string)
    (scheds : list (list nat)) (st : Store) (a : Assets) :
  let r := uploadPhotos h listFile scheds st a in
  progress_events (log r.2)
  = counting_up (found h listFile) (length (plan h listFile st))
  /\ (completed r.2 + length (failed r.2))%nat = length (plan h listFile st)
  /\ (length (plan h listFile st) <= found h listFile)%nat.
Proof.
  intros r. destruct (run_counted h listFile scheds st a) as [H1 H2].
  split; [exact H1|]. split; [exact H2|apply plan_length].
Qed.

Lemma elem_of_counting_up (total n d t : nat) :
  ProgressLine d t ∈ counting_up total n ->
  t = total /\ (0 < d <= n)%nat.
Proof.
  unfold counting_up. rewrite list_elem_of_In, in_flat_map.
  intros (k & Hk & Hin). apply in_seq in Hk.
  apply list_elem_of_In, elem_of_progress in Hin as [Hin|Hin];
    [|discriminate].
  injection Hin as -> ->. split; [reflexivity|lia].
Qed.

(** X13: in a run that finds up to 200 files, every progress line is
    one that [renderProgress] writes without throwing: its total is the
    number of files found and its count lies between one and the number
    queued. *)
Theorem run_progress_renders (h : Host) (listFile : string)
    (scheds : list (list nat)) (st : Store) (a : Assets) (d t : nat) :
  ProgressLine d t ∈ log (uploadPhotos h listFile scheds st a).2 ->
  (found h listFile <= CHECKED_FILES)%nat ->
  t = found h listFile
  /\ (0 < d <= length (plan h listFile st))%nat
  /\ exists filled percent : nat,
       progress_text h d t = Ok (progress_line filled percent d t).
Proof.
  intros Hin Hbound.
  destruct (run_counted h listFile scheds st a) as [Hc _].
  assert (Hp : ProgressLine d t
               ∈ progress_events (log (uploadPhotos h listFile scheds st a).2)).
  { unfold progress_events. apply elem_of_List_filter. by split. }
  rewrite Hc in Hp. apply elem_of_counting_up in Hp as [-> Hd].
  pose proof (plan_length h listFile st) as Hl.
  split; [reflexivity|]. split; [exact Hd|].
  apply progress_text_renders; lia.
Qed.

(** ** The flag [featured] *)

Lemma set_featured_twice (f g : bool) (r : PhotoRecord) :
  set_featured f (set_featured g r) = set_featured f r.
Proof. reflexivity. Qed.

Lemma set_featured_same (r : PhotoRecord) :
  set_featured (featured r) r = r.
Proof. by destruct r. Qed.

Lemma flag_only_refl (st : Store) : flag_only st st.
Proof. by intros doc. Qed.

Lemma flag_only_trans (st1 st2 st3 : Store) :
  flag_only st1 st2 -> flag_only st2 st3 -> flag_only st1 st3.
Proof. intros H1 H2 doc. by rewrite H1. Qed.

Lemma flag_only_insert (st : Store) (doc : string) (r : PhotoRecord)
    (f : bool) :
  st !! doc = Some r -> flag_only st (<[doc := set_featured f r]> st).
Proof.
  intros Hl d. destruct (decide (d = doc)) as [->|Hne].
  - by rewrite lookup_insert_eq, Hl.
  - by rewrite lookup_insert_ne.
Qed.

Lemma update_featured_Ok (rm : Remote) (doc : string) (flag : bool)
    (p p' : Portfolio) :
  update_featured rm doc flag p = Ok p' ->
  exists r, photos p !! doc = Some r
    /\ update_fault rm doc = None
    /\ p' = {| photos := <[doc := set_featured flag r]> (photos p);
               media := media p;
               journal := journal p ++ [FeaturedSet doc flag] |}.
Proof.
  unfold update_featured. destruct (update_fault rm doc); [discriminate|].
  destruct (photos p !! doc) as [r|]; [|discriminate].
  intros [= <-]. eauto.
Qed.

Lemma update_featured_sound (rm : Remote) (doc : string) (flag : bool)
    (p : Portfolio) (r : PhotoRecord) :
  update_fault rm doc = None -> photos p !! doc = Some r ->
  update_featured rm doc flag p
  = Ok {| photos := <[doc := set_featured flag r]> (photos p);
          media := media p;
          journal := journal p ++ [FeaturedSet doc flag] |}.
Proof. unfold update_featured. by intros -> ->. Qed.

Lemma flagged_cons (flag : bool) (d : string) (docs : list string)
    (st : Store) (r : PhotoRecord) (doc : string) :
  st !! d = Some r ->
  flagged flag docs (<[d := set_featured flag r]> st) doc
  = flagged flag (d :: docs) st doc.
Proof.
  intros Hd. unfold flagged.
  destruct (decide (doc = d)) as [->|Hne].
  - rewrite lookup_insert_eq, Hd. simpl.
    rewrite (bool_decide_eq_true_2 (d ∈ d :: docs)) by apply list_elem_of_here.
    by destruct (bool_decide (d ∈ docs)).
  - rewrite lookup_insert_ne by done.
    destruct (decide (doc ∈ docs)) as [Hin|Hin].
    + rewrite !bool_decide_eq_true_2; [done| |done].
      by apply list_elem_of_further.
    + rewrite !bool_decide_eq_false_2; [done| |done].
      intros H. apply elem_of_cons in H as [?|?]; done.
Qed.

Lemma flagged_skip (flag : bool) (d : string) (docs : list string)
    (st : Store) (doc : string) :
  st !! d = None ->
  flagged flag docs st doc = flagged flag (d :: docs) st doc.
Proof.
  intros Hd. unfold flagged.
  destruct (decide (doc = d)) as [->|Hne].
  - rewrite Hd. by repeat case_bool_decide.
  - destruct (decide (doc ∈ docs)) as [Hin|Hin].
    + rewrite !bool_decide_eq_true_2; [done| |done].
      by apply list_elem_of_further.
    + rewrite !bool_decide_eq_false_2; [done| |done].
      intros H. apply elem_of_cons in H as [?|?]; done.
Qed.

Lemma marking_insert (st : Store) (d doc : string) (r r' : PhotoRecord) :
  st !! d = Some r -> marking (<[d := r']> st) doc = marking st doc.
Proof.
  intros Hd. unfold marking. destruct (decide (doc = d)) as [->|Hne].
  - rewrite lookup_insert_eq, Hd.
    rewrite !bool_decide_eq_true_2; eauto.
  - by rewrite lookup_insert_ne.
Qed.

Lemma setFeatured_loop_spec (rm : Remote) (numbers : list string)
    (p : Portfolio) :
  (forall doc, update_fault rm doc = None) ->
  let r := setFeatured_loop rm numbers p in
  r.1 = Resolved /\ media r.2 = media p
  /\ (forall doc,
        photos r.2 !! doc
        = flagged true (feature_id rm <$> numbers) (photos p) doc)
  /\ journal r.2
     = (journal p
        ++ flat_map (marking (photos p)) (feature_id rm <$> numbers))%list.
Proof.
  intros Hok. revert p. induction numbers as [|num rest IH]; intros p.
  { simpl. repeat split. by rewrite app_nil_r. }
  cbn [setFeatured_loop]. cbv zeta.
  destruct (photos p !! feature_id rm num) as [r0|] eqn:Hd.
  - rewrite (update_featured_sound rm _ true p r0 (Hok _) Hd).
    destruct (IH (say [Marked (feature_id rm num)]
                    {| photos := <[feature_id rm num := set_featured true r0]>
                                   (photos p);
                       media := media p;
                       journal := journal p
                                  ++ [FeaturedSet (feature_id rm num) true] |}))
      as (Hres & Hm & Hst & Hj).
    split; [exact Hres|]. split; [exact Hm|]. split.
    + intros doc. rewrite Hst. cbn [say photos]. rewrite fmap_cons.
      by apply flagged_cons.
    + rewrite Hj. cbn [say photos journal]. rewrite fmap_cons.
      cbn [flat_map]. unfold marking at 2.
      rewrite bool_decide_eq_true_2 by eauto.
      rewrite <- !app_assoc. f_equal. simpl. f_equal. f_equal.
      apply flat_map_ext. intros doc. by eapply marking_insert.
  - destruct (IH (say [NotFound (feature_id rm num)] p))
      as (Hres & Hm & Hst & Hj).
    split; [exact Hres|]. split; [exact Hm|]. split.
    + intros doc. rewrite Hst. cbn [say photos]. rewrite fmap_cons.
      by apply flagged_skip.
    + rewrite Hj. cbn [say photos journal]. rewrite fmap_cons.
      cbn [flat_map]. unfold marking at 2.
      rewrite bool_decide_eq_false_2 by (rewrite Hd; by intros [? ?]).
      by rewrite <- !app_assoc.
Qed.

(** X15: when no update fails, [setFeatured] resolves; it sets the flag
    of exactly the addressed documents that exist, leaving every other
    field, every other document and the assets as they were, and it
    prints one line for each number typed, in order. *)
Theorem setFeatured_marks_addressed (h : Host) (rm : Remote)
    (input : string) (p : Portfolio) :
  (forall doc, update_fault rm doc = None) ->
  let r := setFeatured h rm input p in
  let docs := addressed h rm input in
  r.1 = Resolved /\ media r.2 = media p
  /\ (forall doc,
        photos r.2 !! doc
        = if bool_decide (doc ∈ docs)
          then set_featured true <$> photos p !! doc
          else photos p !! doc)
  /\ journal r.2 = (journal p ++ flat_map (marking (photos p)) docs)%list.
Proof.
  intros Hok. exact (setFeatured_loop_spec rm (numbers_of h input) p Hok).
Qed.

Lemma setFeatured_marks_addressed_witness :
  let r := setFeatured example_host example_remote "7,9" example_desk in
  let docs := addressed example_host example_remote "7,9" in
  r.1 = Resolved /\ media r.2 = media example_desk
  /\ (forall doc,
        photos r.2 !! doc
        = if bool_decide (doc ∈ docs)
          then set_featured true <$> photos example_desk !! doc
          else photos example_desk !! doc)
  /\ journal r.2
     = (journal example_desk
        ++ flat_map (marking (photos example_desk)) docs)%list.
Proof.
  exact (setFeatured_marks_addressed example_host example_remote "7,9"
           example_desk (fun _ => eq_refl)).
Defined.

Example setFeatured_run :
  let r := setFeatured example_host example_remote "7,9" example_desk in
  addressed example_host example_remote "7,9" = ["IMG-0007"; "IMG-0009"]
  /\ featured <$> photos r.2 !! "IMG-0007" = Some true
  /\ photos r.2 !! "IMG-0009" = None
  /\ journal r.2
     = [FeaturedSet "IMG-0007" true; Marked "IMG-0007"; NotFound "IMG-0009"].
Proof. vm_compute. repeat split. Qed.

Lemma setFeatured_loop_frame (rm : Remote) (numbers : list string)
    (p : Portfolio) :
  let r := setFeatured_loop rm numbers p in
  flag_only (photos p) (photos r.2) /\ media r.2 = media p
  /\ forall doc rec, photos p !! doc = Some rec -> featured rec = true ->
       photos r.2 !! doc = Some rec.
Proof.
  revert p. induction numbers as [|num rest IH]; intros p.
  { simpl. split; [apply flag_only_refl|]. auto. }
  cbn [setFeatured_loop]. cbv zeta.
  destruct (photos p !! feature_id rm num) as [r0|] eqn:Hd.
  - destruct (update_featured rm (feature_id rm num) true p) as [p'|msg]
      eqn:Hu.
    + apply update_featured_Ok in Hu as (r1 & Hr1 & _ & ->).
      assert (r1 = r0) by congruence. subst r1.
      match goal with
      | |- context [setFeatured_loop rm rest ?q] =>
          destruct (IH q) as (Hf & Hm & Hk)
      end.
      cbn [say photos media] in Hf, Hm, Hk.
      split; [|split; [exact Hm|]].
      * eapply flag_only_trans; [|exact Hf]. by apply flag_only_insert.
      * intros doc rec Hl Hfeat. apply Hk; [|exact Hfeat].
        destruct (decide (doc = feature_id rm num)) as [->|Hne].
        -- rewrite lookup_insert_eq. rewrite Hd in Hl. injection Hl as ->.
           by rewrite <- Hfeat, set_featured_same.
        -- by rewrite lookup_insert_ne.
    + simpl. split; [apply flag_only_refl|]. auto.
  - apply (IH (say [NotFound (feature_id rm num)] p)).
Qed.

Lemma clearFeatured_loop_frame (rm : Remote) (docs : list string)
    (p : Portfolio) :
  let r := clearFeatured_loop rm docs p in
  flag_only (photos p) (photos r.2) /\ media r.2 = media p
  /\ forall doc rec, photos p !! doc = Some rec -> featured rec = false ->
       photos r.2 !! doc = Some rec.
Proof.
  revert p. induction docs as [|d rest IH]; intros p.
  { simpl. split; [apply flag_only_refl|]. auto. }
  cbn [clearFeatured_loop].
  destruct (update_featured rm d false p) as [p'|msg] eqn:Hu.
  - apply update_featured_Ok in Hu as (r1 & Hr1 & _ & ->).
    match goal with
    | |- context [clearFeatured_loop rm rest ?q] =>
        destruct (IH q) as (Hf & Hm & Hk)
    end.
    cbn [photos media] in Hf, Hm, Hk.
    split; [|split; [exact Hm|]].
    + eapply flag_only_trans; [|exact Hf]. by apply flag_only_insert.
    + intros doc rec Hl Hfeat. apply Hk; [|exact Hfeat].
      destruct (decide (doc = d)) as [->|Hne].
      * rewrite lookup_insert_eq. rewrite Hr1 in Hl. injection Hl as ->.
        by rewrite <- Hfeat, set_featured_same.
      * by rewrite lookup_insert_ne.
  - simpl. split; [apply flag_only_refl|]. auto.
Qed.

(** X16: whether their updates fail or not, [setFeatured] and
    [clearFeatured] create no document, delete none, and change no asset
    and no field but the flag; [setFeatured] leaves a featured document as
    it is, [clearFeatured] one that is not featured. *)
Theorem featured_commands_change_flags_only (h : Host) (rm : Remote)
    (input : string) (p : Portfolio) :
  let s := setFeatured h rm input p in
  let c := clearFeatured rm p in
  (flag_only (photos p) (photos s.2) /\ media s.2 = media p
   /\ forall doc rec, photos p !! doc = Some rec -> featured rec = true ->
        photos s.2 !! doc = Some rec)
  /\ (flag_only (photos p) (photos c.2) /\ media c.2 = media p
      /\ forall doc rec, photos p !! doc = Some rec -> featured rec = false ->
           photos c.2 !! doc = Some rec).
Proof.
  split; [apply setFeatured_loop_frame | apply clearFeatured_loop_frame].
Qed.

Lemma sublist_List_filter {A : Type} (f : A -> bool) (l : list A) :
  List.filter f l `sublist_of` l.
Proof.
  induction l as [|x l IH]; [constructor|]. simpl.
  destruct (f x); by constructor.
Qed.

Lemma elem_of_snapshot_ids (docs : list (string * PhotoRecord)) (d : string) :
  d ∈ snapshot_ids docs <-> exists r, (d, r) ∈ docs.
Proof.
  unfold snapshot_ids. rewrite merge_sort_Permutation, list_elem_of_fmap.
  split.
  - intros ([d' r] & -> & Hin). eauto.
  - intros [r Hin]. by exists (d, r).
Qed.

Lemma elem_of_featured_docs (st : Store) (d : string) :
  d ∈ featured_docs st
  <-> exists r, st !! d = Some r /\ featured r = true.
Proof.
  unfold featured_docs. rewrite elem_of_snapshot_ids. split.
  - intros [r Hin]. apply list_elem_of_In, filter_In in Hin as [Hin Hf].
    apply list_elem_of_In, elem_of_map_to_list in Hin. eauto.
  - intros (r & Hl & Hf). exists r. apply list_elem_of_In, filter_In.
    split; [|exact Hf]. by apply list_elem_of_In, elem_of_map_to_list.
Qed.

Lemma clearFeatured_loop_spec (rm : Remote) (docs : list string)
    (p : Portfolio) :
  (forall doc, update_fault rm doc = None) ->
  (forall d, d ∈ docs -> is_Some (photos p !! d)) ->
  exists st',
    clearFeatured_loop rm docs p
    = (Resolved,
       {| photos := st'; media := media p;
          journal := journal p
                     ++ ((fun d => FeaturedSet d false) <$> docs)
                     ++ [FlagsRemoved] |})
    /\ forall doc, st' !! doc = flagged false docs (photos p) doc.
Proof.
  intros Hok. revert p. induction docs as [|d rest IH]; intros p Hin.
  { exists (photos p). split; [reflexivity|]. intros doc. reflexivity. }
  cbn [clearFeatured_loop].
  destruct (Hin d) as [r0 Hd]; [apply list_elem_of_here|].
  rewrite (update_featured_sound rm d false p r0 (Hok _) Hd).
  match goal with
  | |- context [clearFeatured_loop rm rest ?q] =>
      destruct (IH q) as (st' & -> & Hst)
  end.
  { intros d' Hd'. cbn [photos].
    destruct (decide (d' = d)) as [->|Hne];
      [rewrite lookup_insert_eq; eauto|].
    rewrite lookup_insert_ne by done. apply Hin. by apply list_elem_of_further. }
  exists st'. split.
  - cbn [photos media journal]. rewrite fmap_cons, <- !app_assoc. reflexivity.
  - intros doc. rewrite Hst. cbn [photos]. by apply flagged_cons.
Qed.

Lemma clearFeatured_fault_free (rm : Remote) (p : Portfolio) :
  (forall doc, update_fault rm doc = None) ->
  clearFeatured rm p
  = (Resolved,
     {| photos := set_featured false <$> photos p;
        media := media p;
        journal := journal p
                   ++ ((fun d => FeaturedSet d false)
                         <$> featured_docs (photos p))
                   ++ [FlagsRemoved] |}).
Proof.
  intros Hok. unfold clearFeatured.
  destruct (clearFeatured_loop_spec rm (featured_docs (photos p)) p Hok)
    as (st' & -> & Hst).
  { intros d Hd. apply elem_of_featured_docs in Hd as (r & -> & _). eauto. }
  f_equal. f_equal. apply map_eq. intros doc.
  rewrite Hst, lookup_fmap. unfold flagged.
  case_bool_decide as Hin; [reflexivity|].
  destruct (photos p !! doc) as [r|] eqn:Hl; [|reflexivity].
  simpl. f_equal. destruct (featured r) eqn:Hf.
  - exfalso. apply Hin. apply elem_of_featured_docs. eauto.
  - by rewrite <- Hf, set_featured_same.
Qed.

(** X17: when no update fails, [clearFeatured] resolves and leaves the
    store with every flag off and nothing else changed; it updates the
    featured documents, each once, in the order of their ids, and no
    other. *)
Theorem clearFeatured_clears_all (rm : Remote) (p : Portfolio) :
  (forall doc, update_fault rm doc = None) ->
  clearFeatured rm p
  = (Resolved,
     {| photos := set_featured false <$> photos p;
        media := media p;
        journal := journal p
                   ++ ((fun d => FeaturedSet d false)
                         <$> featured_docs (photos p))
                   ++ [FlagsRemoved] |})
  /\ StronglySorted str_le (featured_docs (photos p))
  /\ NoDup (featured_docs (photos p))
  /\ forall doc, doc ∈ featured_docs (photos p)
       <-> exists r, photos p !! doc = Some r /\ featured r = true.
Proof.
  intros Hok. split; [by apply clearFeatured_fault_free|split; [|split]].
  - apply StronglySorted_merge_sort; apply _.
  - unfold featured_docs, snapshot_ids. rewrite merge_sort_Permutation.
    apply (sublist_NoDup _ (map_to_list (photos p)).*1);
      [apply NoDup_fst_map_to_list|].
    apply fmap_sublist, sublist_List_filter.
  - apply elem_of_featured_docs.
Qed.

Lemma clearFeatured_clears_all_witness :
  clearFeatured example_remote featured_desk
  = (Resolved,
     {| photos := set_featured false <$> photos featured_desk;
        media := media featured_desk;
        journal := journal featured_desk
                   ++ ((fun d => FeaturedSet d false)
                         <$> featured_docs (photos featured_desk))
                   ++ [FlagsRemoved] |})
  /\ StronglySorted str_le (featured_docs (photos featured_desk))
  /\ NoDup (featured_docs (photos featured_desk))
  /\ forall doc, doc ∈ featured_docs (photos featured_desk)
       <-> exists r, photos featured_desk !! doc = Some r
                     /\ featured r = true.
Proof.
  exact (clearFeatured_clears_all example_remote featured_desk
           (fun _ => eq_refl)).
Defined.

Example clearFeatured_run :
  featured_docs store_featured = ["IMG-0001"]
  /\ featured <$> photos (clearFeatured example_remote featured_desk).2
                    !! "IMG-0001" = Some false.
Proof. vm_compute. split; reflexivity. Qed.

(** X18: the two commands compose to a selection: after [clearFeatured]
    and then [setFeatured], without a failed update, a document is
    featured exactly when the answer addresses it, and nothing else has
    changed. *)
Theorem clear_then_set_selects (h : Host) (rm : Remote) (input : string)
    (p : Portfolio) :
  (forall doc, update_fault rm doc = None) ->
  let r := setFeatured h rm input (clearFeatured rm p).2 in
  r.1 = Resolved /\ media r.2 = media p
  /\ forall doc,
       photos r.2 !! doc
       = set_featured (bool_decide (doc ∈ addressed h rm input))
           <$> photos p !! doc.
Proof.
  intros Hok r. subst r.
  destruct (setFeatured_loop_spec rm (numbers_of h input)
              (clearFeatured rm p).2 Hok) as (Hres & Hm & Hst & _).
  pose proof (clearFeatured_fault_free rm p Hok) as Hc.
  fold (setFeatured h rm input (clearFeatured rm p).2) in Hres, Hm, Hst.
  rewrite Hc in Hres, Hm, Hst |- *. cbn [snd photos media] in *.
  split; [exact Hres|]. split; [exact Hm|].
  intros doc. rewrite Hst. unfold flagged, addressed.
  rewrite lookup_fmap. case_bool_decide; [|reflexivity].
  by destruct (photos p !! doc).
Qed.

(** ** Addressing a document by its number *)

Lemma append_nonempty (a b : string) : b <> "" -> a ++ b <> "".
Proof. destruct a; [done|discriminate]. Qed.

Lemma nonempty_true (s : string) : s <> "" -> nonempty s = true.
Proof.
  intros H. unfold nonempty. destruct (String.eqb s "") eqn:E; [|reflexivity].
  apply String.eqb_eq in E. contradiction.
Qed.

Lemma decimal_zeros (n : N) (k : nat) :
  n < 2 ^ 53 -> decimal (Str.repeat "0" k ++ Str.ofN n) = true.
Proof.
  intros Hn. unfold decimal.
  rewrite nonempty_true by apply append_nonempty, ofN_nonempty.
  rewrite all_digits_app, all_digits_zeros, all_digits_ofN.
  unfold Str.parseInt. rewrite parse_acc_zeros.
  fold (Str.parseInt (Str.ofN n)). rewrite parseInt_ofN.
  by apply N.ltb_lt.
Qed.

Lemma feature_id_zeros (rm : Remote) (n : N) (k : nat) :
  n < 2 ^ 53 -> feature_id rm (Str.repeat "0" k ++ Str.ofN n) = img_id n.
Proof.
  intros Hn. unfold feature_id. rewrite decimal_zeros by assumption.
  unfold Str.parseInt. rewrite parse_acc_zeros.
  fold (Str.parseInt (Str.ofN n)). by rewrite parseInt_ofN.
Qed.

(** X14: a number typed in decimal digits, with or without leading
    zeros, addresses the identifier [img_id] of that number, so every
    identifier an upload assigns is addressed by its number and by its
    padded number, and the number is read back from it. *)
Theorem feature_id_round_trip (rm : Remote) (n : N) (k : nat) :
  n < 2 ^ 53 ->
  feature_id rm (Str.repeat "0" k ++ Str.ofN n) = img_id n
  /\ feature_id rm (Str.ofN n) = img_id n
  /\ feature_id rm (pad n) = img_id n
  /\ id_number (feature_id rm (Str.ofN n)) = Some n
  /\ forall counter pending i x,
       (id <$> uploadQueue counter pending) !! i = Some x ->
       n = counter + N.of_nat i -> feature_id rm (Str.ofN n) = x.
Proof.
  intros Hn.
  assert (H0 : feature_id rm (Str.ofN n) = img_id n)
    by exact (feature_id_zeros rm n 0 Hn).
  split; [by apply feature_id_zeros|]. split; [exact H0|].
  split; [exact (feature_id_zeros rm n _ Hn)|].
  split; [rewrite H0; apply id_number_img_id|].
  intros counter pending i x Hx ->. rewrite H0.
  symmetry. by apply uploadQueue_id_lookup in Hx.
Qed.

Lemma feature_id_round_trip_witness :
  feature_id example_remote (Str.repeat "0" 2 ++ Str.ofN 7) = img_id 7
  /\ feature_id example_remote (Str.ofN 7) = img_id 7
  /\ feature_id example_remote (pad 7) = img_id 7
  /\ id_number (feature_id example_remote (Str.ofN 7)) = Some 7
  /\ forall counter pending i x,
       (id <$> uploadQueue counter pending) !! i = Some x ->
       7 = counter + N.of_nat i -> feature_id example_remote (Str.ofN 7) = x.
Proof. exact (feature_id_round_trip example_remote 7 2 eq_refl). Defined.

Lemma clear_then_set_selects_witness :
  let r := setFeatured example_host example_remote "0"
             (clearFeatured example_remote featured_desk).2 in
  r.1 = Resolved /\ media r.2 = media featured_desk
  /\ forall doc,
       photos r.2 !! doc
       = set_featured
           (bool_decide (doc ∈ addressed example_host example_remote "0"))
           <$> photos featured_desk !! doc.
Proof.
  exact (clear_then_set_selects example_host example_remote "0" featured_desk
           (fun _ => eq_refl)).
Defined.

Example clear_then_set_run :
  let r := setFeatured example_host example_remote "0"
             (clearFeatured example_remote featured_desk).2 in
  featured <$> photos r.2 !! "IMG-0000" = Some true
  /\ featured <$> photos r.2 !! "IMG-0001" = Some false.
Proof. vm_compute. split; reflexivity. Qed.

(** ** Resetting *)

Lemma foldr_delete_all (st : Store) :
  foldr delete st (snapshot_ids (map_to_list st)) = ∅.
Proof.
  apply map_eq. intros doc. rewrite lookup_empty.
  destruct (st !! doc) as [r|] eqn:Hl.
  - apply lookup_foldr_delete. apply elem_of_snapshot_ids.
    exists r. by apply elem_of_map_to_list.
  - destruct (foldr delete st _ !! doc) as [y|] eqn:Hf; [|reflexivity].
    apply lookup_foldr_delete_Some in Hf as [_ Hf]. congruence.
Qed.

Lemma foldr_delete_subseteq (a : Assets) (ids : list string) :
  foldr delete a ids ⊆ a.
Proof.
  apply map_subseteq_spec. intros k x Hk.
  by apply lookup_foldr_delete_Some in Hk as [_ Hk].
Qed.

Lemma size_foldr_delete (a : Assets) (ids : list string) (k : string) :
  k ∈ ids -> is_Some (a !! k) -> (size (foldr delete a ids) < size a)%nat.
Proof.
  intros Hk Hs. apply Nat.le_lt_trans with (size (delete k a)).
  - apply map_subseteq_size, map_subseteq_spec. intros j x Hj.
    apply lookup_foldr_delete_Some in Hj as [Hn Hj].
    rewrite lookup_delete_ne; [exact Hj|]. by intros ->.
  - by apply map_subset_size, delete_subset.
Qed.

Lemma resetCloudinary_loop_listed (rm : Remote) (fuel : nat)
    (cursor : option string) (p p' : Portfolio) (o : outcome) :
  resetCloudinary_loop rm fuel cursor p = Some (o, p') ->
  photos p' = photos p /\ media p' ⊆ media p
  /\ only_listed rm (media p) (media p').
Proof.
  revert cursor p p' o. induction fuel as [|fuel IH]; intros cursor p p' o;
    [discriminate|].
  cbn [resetCloudinary_loop].
  destruct (api_resources rm (media p) CLOUDINARY_FOLDER MAX_RESULTS cursor)
    as [[ids next]|msg] eqn:Hl.
  - destruct ids as [|k0 ids0].
    + intros [= <- <-]. split; [reflexivity|]. split; [reflexivity|].
      intros k. by left.
    + set (ids := k0 :: ids0) in *.
      destruct (delete_fault rm ids) as [msg|].
      * intros [= <- <-]. split; [reflexivity|]. split; [reflexivity|].
        intros k. by left.
      * assert (Hstep : only_listed rm (media p) (foldr delete (media p) ids)).
        { intros k. destruct (decide (k ∈ ids)) as [Hin|Hin].
          - right. exists (media p), cursor, ids, next. auto.
          - left. by apply lookup_foldr_delete_not_elem_of. }
        destruct (more next).
        -- intros Hrec. apply IH in Hrec as (Hp & Hsub & Hlisted).
           cbn [photos media say] in *. split; [exact Hp|]. split.
           ++ etransitivity; [exact Hsub|apply foldr_delete_subseteq].
           ++ intros k.
              destruct (Hlisted k)
                as [Heq | (a1 & c & ids1 & next1 & Ha1 & Hc1 & Hk1)].
              ** rewrite Heq. apply Hstep.
              ** right. exists a1, c, ids1, next1. split; [|by split].
                 etransitivity; [exact Ha1|apply foldr_delete_subseteq].
        -- intros [= <- <-]. cbn [photos media say].
           split; [reflexivity|].
           split; [exact (foldr_delete_subseteq (media p) ids)|].
           exact Hstep.
  - intros [= <- <-]. split; [reflexivity|]. split; [reflexivity|].
    intros k. by left.
Qed.

(** X19: [resetCloudinary] touches no document and adds no asset; every
    asset that is left is as it was, and an asset is gone only if a page
    of the listing named it; so when the listing honours the prefix,
    every asset whose public id does not start with [photo-portfolio] is
    as it was. *)
Theorem resetCloudinary_spares_others (rm : Remote) (fuel : nat)
    (p p' : Portfolio) (o : outcome) :
  resetCloudinary rm fuel p = Some (o, p') ->
  photos p' = photos p /\ media p' ⊆ media p
  /\ only_listed rm (media p) (media p')
  /\ (honours_prefix rm ->
      forall k, String.prefix CLOUDINARY_FOLDER k = false ->
        media p' !! k = media p !! k).
Proof.
  intros Hr. apply resetCloudinary_loop_listed in Hr as (Hp & Hsub & Hl).
  split; [exact Hp|]. split; [exact Hsub|]. split; [exact Hl|].
  intros Hpre k Hk.
  destruct (Hl k) as [Heq | (a1 & c & ids & next & _ & Hc & Hin)];
    [exact Heq|].
  rewrite (Hpre _ _ _ _ Hc k Hin) in Hk. discriminate.
Qed.

Lemma resetCloudinary_loop_ends (rm : Remote) (fuel : nat)
    (cursor : option string) (p : Portfolio) :
  lists_existing rm -> (size (media p) < fuel)%nat ->
  is_Some (resetCloudinary_loop rm fuel cursor p).
Proof.
  intros Hex. revert cursor p. induction fuel as [|fuel IH];
    intros cursor p Hsz; [lia|].
  cbn [resetCloudinary_loop].
  destruct (api_resources rm (media p) CLOUDINARY_FOLDER MAX_RESULTS cursor)
    as [[ids next]|msg] eqn:Hl; [|eauto].
  destruct ids as [|k0 ids0]; [eauto|].
  destruct (delete_fault rm (k0 :: ids0)) as [msg|]; [eauto|].
  destruct (more next); [|eauto].
  apply IH. cbn [media say].
  assert (size (foldr delete (media p) (k0 :: ids0)) < size (media p))%nat;
    [|lia].
  apply (size_foldr_delete _ _ k0); [apply list_elem_of_here|].
  eapply Hex; [exact Hl|apply list_elem_of_here].
Qed.

(** X20: when the listing names only assets that exist, the loop of
    [resetCloudinary] ends: every round but the last deletes an asset, so
    one call more than there are assets is enough. *)
Theorem resetCloudinary_ends (rm : Remote) (fuel : nat) (p : Portfolio) :
  lists_existing rm -> (size (media p) < fuel)%nat ->
  exists o p', resetCloudinary rm fuel p = Some (o, p')
    /\ photos p' = photos p /\ media p' ⊆ media p.
Proof.
  intros Hex Hsz.
  destruct (resetCloudinary_loop_ends rm fuel None p Hex Hsz) as [[o p'] Hr].
  exists o, p'. split; [exact Hr|].
  apply resetCloudinary_loop_listed in Hr as (Hp & Hsub & _). auto.
Qed.

Lemma resetCloudinary_photos (rm : Remote) (fuel : nat) (p p' : Portfolio)
    (o : outcome) :
  resetCloudinary rm fuel p = Some (o, p') -> photos p' = photos p.
Proof. intros Hr. by apply resetCloudinary_loop_listed in Hr as (Hp & _). Qed.

(** X21: [resetDatabase] deletes nothing unless the answer is exactly
    [RESET]; with that answer the documents go all at once or, when the
    commit fails, not at all, and no asset is touched before the documents
    are gone; a rejection after the commit leaves the store empty. *)
Theorem resetDatabase_needs_token (rm : Remote) (fuel : nat) (first : string)
    (p p' : Portfolio) (o : outcome) :
  resetDatabase rm fuel first p = Some (o, p') ->
  (first <> "RESET" ->
   o = Resolved /\ photos p' = photos p /\ media p' = media p
   /\ journal p' = (journal p ++ [Danger])%list)
  /\ (first = "RESET" ->
      (photos p' = ∅
       /\ commit_fault rm (snapshot_ids (map_to_list (photos p))) = None)
      \/ (exists msg,
            o = Rejected msg
            /\ commit_fault rm (snapshot_ids (map_to_list (photos p)))
               = Some msg
            /\ photos p' = photos p /\ media p' = media p))
  /\ (o = Resolved -> first = "RESET" ->
      photos p' = ∅ /\ CloudinaryCleared ∈ journal p').
Proof.
  unfold resetDatabase. cbv zeta. cbn [say photos media journal].
  destruct (String.eqb first "RESET") eqn:Heq; cbn [negb].
  - apply String.eqb_eq in Heq.
    destruct (commit_fault rm _) as [msg|] eqn:Hc.
    + intros [= <- <-]. split; [done|]. split; [|done].
      intros _. right. exists msg. auto.
    + match goal with
      | |- context [resetCloudinary rm fuel ?q] =>
          destruct (resetCloudinary rm fuel q) as [[o1 p1]|] eqn:Hr;
            [|discriminate]
      end.
      apply resetCloudinary_photos in Hr as Hp. cbn [photos] in Hp.
      rewrite foldr_delete_all in Hp.
      destruct o1; intros [= <- <-].
      * split; [done|]. split; [by left|]. intros _ _. split; [exact Hp|].
        cbn [say journal]. apply elem_of_app. right. apply list_elem_of_here.
      * split; [done|]. split; [by left|]. discriminate.
  - apply String.eqb_neq in Heq. intros [= <- <-].
    split; [done|]. split; [done|]. done.
Qed.

(** ** A reset that resolves is complete *)

Lemma resetCloudinary_loop_wipes (rm : Remote)
    (after : option string -> string -> Prop) (fuel : nat)
    (cursor : option string) (p p' : Portfolio) :
  pages_through rm after ->
  (forall k, String.prefix CLOUDINARY_FOLDER k = true ->
     is_Some (media p !! k) -> after cursor k) ->
  resetCloudinary_loop rm fuel cursor p = Some (Resolved, p') ->
  forall k, String.prefix CLOUDINARY_FOLDER k = true -> media p' !! k = None.
Proof.
  intros [_ Hpages]. revert cursor p p'.
  induction fuel as [|fuel IH]; intros cursor p p' Hinv; [discriminate|].
  cbn [resetCloudinary_loop].
  destruct (api_resources rm (media p) CLOUDINARY_FOLDER MAX_RESULTS cursor)
    as [[ids next]|msg] eqn:Hl; [|discriminate].
  specialize (Hpages _ _ _ _ Hl).
  destruct ids as [|k0 ids0].
  - intros [= <-] k Hk. cbn [say media].
    destruct (media p !! k) as [x|] eqn:Hx; [|reflexivity].
    destruct (Hpages k Hk) as [Hin | (Hne & _)]; [eauto|by apply Hinv; eauto| |];
      [by apply elem_of_nil in Hin|done].
  - set (ids := k0 :: ids0) in *.
    destruct (delete_fault rm ids) as [msg|]; [discriminate|].
    destruct (more next) eqn:Hmore.
    + intros Hrec. eapply IH; [|exact Hrec].
      intros k Hk [x Hx]. cbn [media say] in Hx.
      change (foldr delete (media p) ids !! k = Some x) in Hx.
      apply lookup_foldr_delete_Some in Hx as [Hnot Hx].
      destruct (Hpages k Hk) as [Hin | (_ & _ & Haft)];
        [eauto|apply Hinv; eauto|contradiction|exact Haft].
    + intros [= <-] k Hk. cbn [say media].
      change (foldr delete (media p) ids !! k = None).
      destruct (decide (k ∈ ids)) as [Hin|Hnot];
        [by apply lookup_foldr_delete|].
      rewrite lookup_foldr_delete_not_elem_of by done.
      destruct (media p !! k) as [x|] eqn:Hx; [|reflexivity].
      destruct (Hpages k Hk) as [Hin | (_ & Hm & _)];
        [eauto|by apply Hinv; eauto|contradiction|congruence].
Qed.

(** X22: when the listing pages through the assets under the prefix, a
    [resetCloudinary] that resolves leaves no asset whose public id starts
    with [photo-portfolio], and a [resetDatabase] that resolves on the
    answer [RESET] leaves, besides, no document. *)
Theorem resolved_reset_is_complete (rm : Remote)
    (after : option string -> string -> Prop) (fuel : nat) (p : Portfolio) :
  pages_through rm after ->
  (forall p', resetCloudinary rm fuel p = Some (Resolved, p') ->
     forall k, String.prefix CLOUDINARY_FOLDER k = true ->
       media p' !! k = None)
  /\ (forall p', resetDatabase rm fuel "RESET" p = Some (Resolved, p') ->
        photos p' = ∅
        /\ forall k, String.prefix CLOUDINARY_FOLDER k = true ->
             media p' !! k = None).
Proof.
  intros Hpages. split; intros p'.
  - intros Hr. eapply resetCloudinary_loop_wipes; [exact Hpages| |exact Hr].
    intros k _ _. by destruct Hpages as [H0 _].
  - unfold resetDatabase. cbv zeta. cbn [String.eqb Ascii.eqb Bool.eqb negb].
    destruct (commit_fault rm _); [discriminate|].
    match goal with
    | |- context [resetCloudinary rm fuel ?q] =>
        destruct (resetCloudinary rm fuel q) as [[[|msg] p1]|] eqn:Hr;
          try discriminate
    end.
    intros [= <-]. cbn [say photos media]. split.
    + apply resetCloudinary_photos in Hr. cbn [photos say] in Hr.
      by rewrite foldr_delete_all in Hr.
    + eapply resetCloudinary_loop_wipes; [exact Hpages| |exact Hr].
      intros k _ _. by destruct Hpages as [H0 _].
Qed.

Lemma example_remote_pages : pages_through example_remote (fun _ _ => True).
Proof.
  split; [done|]. intros a c ids next [= <- _] k Hk [x Hx] _. left.
  apply elem_of_List_filter. split; [|exact Hk].
  apply list_elem_of_fmap. exists (k, x). split; [reflexivity|].
  by apply elem_of_map_to_list.
Qed.

Lemma resolved_reset_is_complete_witness :
  (forall p', resetCloudinary example_remote 2 full_desk
              = Some (Resolved, p') ->
     forall k, String.prefix CLOUDINARY_FOLDER k = true ->
       media p' !! k = None)
  /\ (forall p', resetDatabase example_remote 2 "RESET" full_desk
                 = Some (Resolved, p') ->
        photos p' = ∅
        /\ forall k, String.prefix CLOUDINARY_FOLDER k = true ->
             media p' !! k = None).
Proof.
  exact (resolved_reset_is_complete example_remote (fun _ _ => True) 2
           full_desk example_remote_pages).
Defined.

(** ** The menu *)

Lemma flag_only_is_Some (st st' : Store) (doc : string) :
  flag_only st st' -> is_Some (st !! doc) -> is_Some (st' !! doc).
Proof.
  intros Hf [r Hr]. specialize (Hf doc). rewrite Hr in Hf.
  destruct (st' !! doc); [eauto|discriminate].
Qed.

Lemma setFeatured_frame (h : Host) (rm : Remote) (input : string)
    (p : Portfolio) :
  flag_only (photos p) (photos (setFeatured h rm input p).2).
Proof. apply setFeatured_loop_frame. Qed.

Lemma clearFeatured_frame (rm : Remote) (p : Portfolio) :
  flag_only (photos p) (photos (clearFeatured rm p).2).
Proof. apply clearFeatured_loop_frame. Qed.

Lemma main_loop_keeps (h : Host) (rm : Remote) (scheds : list (list nat))
    (fuel n : nat) (answers : list string) (st : Store) (a : Assets)
    (out : list line) (doc : string) :
  (length answers <= n)%nat -> "RESET" ∉ answers ->
  is_Some (st !! doc) ->
  is_Some (s_store (main_loop h rm scheds fuel answers st a out) !! doc).
Proof.
  revert answers st a out.
  induction n as [|n IH]; intros answers st a out Hn Hno Hdoc.
  { destruct answers; [exact Hdoc|simpl in Hn; lia]. }
  destruct answers as [|choice rest]; [exact Hdoc|].
  cbn [main_loop]. cbn [length] in Hn.
  assert (Hrest : "RESET" ∉ rest).
  { intros Hin. apply Hno. by apply list_elem_of_further. }
  destruct (String.eqb choice "1").
  { destruct rest as [|answer rest']; [exact Hdoc|].
    pose proof (uploadPhotos_kept h (trim h answer) scheds st a)
      as (_ & _ & Hdom & _).
    destruct (uploadPhotos h (trim h answer) scheds st a).1;
      cbn [s_store]; by apply Hdom. }
  destruct (String.eqb choice "2").
  { destruct rest as [|input rest']; [exact Hdoc|].
    cbn [after_command].
    pose proof (setFeatured_frame h rm input (desk st a)) as Hf.
    destruct (setFeatured h rm input (desk st a)) as [[|msg] p];
      cbn [snd desk photos] in Hf.
    - apply IH; [cbn [length] in Hn; lia| |by eapply flag_only_is_Some].
      intros Hin. apply Hrest. by apply list_elem_of_further.
    - cbn [s_store]. by eapply flag_only_is_Some. }
  destruct (String.eqb choice "3").
  { cbn [after_command].
    pose proof (clearFeatured_frame rm (desk st a)) as Hf.
    destruct (clearFeatured rm (desk st a)) as [[|msg] p];
      cbn [snd desk photos] in Hf.
    - apply IH; [lia|exact Hrest|by eapply flag_only_is_Some].
    - cbn [s_store]. by eapply flag_only_is_Some. }
  destruct (String.eqb choice "4").
  { destruct rest as [|first rest']; [exact Hdoc|].
    assert (Hfirst : String.eqb first "RESET" = false).
    { apply String.eqb_neq. intros ->. apply Hrest. apply list_elem_of_here. }
    unfold resetDatabase. rewrite Hfirst. cbn [negb after_command say photos
      media desk].
    apply IH; [cbn [length] in Hn; lia| |exact Hdoc].
    intros Hin. apply Hrest. by apply list_elem_of_further. }
  destruct (String.eqb choice "5"); [exact Hdoc|].
  apply IH; [lia|exact Hrest|exact Hdoc].
Qed.

(** X23: whatever is typed at the menu and at its prompts, no document
    of the store is deleted in a session in which [RESET] is never
    typed. *)
Theorem session_keeps_documents (h : Host) (rm : Remote)
    (scheds : list (list nat)) (fuel : nat) (answers : list string)
    (st : Store) (a : Assets) (doc : string) :
  "RESET" ∉ answers -> is_Some (st !! doc) ->
  is_Some (s_store (main h rm scheds fuel answers st a) !! doc).
Proof. intros. by eapply main_loop_keeps. Qed.

Lemma unknown_choice_eqb (c : string) :
  unknown_choice c ->
  String.eqb c "1" = false /\ String.eqb c "2" = false
  /\ String.eqb c "3" = false /\ String.eqb c "4" = false
  /\ String.eqb c "5" = false.
Proof.
  unfold unknown_choice. intros Hc.
  repeat split; apply String.eqb_neq; intros ->; apply Hc;
    repeat first [apply list_elem_of_here | apply list_elem_of_further].
Qed.

Lemma main_loop_unknown (h : Host) (rm : Remote) (scheds : list (list nat))
    (fuel : nat) (junk answers : list string) (st : Store) (a : Assets)
    (out : list line) :
  Forall unknown_choice junk ->
  main_loop h rm scheds fuel (junk ++ answers) st a out
  = main_loop h rm scheds fuel answers st a
      (out ++ replicate (length junk) Menu).
Proof.
  intros Hj. revert out. induction Hj as [|c junk Hc _ IH]; intros out.
  { simpl. by rewrite app_nil_r. }
  destruct (unknown_choice_eqb c Hc) as (H1 & H2 & H3 & H4 & H5).
  cbn [app main_loop]. rewrite H1, H2, H3, H4, H5, IH.
  cbn [length replicate]. by rewrite <- app_assoc.
Qed.

(** X24: lines that are none of the five choices only bring the menu
    back; choosing [1] runs one upload and ends the process, with status 0
    when the upload resolved and 1 when it was rejected, whatever was
    typed after it. *)
Theorem menu_upload_exits (h : Host) (rm : Remote) (scheds : list (list nat))
    (fuel : nat) (junk rest : list string) (answer : string) (st : Store)
    (a : Assets) :
  Forall unknown_choice junk ->
  let r := uploadPhotos h (trim h answer) scheds st a in
  let s := main h rm scheds fuel (junk ++ "1" :: answer :: rest) st a in
  ending_of s = Exited (match r.1 with Resolved => 0 | Rejected _ => 1 end)
  /\ s_store s = store r.2 /\ s_assets s = assets r.2
  /\ transcript s
     = (replicate (S (length junk)) Menu ++ (Upload <$> log r.2)
        ++ [match r.1 with
            | Resolved => AllUploaded
            | Rejected msg => UploadFailed msg
            end])%list.
Proof.
  intros Hj r s. subst s. unfold main.
  rewrite main_loop_unknown by assumption.
  cbn [main_loop String.eqb Ascii.eqb Bool.eqb]. fold r.
  replace (S (length junk)) with (length junk + 1)%nat by lia.
  rewrite replicate_add. cbn [replicate app].
  destruct r.1; cbn [ending_of s_store s_assets transcript];
    rewrite <- ?app_assoc; auto.
Qed.

(** ** The runs of the examples *)

Lemma example_run_resolved :
  (uploadPhotos example_host "list.txt" [] ∅ ∅).1 = Resolved.
Proof. vm_compute. reflexivity. Qed.

Lemma example_first_planned : example_first ∈ plan example_host "list.txt" ∅.
Proof.
  assert (H : plan example_host "list.txt" ∅
              = example_first :: drop 1 (plan example_host "list.txt" ∅))
    by (vm_compute; reflexivity).
  rewrite H. apply list_elem_of_here.
Qed.

Lemma example_plan_new (it : QueueItem) :
  it ∈ plan example_host "list.txt" ∅ -> (∅ : Store) !! id it = None.
Proof. intros _. apply lookup_empty. Qed.

Lemma resolved_run_records_queue_witness :
  let r := uploadPhotos example_host "list.txt" [] ∅ ∅ in
  hashExists (store r.2) (q_hash example_first) = true
  /\ exists it', it' ∈ plan example_host "list.txt" ∅
                 /\ hash <$> store r.2 !! id it'
                    = Some (q_hash example_first).
Proof.
  exact (resolved_run_records_queue example_host "list.txt" [] ∅ ∅
           example_first example_run_resolved example_first_planned).
Defined.

Lemma rerun_uploads_nothing_witness :
  let r := uploadPhotos example_host "list.txt" [] ∅ ∅ in
  let r' := uploadPhotos example_host "list.txt" round_robin
              (store r.2) (assets r.2) in
  plan example_host "list.txt" (store r.2) = []
  /\ r'.1 = Resolved /\ store r'.2 = store r.2 /\ assets r'.2 = assets r.2
  /\ called_items (log r'.2) = [].
Proof.
  exact (rerun_uploads_nothing example_host "list.txt" [] round_robin ∅ ∅
           example_run_resolved example_plan_new).
Defined.

Lemma example_progress_line :
  ProgressLine 2 3 ∈ log (uploadPhotos example_host "list.txt" [] ∅ ∅).2.
Proof.
  apply (list_elem_of_lookup_2 _ 12). vm_compute. reflexivity.
Qed.

Lemma example_found : (found example_host "list.txt" <= CHECKED_FILES)%nat.
Proof.
  assert (H : found example_host "list.txt" = 3%nat)
    by (vm_compute; reflexivity).
  rewrite H. unfold CHECKED_FILES. lia.
Qed.

Lemma run_progress_renders_witness :
  3%nat = found example_host "list.txt"
  /\ (0 < 2 <= length (plan example_host "list.txt" ∅))%nat
  /\ exists filled percent : nat,
       progress_text example_host 2 3
       = Ok (progress_line filled percent 2 3).
Proof.
  exact (run_progress_renders example_host "list.txt" [] ∅ ∅ 2 3
           example_progress_line example_found).
Defined.

Lemma example_wipe :
  resetCloudinary example_remote 2 full_desk = Some (Resolved, wiped_desk).
Proof. vm_compute. reflexivity. Qed.

Lemma example_remote_honours_prefix : honours_prefix example_remote.
Proof.
  intros a c ids next [= <- _] k Hk.
  by apply elem_of_List_filter in Hk as [_ Hk].
Qed.

Lemma resetCloudinary_spares_others_witness :
  photos wiped_desk = photos full_desk /\ media wiped_desk ⊆ media full_desk
  /\ only_listed example_remote (media full_desk) (media wiped_desk)
  /\ (forall k, String.prefix CLOUDINARY_FOLDER k = false ->
        media wiped_desk !! k = media full_desk !! k).
Proof.
  exact (let H := resetCloudinary_spares_others example_remote 2 full_desk
                    wiped_desk Resolved example_wipe in
         conj (proj1 H)
           (conj (proj1 (proj2 H))
              (conj (proj1 (proj2 (proj2 H)))
                 (proj2 (proj2 (proj2 H)) example_remote_honours_prefix)))).
Defined.

(** The asset outside the folder is left, the two inside are gone. *)
Example resetCloudinary_run :
  is_Some (media wiped_desk !! "logo")
  /\ media wiped_desk !! "photo-portfolio/IMG-0000" = None
  /\ media wiped_desk !! "photo-portfolio/IMG-0001" = None.
Proof. vm_compute. eauto. Qed.

Lemma example_remote_lists_existing : lists_existing example_remote.
Proof.
  intros a c ids next [= <- _] k Hk.
  apply elem_of_List_filter in Hk as [Hk _].
  apply list_elem_of_fmap in Hk as ([k' x] & -> & Hk).
  apply elem_of_map_to_list in Hk. eauto.
Qed.

Lemma example_media_size : (size (media full_desk) < 4)%nat.
Proof.
  assert (H : size (media full_desk) = 3%nat) by (vm_compute; reflexivity).
  rewrite H. lia.
Qed.

Lemma resetCloudinary_ends_witness :
  exists o p', resetCloudinary example_remote 4 full_desk = Some (o, p')
    /\ photos p' = photos full_desk /\ media p' ⊆ media full_desk.
Proof.
  exact (resetCloudinary_ends example_remote 4 full_desk
           example_remote_lists_existing example_media_size).
Defined.

Lemma example_reset :
  resetDatabase example_remote 2 "RESET" full_desk
  = Some (Resolved, reset_desk).
Proof. vm_compute. reflexivity. Qed.

Lemma resetDatabase_needs_token_witness :
  ("RESET" <> "RESET" ->
   Resolved = Resolved /\ photos reset_desk = photos full_desk
   /\ media reset_desk = media full_desk
   /\ journal reset_desk = (journal full_desk ++ [Danger])%list)
  /\ ("RESET" = "RESET" ->
      (photos reset_desk = ∅
       /\ commit_fault example_remote
            (snapshot_ids (map_to_list (photos full_desk))) = None)
      \/ (exists msg,
            Resolved = Rejected msg
            /\ commit_fault example_remote
                 (snapshot_ids (map_to_list (photos full_desk))) = Some msg
            /\ photos reset_desk = photos full_desk
            /\ media reset_desk = media full_desk))
  /\ (Resolved = Resolved -> "RESET" = "RESET" ->
      photos reset_desk = ∅ /\ CloudinaryCleared ∈ journal reset_desk).
Proof.
  exact (resetDatabase_needs_token example_remote 2 "RESET" full_desk
           reset_desk Resolved example_reset).
Defined.

(** A rejection after the commit: the documents are gone and the assets
    are all there. *)
Example resetDatabase_offline_run :
  option_map (fun r => (r.1, size (photos r.2), size (media r.2)))
    (resetDatabase example_remote_offline 2 "RESET" full_desk)
  = Some (Rejected "ETIMEDOUT", 0%nat, 3%nat).
Proof. vm_compute. reflexivity. Qed.

Lemma example_no_reset : "RESET" ∉ ["3"; "2"; "7"; "4"; "reset"; "x"].
Proof.
  intros H. repeat (apply elem_of_cons in H as [H|H]; [discriminate|]).
  by apply elem_of_nil in H.
Qed.

Lemma store_0007_has : is_Some (store_0007 !! "IMG-0007").
Proof. vm_compute. eauto. Qed.

Lemma session_keeps_documents_witness :
  is_Some (s_store (main example_host example_remote [] 2
                      ["3"; "2"; "7"; "4"; "reset"; "x"] store_0007 ∅)
             !! "IMG-0007").
Proof.
  exact (session_keeps_documents example_host example_remote [] 2
           ["3"; "2"; "7"; "4"; "reset"; "x"] store_0007 ∅ "IMG-0007"
           example_no_reset store_0007_has).
Defined.

Lemma example_junk : Forall unknown_choice ["0"; "upload"].
Proof.
  repeat constructor; intros H;
    repeat (apply elem_of_cons in H as [H|H]; [discriminate|]);
    by apply elem_of_nil in H.
Qed.

Lemma menu_upload_exits_witness :
  let r := uploadPhotos example_host (trim example_host "list.txt") [] ∅ ∅ in
  let s := main example_host example_remote [] 2
             (["0"; "upload"] ++ "1" :: "list.txt" :: ["5"]) ∅ ∅ in
  ending_of s = Exited (match r.1 with Resolved => 0 | Rejected _ => 1 end)
  /\ s_store s = store r.2 /\ s_assets s = assets r.2
  /\ transcript s
     = (replicate (S (length ["0"; "upload"])) Menu ++ (Upload <$> log r.2)
        ++ [match r.1 with
            | Resolved => AllUploaded
            | Rejected msg => UploadFailed msg
            end])%list.
Proof.
  exact (menu_upload_exits example_host example_remote [] 2 ["0"; "upload"]
           ["5"] "list.txt" ∅ ∅ example_junk).
Defined.

(** A session that marks a photo and leaves. *)
Example session_run :
  let s := main example_host example_remote [] 2 ["2"; "7"; "9"; "5"]
             store_0007 ∅ in
  ending_of s = Exited 0
  /\ featured <$> s_store s !! "IMG-0007" = Some true
  /\ transcript s
     = [Menu; Notice (FeaturedSet "IMG-0007" true); Notice (Marked "IMG-0007");
        Menu; Menu].
Proof. vm_compute. repeat split. Qed.

(** ** How the unit of a queue item ends *)

Lemma upload_same (h : Host) (req : UploadRequest) (a a0 : Assets) :
  a !! Cloud.key req = a0 !! Cloud.key req ->
  match Cloud.upload h req a with
  | Err msg => Cloud.upload h req a0 = Err msg
  | Ok (up, a') =>
      exists a0', Cloud.upload h req a0 = Ok (up, a0')
                  /\ a' !! Cloud.key req = a0' !! Cloud.key req
  end.
Proof.
  intros Hkey. unfold Cloud.upload. rewrite Hkey.
  destruct (upload_fault h (u_file req) (public_id req)); [done|].
  destruct (bool_decide (is_Some (a0 !! Cloud.key req)) && negb (overwrite req));
    [done|].
  destruct (Cloud.render (transformation req) (image_size h (u_file req)))
    as [wd ht].
  eexists. split; [reflexivity|]. by rewrite !lookup_insert_eq.
Qed.

Lemma step_log (h : Host) (total : nat) (x : QueueItem) (p : phase)
    (w : World) (o : option phase) (w' : World) (e : event) :
  step h total x p w o w' -> e ∈ log w -> e ∈ log w'.
Proof.
  intros Hs He. inversion Hs; subst; clear Hs; try exact He;
    cbn [log resolve reject emit with_assets with_store];
    repeat (apply elem_of_app; left); exact He.
Qed.

(** A step of a unit leaves alone what belongs to the other
    identifiers. *)
Lemma step_frame (h : Host) (total : nat) (x y : QueueItem) (p : phase)
    (w : World) (o : option phase) (w' : World) :
  step h total x p w o w' -> id y <> id x ->
  store w' !! id y = store w !! id y
  /\ (id y ∈ failed w' <-> id y ∈ failed w)
  /\ assets w' !! Cloud.key (upload_request y)
     = assets w !! Cloud.key (upload_request y).
Proof.
  intros Hs Hne.
  assert (Hpush : id y ∈ (failed w ++ [id x])%list <-> id y ∈ failed w).
  { rewrite elem_of_app, list_elem_of_singleton. tauto. }
  inversion Hs; subst; clear Hs;
    cbn [store failed assets resolve reject emit with_assets with_store];
    try (split; [reflexivity|split; [reflexivity || exact Hpush|reflexivity]]).
  - split; [reflexivity|]. split; [reflexivity|].
    match goal with
    | H : Cloud.upload _ _ _ = Ok _ |- _ =>
        apply upload_ok in H as (_ & asset & ->)
    end.
    apply lookup_insert_ne. intros Hkey. apply key_inj in Hkey. congruence.
  - split; [|split; reflexivity]. by apply lookup_insert_ne.
Qed.

Lemma delete_lookup_other {A : Type} (l : list A) (k j : nat) (x : A) :
  delete k l !! j = Some x -> exists j', j' <> k /\ l !! j' = Some x.
Proof.
  intros H. destruct (decide (j < k)%nat).
  - rewrite list_lookup_delete_lt in H by done. exists j. split; [lia|done].
  - rewrite list_lookup_delete_ge in H by lia. exists (S j). split; [lia|done].
Qed.

Lemma left_by_delete {A : Type} (l : list A) (k : nat) (y z : A) :
  l !! k = Some y -> z ∈ l -> z ∉ delete k l -> z = y.
Proof.
  intros Hk Hz Hn. apply list_elem_of_lookup in Hz as [j Hj].
  destruct (decide (j = k)) as [->|Hne]; [congruence|].
  exfalso. apply Hn.
  destruct (decide (j < k)%nat).
  - apply (list_elem_of_lookup_2 _ j). by rewrite list_lookup_delete_lt.
  - apply (list_elem_of_lookup_2 _ (pred j)).
    rewrite list_lookup_delete_ge by lia.
    replace (S (pred j)) with j by lia. exact Hj.
Qed.

Section Ends.

Context (h : Host) (total : nat) (st0 : Store) (a0 : Assets).
Context (queue : list QueueItem).
Hypothesis queue_ids : NoDup (id <$> queue).
Hypothesis queue_fresh :
  forall it, it ∈ queue -> hashExists st0 (q_hash it) = false.

Lemma not_on_record (it : QueueItem) (doc : string) :
  it ∈ queue -> hash <$> st0 !! doc = Some (q_hash it) -> False.
Proof.
  intros Hit Hh. destruct (st0 !! doc) as [r|] eqn:Hr; [|discriminate].
  injection Hh as Hh. pose proof (queue_fresh it Hit) as Hf.
  assert (hashExists st0 (q_hash it) = true); [|congruence].
  apply hashExists_iff. eauto.
Qed.

Lemma pristine_frame (x y : QueueItem) (p : phase) (w : World)
    (o : option phase) (w' : World) :
  step h total x p w o w' -> id y <> id x ->
  pristine st0 a0 y w -> pristine st0 a0 y w'.
Proof.
  intros Hs Hne (Hst & Hf & Hun).
  destruct (step_frame h total x y p w o w' Hs Hne) as (Hst' & Hf' & Ha').
  unfold pristine, untouched. rewrite Hst', Hf', Ha'. auto.
Qed.

Lemma uploaded_frame (x y : QueueItem) (p : phase) (w : World)
    (o : option phase) (w' : World) (up : UploadResponse) :
  step h total x p w o w' -> id y <> id x ->
  uploaded h a0 y up w -> uploaded h a0 y up w'.
Proof.
  intros Hs Hne (a' & Hup & Hkey).
  destruct (step_frame h total x y p w o w' Hs Hne) as (_ & _ & Ha').
  exists a'. split; [exact Hup|]. by rewrite Ha'.
Qed.

Lemma suspended_frame (x y : QueueItem) (p q : phase) (w : World)
    (o : option phase) (w' : World) :
  step h total x p w o w' -> id y <> id x ->
  suspended h st0 a0 y q w -> suspended h st0 a0 y q w'.
Proof.
  intros Hs Hne Hy. destruct q as [| |exif|exif up]; cbn [suspended] in *.
  - by eapply pristine_frame.
  - by eapply pristine_frame.
  - destruct Hy as [Hy He]. split; [by eapply pristine_frame|exact He].
  - destruct Hy as (Hst & Hf & He & Hup & Hl).
    destruct (step_frame h total x y p w o w' Hs Hne) as (Hst' & Hf' & _).
    rewrite Hst', Hf'. repeat split; auto.
    + by eapply uploaded_frame.
    + by eapply step_log.
Qed.

Lemma suspended_store (it : QueueItem) (p : phase) (w : World) :
  suspended h st0 a0 it p w -> store w !! id it = st0 !! id it.
Proof.
  destruct p; cbn [suspended]; unfold pristine; intros H; tauto.
Qed.

Lemma suspended_unfailed (it : QueueItem) (p : phase) (w : World) :
  suspended h st0 a0 it p w -> id it ∉ failed w.
Proof.
  destruct p; cbn [suspended]; unfold pristine; intros H; tauto.
Qed.

Lemma ended_frame (x it : QueueItem) (p : phase) (w : World)
    (o : option phase) (w' : World) :
  step h total x p w o w' -> id it <> id x -> it ∈ queue ->
  store w !! id x = st0 !! id x ->
  ended h st0 a0 queue it w -> ended h st0 a0 queue it w'.
Proof.
  intros Hs Hne Hit Hx He.
  destruct (step_frame h total x it p w o w' Hs Hne) as (Hst' & Hf' & Ha').
  pose proof (fun e => step_log h total x p w o w' e Hs) as Hlog.
  destruct He as [it' Hit' Hne' Htw Hrec Hpr | msg He Hf Hl Hst Hun
                 | exif msg He Hup Hc Hf Hl Hst Hun
                 | exif up msg He Hup Hc Hset Hf Hl Hst
                 | exif up He Hup Hc Hset Hst Hl Hf].
  - apply (ended_duplicate _ _ _ _ _ _ it'); auto.
    + assert (Hne2 : id it' <> id x).
      { intros Heq. rewrite Heq, Hx in Hrec.
        exact (not_on_record it (id x) Hit Hrec). }
      destruct (step_frame h total x it' p w o w' Hs Hne2) as (-> & _).
      exact Hrec.
    + by eapply pristine_frame.
  - apply (ended_exif _ _ _ _ _ _ msg); auto.
    + by apply Hf'.
    + by rewrite Hst'.
    + unfold untouched. by rewrite Ha'.
  - apply (ended_upload _ _ _ _ _ _ exif msg); auto.
    + by apply Hf'.
    + by rewrite Hst'.
    + unfold untouched. by rewrite Ha'.
  - apply (ended_set _ _ _ _ _ _ exif up msg); auto.
    + by eapply uploaded_frame.
    + by apply Hf'.
    + by rewrite Hst'.
  - apply (ended_persisted _ _ _ _ _ _ exif up); auto.
    + by eapply uploaded_frame.
    + by rewrite Hst'.
    + by rewrite Hf'.
Qed.

Context (rest : list QueueItem).

Lemma coursed_resumed us w k x p p' w' :
  us !! k = Some (x, p) -> step h total x p w (Some p') w' ->
  coursed h st0 a0 queue rest us w ->
  coursed h st0 a0 queue rest (<[k := (x, p')]> us) w'.
Proof.
  intros Hk Hs (Hnd & Hrest & Hus & Hend & Hfrom & Hfd).
  destruct (Hus k x p Hk) as [Hx Hsx].
  assert (Hidx : id x ∈ ids_of us).
  { unfold ids_of. apply list_elem_of_fmap. exists (x, p).
    split; [reflexivity|]. by eapply list_elem_of_lookup_2. }
  split; [|split; [|split; [|split; [|split]]]].
  - by rewrite (ids_of_insert us k x p p' Hk).
  - intros it Hit. destruct (Hrest it Hit) as [Hq Hp]. split; [exact Hq|].
    eapply pristine_frame; [exact Hs| |exact Hp].
    by apply (ids_apart us rest k x it p Hnd Hk Hit).
  - intros j it q Hj. apply list_lookup_insert_Some in Hj.
    destruct Hj as [(-> & [= <- <-] & _) | (Hne & Hj)].
    + split; [exact Hx|]. clear Hus Hend Hrest.
      inversion Hs; subst; clear Hs; cbn [suspended] in *.
      * exact Hsx.
      * split; [exact Hsx|assumption].
      * destruct Hsx as [(Hst & Hf & Hun) He].
        split; [exact Hst|]. split; [exact Hf|]. split; [exact He|]. split.
        -- match goal with
           | H : Cloud.upload _ _ _ = Ok _ |- _ =>
               pose proof (upload_same h (upload_request x) (assets w) a0 Hun)
                 as Hsame; rewrite H in Hsame;
               destruct Hsame as (a0' & Hup0 & Hkey)
           end.
           exists a0'. split; [exact Hup0|exact Hkey].
        -- cbn [log with_assets emit]. apply elem_of_app. right.
           by apply list_elem_of_singleton.
    + destruct (Hus j it q Hj) as [Hq Hsq]. split; [exact Hq|].
      eapply suspended_frame; [exact Hs| |exact Hsq].
      apply (ids_distinct us (id <$> rest) j k x it p q Hnd Hk Hj). congruence.
  - rewrite (ids_of_insert us k x p p' Hk). intros it Hit Hn1 Hn2.
    eapply ended_frame; [exact Hs| |exact Hit| |by apply Hend].
    + intros Heq. apply Hn1. by rewrite Heq.
    + by eapply suspended_store.
  - assert (Hst : store w' = store w)
      by (inversion Hs; subst; reflexivity).
    rewrite Hst. exact Hfrom.
  - assert (Hf : failed w' = failed w)
      by (inversion Hs; subst; reflexivity).
    rewrite Hf. exact Hfd.
Qed.

Lemma settled_ended us w k x p w' :
  us !! k = Some (x, p) -> step h total x p w None w' ->
  coursed h st0 a0 queue rest us w ->
  ended h st0 a0 queue x w'.
Proof.
  intros Hk Hs (Hnd & Hrest & Hus & Hend & Hfrom & _).
  destruct (Hus k x p Hk) as [Hx Hsx].
  assert (Hlast : forall (l : list string), id x ∈ (l ++ [id x])%list).
  { intros l. apply elem_of_app. right. by apply list_elem_of_singleton. }
  inversion Hs; subst; clear Hs; cbn [suspended] in *.
  - (* the check finds a record *)
    match goal with
    | Hdup : hashExists _ _ = true |- _ =>
        apply hashExists_iff in Hdup as (doc & r & Hl & Hh)
    end.
    destruct (Hfrom doc r Hl) as [H0 | (it2 & Hit2 & -> & Hh2)].
    { exfalso. apply (not_on_record x doc Hx). by rewrite H0, <- Hh. }
    apply (ended_duplicate _ _ _ _ _ _ it2); auto.
    + intros ->. destruct Hsx as (Hst & _).
      apply (not_on_record x (id x) Hx). by rewrite <- Hst, Hl, <- Hh.
    + congruence.
    + cbn [store resolve emit]. by rewrite Hl, <- Hh.
  - (* the EXIF read throws *)
    destruct Hsx as (Hst & Hf & Hun).
    match goal with
    | He : exifr_parse _ _ = Err ?m |- _ =>
        apply (ended_exif _ _ _ _ _ _ m); auto
    end.
    + cbn [failed reject]. apply Hlast.
    + cbn [log reject]. apply elem_of_app. right. apply list_elem_of_here.
  - (* the upload is refused *)
    destruct Hsx as [(Hst & Hf & Hun) He].
    match goal with
    | H : Cloud.upload _ _ _ = Err ?m |- _ =>
        pose proof (upload_same h (upload_request x) (assets w) a0 Hun)
          as Hsame; rewrite H in Hsame;
        apply (ended_upload _ _ _ _ _ _ exif m); auto
    end.
    + cbn [log reject emit]. apply elem_of_app. left.
      apply elem_of_app. right. by apply list_elem_of_singleton.
    + cbn [failed reject emit]. apply Hlast.
    + cbn [log reject emit]. apply elem_of_app. right. apply list_elem_of_here.
  - (* the write of the document fails *)
    destruct Hsx as (Hst & Hf & He & Hup & Hl).
    match goal with
    | H : set_fault _ _ = Some ?m |- _ =>
        apply (ended_set _ _ _ _ _ _ exif up m); auto
    end.
    + cbn [log reject]. apply elem_of_app. by left.
    + cbn [failed reject]. apply Hlast.
    + cbn [log reject]. apply elem_of_app. right. apply list_elem_of_here.
  - (* the document is written *)
    destruct Hsx as (Hst & Hf & He & Hup & Hl).
    apply (ended_persisted _ _ _ _ _ _ exif up); auto.
    + cbn [log resolve emit with_store]. apply elem_of_app. left.
      apply elem_of_app. by left.
    + cbn [store resolve emit with_store]. apply lookup_insert_eq.
    + cbn [log resolve emit with_store]. apply elem_of_app. left.
      apply elem_of_app. right. by apply list_elem_of_singleton.
Qed.

Lemma coursed_settled us w k x p w' :
  us !! k = Some (x, p) -> step h total x p w None w' ->
  coursed h st0 a0 queue rest us w ->
  coursed h st0 a0 queue rest (delete k us) w'.
Proof.
  intros Hk Hs HI.
  pose proof (settled_ended us w k x p w' Hk Hs HI) as Hxend.
  destruct HI as (Hnd & Hrest & Hus & Hend & Hfrom & Hfd).
  destruct (Hus k x p Hk) as [Hx Hsx].
  assert (Hkid : ids_of us !! k = Some (id x)).
  { unfold ids_of. by rewrite list_lookup_fmap, Hk. }
  split; [|split; [|split; [|split; [|split]]]].
  - rewrite ids_of_delete. eapply sublist_NoDup; [exact Hnd|].
    apply sublist_app; [apply sublist_delete | reflexivity].
  - intros it Hit. destruct (Hrest it Hit) as [Hq Hp]. split; [exact Hq|].
    eapply pristine_frame; [exact Hs| |exact Hp].
    by apply (ids_apart us rest k x it p Hnd Hk Hit).
  - intros j it q Hj. apply delete_lookup_other in Hj as (j' & Hne & Hj').
    destruct (Hus j' it q Hj') as [Hq Hsq]. split; [exact Hq|].
    eapply suspended_frame; [exact Hs| |exact Hsq].
    by apply (ids_distinct us (id <$> rest) j' k x it p q Hnd Hk Hj' Hne).
  - rewrite ids_of_delete. intros it Hit Hn1 Hn2.
    destruct (decide (id it ∈ ids_of us)) as [Hin | Hout].
    + pose proof (left_by_delete (ids_of us) k (id x) (id it) Hkid Hin Hn1)
        as Heq.
      assert (it = x) by (apply (unique_by_id queue); auto). by subst.
    + eapply ended_frame; [exact Hs| |exact Hit| |by apply Hend].
      * intros Heq. apply Hout. rewrite Heq.
        by eapply list_elem_of_lookup_2.
      * by eapply suspended_store.
  - intros doc r Hl.
    inversion Hs; subst; clear Hs;
      cbn [store resolve reject emit with_store] in Hl; try by apply Hfrom.
    apply lookup_insert_Some in Hl as [[<- <-] | [Hne Hl]]; [|by apply Hfrom].
    right. exists x. auto.
  - pose proof (suspended_unfailed x p w Hsx) as Hnew.
    assert (Hpush : NoDup (failed w ++ [id x])).
    { apply NoDup_app. split; [exact Hfd|]. split; [|apply NoDup_singleton].
      intros y Hy Hy'. apply list_elem_of_singleton in Hy'. by subst. }
    inversion Hs; subst; clear Hs; cbn [failed resolve reject emit with_store];
      assumption.
Qed.

End Ends.

Lemma pristine_emit (st0 : Store) (a0 : Assets) (it : QueueItem)
    (es : list event) (w : World) :
  pristine st0 a0 it w -> pristine st0 a0 it (emit es w).
Proof. intros H. exact H. Qed.

Lemma ended_emit (h : Host) (st0 : Store) (a0 : Assets)
    (queue : list QueueItem) (it : QueueItem) (es : list event) (w : World) :
  ended h st0 a0 queue it w -> ended h st0 a0 queue it (emit es w).
Proof.
  assert (Hlog : forall e, e ∈ log w -> e ∈ log (emit es w)).
  { intros e He. rewrite emit_log. apply elem_of_app. by left. }
  intros [it' Hit' Hne' Htw Hrec Hpr | msg He Hf Hl Hst Hun
         | exif msg He Hup Hc Hf Hl Hst Hun
         | exif up msg He Hup Hc Hset Hf Hl Hst
         | exif up He Hup Hc Hset Hst Hl Hf].
  - by apply (ended_duplicate _ _ _ _ _ _ it').
  - apply (ended_exif _ _ _ _ _ _ msg); auto.
  - apply (ended_upload _ _ _ _ _ _ exif msg); auto.
  - apply (ended_set _ _ _ _ _ _ exif up msg); auto.
  - apply (ended_persisted _ _ _ _ _ _ exif up); auto.
Qed.

Lemma loop_coursed (h : Host) (total : nat) (queue : list QueueItem)
    (scheds : list (list nat)) (w : World) :
  NoDup (id <$> queue) ->
  (forall it, it ∈ queue -> hashExists (store w) (q_hash it) = false) ->
  failed w = [] ->
  coursed h (store w) (assets w) queue [] []
    (upload_loop h total (length queue) 0 queue scheds w).
Proof.
  intros Hnd Hfresh Hf0.
  pose (Inv := fun (i : nat) (w' : World) =>
    coursed h (store w) (assets w) queue (drop i queue) [] w').
  destruct (upload_loop_invariant h total queue Inv) with
    (fuel := length queue) (i := 0%nat) (scheds := scheds) (w := w)
    as (j & Hj & HI); unfold Inv in *.
  - intros i w1 sched Hi (_ & Hrest & _ & Hend & Hfrom & Hfd).
    set (batch := take CONCURRENCY (drop i queue)).
    set (rest := drop (i + CONCURRENCY) queue).
    assert (Hsplit : (batch ++ rest)%list = drop i queue)
      by apply window_split.
    apply run_window_invariant
      with (Inv := coursed h (store w) (assets w) queue rest).
    + intros; eapply coursed_resumed; eassumption.
    + intros; eapply coursed_settled; eassumption.
    + rewrite weight_launch. lia.
    + split; [|split; [|split; [|split; [|split]]]].
      * rewrite ids_of_launch, <- fmap_app, Hsplit.
        eapply sublist_NoDup; [exact Hnd|].
        apply fmap_sublist, sublist_drop.
      * intros it Hit. apply Hrest. rewrite <- Hsplit.
        apply elem_of_app. by right.
      * intros j it p Hj. apply launch_lookup in Hj as [Hj ->].
        apply list_elem_of_lookup_2 in Hj. cbn [suspended].
        apply Hrest. rewrite <- Hsplit. apply elem_of_app. by left.
      * intros it Hit Hn1 Hn2. apply ended_emit. apply Hend; [exact Hit| |].
        -- apply not_elem_of_nil.
        -- rewrite <- Hsplit, fmap_app, <- ids_of_launch.
           intros Hin. apply elem_of_app in Hin as [Hin|Hin]; auto.
      * exact Hfrom.
      * exact Hfd.
  - lia.
  - split; [|split; [|split; [|split; [|split]]]].
    + rewrite drop_0. exact Hnd.
    + intros it Hit. rewrite drop_0 in Hit. split; [exact Hit|].
      split; [reflexivity|]. split; [|reflexivity].
      rewrite Hf0. apply not_elem_of_nil.
    + intros j it p Hj. by rewrite lookup_nil in Hj.
    + intros it Hit _ Hn. exfalso. apply Hn. rewrite drop_0.
      apply list_elem_of_fmap. eauto.
    + auto.
    + rewrite Hf0. apply NoDup_nil_2.
  - rewrite drop_ge in HI by lia. exact HI.
Qed.

Lemma coursed_emit (h : Host) (st0 : Store) (a0 : Assets)
    (queue : list QueueItem) (es : list event) (w : World) :
  coursed h st0 a0 queue [] [] w -> coursed h st0 a0 queue [] [] (emit es w).
Proof.
  intros (Hnd & Hrest & Hus & Hend & Hfrom & Hfd).
  split; [exact Hnd|]. split; [exact Hrest|].
  split; [by intros j it p Hj; rewrite lookup_nil in Hj|].
  split; [|split; [exact Hfrom|exact Hfd]].
  intros it Hit Hn1 Hn2. apply ended_emit. by apply Hend.
Qed.

Lemma coursed_nil (h : Host) (st0 : Store) (a0 : Assets) (w : World) :
  store w = st0 -> failed w = [] -> coursed h st0 a0 [] [] [] w.
Proof.
  intros Hst Hf. split; [apply NoDup_nil_2|].
  split; [by intros it Hit; apply elem_of_nil in Hit|].
  split; [by intros j it p Hj; rewrite lookup_nil in Hj|].
  split; [by intros it Hit; apply elem_of_nil in Hit|].
  split; [rewrite Hst; auto|]. rewrite Hf. apply NoDup_nil_2.
Qed.

Lemma upload_pending_coursed (h : Host) (scheds : list (list nat))
    (allFiles : list string) (counter : N) (pending : list PendingPhoto)
    (w : World) :
  let queue := uploadQueue counter pending in
  (forall it, it ∈ queue -> hashExists (store w) (q_hash it) = false) ->
  failed w = [] ->
  coursed h (store w) (assets w) queue [] []
    (upload_pending h scheds allFiles counter pending w).2.
Proof.
  intros queue Hfresh Hf0. unfold upload_pending.
  destruct pending as [|p0 pending].
  { cbn [snd]. apply coursed_emit. by apply coursed_nil. }
  fold queue.
  set (w3 := emit [LoggedFound (length allFiles);
                   LoggedStartingFrom (img_id counter)] w).
  assert (Hk : coursed h (store w) (assets w) queue [] []
            (upload_loop h (length allFiles) (length queue) 0 queue scheds w3)).
  { apply (loop_coursed h (length allFiles) queue scheds w3);
      [apply uploadQueue_ids_unique|exact Hfresh|exact Hf0]. }
  destruct (0 <? length (failed _))%nat; cbn [snd]; [exact Hk|].
  by apply coursed_emit.
Qed.

(** Every unit of a run ends in one of the ways of [ended], and no
    identifier is pushed to [failed] twice. *)
Lemma uploadPhotos_ended (h : Host) (listFile : string)
    (scheds : list (list nat)) (st : Store) (a : Assets) :
  let r := uploadPhotos h listFile scheds st a in
  (forall it, it ∈ plan h listFile st ->
     ended h st a (plan h listFile st) it r.2)
  /\ NoDup (failed r.2).
Proof.
  intros r. subst r.
  assert (Hc : coursed h st a (plan h listFile st) [] []
                 (uploadPhotos h listFile scheds st a).2).
  { destruct (uploadPhotos_plan h listFile scheds st a)
      as (es & Hes & [[Hp ->] | (allFiles & pending & Hp & ->)]).
    - rewrite Hp. apply coursed_emit. by apply coursed_nil.
    - rewrite Hp.
      apply (upload_pending_coursed h scheds allFiles (getNextImageNumber st)
               pending (emit es (start st a))); [|reflexivity].
      intros it Hit. destruct (plan_paths h listFile st) as (files & _ & Hall).
      rewrite Hp in Hall. rewrite Forall_forall in Hall.
      by destruct (Hall it Hit). }
  destruct Hc as (_ & _ & _ & Hend & _ & Hfd). split; [|exact Hfd].
  intros it Hit. apply Hend; [exact Hit| |]; apply not_elem_of_nil.
Qed.

Lemma upload_accepted (h : Host) (req : UploadRequest) (a a' : Assets)
    (up : UploadResponse) :
  Cloud.upload h req a = Ok (up, a') -> overwrite req = false ->
  upload_fault h (u_file req) (public_id req) = None
  /\ a !! Cloud.key req = None.
Proof.
  unfold Cloud.upload. intros Hup Hov. rewrite Hov in Hup.
  destruct (upload_fault h (u_file req) (public_id req)); [discriminate|].
  split; [reflexivity|].
  destruct (a !! Cloud.key req) as [x|] eqn:Hk; [|reflexivity].
  rewrite bool_decide_eq_true_2 in Hup by eauto. discriminate.
Qed.

Lemma uploaded_sound (h : Host) (a0 : Assets) (it : QueueItem)
    (up : UploadResponse) (w : World) :
  uploaded h a0 it up w ->
  upload_fault h (q_filePath it) (id it) = None
  /\ a0 !! Cloud.key (upload_request it) = None
  /\ rendered h it up
  /\ is_Some (assets w !! Cloud.key (upload_request it)).
Proof.
  intros (a' & Hup & Hkey).
  destruct (upload_accepted h _ _ _ _ Hup eq_refl) as [Hf Hk].
  destruct (upload_ok h _ _ _ _ Hup) as (Hr & asset & ->).
  split; [exact Hf|]. split; [exact Hk|]. split; [exact Hr|].
  rewrite Hkey, lookup_insert_eq. eauto.
Qed.

Lemma not_faulty (h : Host) (a0 : Assets) (it : QueueItem)
    (exif : option Exif) (up : UploadResponse) (w : World) :
  exifr_parse h (q_filePath it) = Ok exif -> uploaded h a0 it up w ->
  set_fault h (id it) = None -> ~ faulty h a0 it.
Proof.
  intros He Hup Hset. destruct (uploaded_sound h a0 it up w Hup)
    as (Hf & Hk & _).
  intros [(msg & Hm) | [Hu | [Ha | Hs]]].
  - congruence.
  - simpl in Hf. rewrite Hf in Hu. by destruct Hu.
  - rewrite Hk in Ha. by destruct Ha.
  - rewrite Hset in Hs. by destruct Hs.
Qed.

Section Outcomes.

Context (h : Host) (st0 : Store) (a0 : Assets) (queue : list QueueItem).
Context (it : QueueItem) (w : World).
Hypothesis Hend : ended h st0 a0 queue it w.

Lemma ended_failed :
  id it ∈ failed w ->
  faulty h a0 it /\ store w !! id it = st0 !! id it
  /\ exists msg, FailureLine (id it) msg ∈ log w.
Proof.
  intros Hin.
  destruct Hend as [it' Hit' Hne' Htw Hrec (_ & Hf & _) | msg He Hf Hl Hst Hun
                   | exif msg He Hup Hc Hf Hl Hst Hun
                   | exif up msg He Hup Hc Hset Hf Hl Hst
                   | exif up He Hup Hc Hset Hst Hl Hf]; try contradiction.
  - split; [left; eauto|]. eauto.
  - split; [|eauto]. apply upload_refused in Hup as [Hu | [Ha _]].
    + right; left. exact Hu.
    + right; right; left. exact Ha.
  - split; [|eauto]. right; right; right. eauto.
Qed.

Lemma ended_faulty :
  faulty h a0 it -> id it ∈ failed w \/ recorded_by_twin queue it (store w).
Proof.
  intros Hfa.
  destruct Hend as [it' Hit' Hne' Htw Hrec _ | msg He Hf Hl Hst Hun
                   | exif msg He Hup Hc Hf Hl Hst Hun
                   | exif up msg He Hup Hc Hset Hf Hl Hst
                   | exif up He Hup Hc Hset Hst Hl Hf]; auto.
  - right. exists it'. auto.
  - exfalso. by apply (not_faulty h a0 it exif up w).
Qed.

Lemma ended_unfailed :
  id it ∉ failed w ->
  (exists exif up,
     exifr_parse h (q_filePath it) = Ok exif /\ rendered h it up
     /\ store w !! id it = Some (photo_record h it exif up)
     /\ UploadCalled (upload_request it) ∈ log w
     /\ Persisted (id it) (photo_record h it exif up) ∈ log w
     /\ is_Some (assets w !! Cloud.key (upload_request it)))
  \/ recorded_by_twin queue it (store w).
Proof.
  intros Hout.
  destruct Hend as [it' Hit' Hne' Htw Hrec _ | msg He Hf Hl Hst Hun
                   | exif msg He Hup Hc Hf Hl Hst Hun
                   | exif up msg He Hup Hc Hset Hf Hl Hst
                   | exif up He Hup Hc Hset Hst Hl Hf]; try contradiction.
  - right. exists it'. auto.
  - left. exists exif, up.
    destruct (uploaded_sound h a0 it up w Hup) as (_ & _ & Hr & Ha). auto 10.
Qed.

Lemma ended_called (exif : option Exif) :
  exifr_parse h (q_filePath it) = Ok exif ->
  UploadCalled (upload_request it) ∈ log w
  \/ recorded_by_twin queue it (store w).
Proof.
  intros Hex.
  destruct Hend as [it' Hit' Hne' Htw Hrec _ | msg He Hf Hl Hst Hun
                   | exif' msg He Hup Hc Hf Hl Hst Hun
                   | exif' up msg He Hup Hc Hset Hf Hl Hst
                   | exif' up He Hup Hc Hset Hst Hl Hf]; auto.
  - right. exists it'. auto.
  - congruence.
Qed.

Lemma ended_taken :
  is_Some (a0 !! Cloud.key (upload_request it)) ->
  untouched a0 it w /\ store w !! id it = st0 !! id it.
Proof.
  intros Ha.
  assert (Hno : forall up, uploaded h a0 it up w -> False).
  { intros up Hup. destruct (uploaded_sound h a0 it up w Hup) as (_ & Hk & _).
    rewrite Hk in Ha. by destruct Ha. }
  destruct Hend as [it' Hit' Hne' Htw Hrec (Hst & _ & Hun) | msg He Hf Hl Hst Hun
                   | exif msg He Hup Hc Hf Hl Hst Hun
                   | exif up msg He Hup Hc Hset Hf Hl Hst
                   | exif up He Hup Hc Hset Hst Hl Hf]; auto;
    exfalso; eauto.
Qed.

End Outcomes.

(** What the run has done by the time it returns. *)
Lemma uploadPhotos_account (h : Host) (listFile : string)
    (scheds : list (list nat)) (st : Store) (a : Assets) :
  let r := uploadPhotos h listFile scheds st a in
  let queue := plan h listFile st in
  (completed r.2 + length (failed r.2) = length queue)%nat
  /\ settled_ids (log r.2) ≡ₚ id <$> queue
  /\ (failed r.2 <> [] -> r.1 = Rejected (failure_message (failed r.2)))
  /\ (queue <> [] -> failed r.2 = [] -> r.1 = Resolved).
Proof.
  intros r queue. subst r queue.
  destruct (uploadPhotos_plan h listFile scheds st a)
    as (es & Hes & [[Hp Hw] | (allFiles & pending & Hp & Hrun)]).
  - rewrite Hw, Hp. destruct (outside_units_quiet es Hes) as (_ & Hs & _).
    cbn [completed failed emit start length]. split; [reflexivity|].
    split; [by rewrite emit_log, settled_ids_app, Hs|]. split; done.
  - rewrite Hrun, Hp.
    destruct (upload_pending_summary h scheds allFiles
                (getNextImageNumber st) pending (emit es (start st a))
                eq_refl)
      as (Hacc & (trace & Hl & _ & Hs) & _ & _ & Hrej & Hres).
    destruct (outside_units_quiet es Hes) as (_ & Hs' & _).
    split; [exact Hacc|]. split; [|split; [exact Hrej|]].
    + rewrite Hl, emit_log, !settled_ids_app, Hs'. exact Hs.
    + intros _. exact Hres.
Qed.

(** ** Partial-failure isolation (claim C3) *)

(** C3: in a run over the queue [plan], whatever the schedule: every unit
    settles once and [completed] and [failed] add up to the queue; no
    identifier is in [failed] twice and every one is that of a unit; a
    unit is in [failed] only for a fault of its own (its EXIF read, its
    upload, its document write), with its failure line written and no
    document under its identifier; a unit with such a fault is in
    [failed] unless its own check stopped it first because a unit with
    the same content had recorded it; a unit without a fault is never in
    [failed], whatever the other units do, and is processed: its upload
    is called and its document is written, or it was stopped by its check
    in the same way.  The run is rejected when [failed] is not empty,
    with the message that lists [failed], and resolves when the queue is
    processed with [failed] empty. *)
Theorem failure_isolation (h : Host) (listFile : string)
    (scheds : list (list nat)) (st : Store) (a : Assets) :
  let r := uploadPhotos h listFile scheds st a in
  let queue := plan h listFile st in
  (completed r.2 + length (failed r.2) = length queue)%nat
  /\ settled_ids (log r.2) ≡ₚ id <$> queue
  /\ NoDup (failed r.2)
  /\ (forall x, x ∈ failed r.2 -> x ∈ id <$> queue)
  /\ (forall it, it ∈ queue -> id it ∈ failed r.2 ->
        faulty h a it /\ store r.2 !! id it = st !! id it
        /\ exists msg, FailureLine (id it) msg ∈ log r.2)
  /\ (forall it, it ∈ queue -> faulty h a it ->
        id it ∈ failed r.2 \/ recorded_by_twin queue it (store r.2))
  /\ (forall it, it ∈ queue -> ~ faulty h a it ->
        (id it ∉ failed r.2)
        /\ ((exists exif up,
               store r.2 !! id it = Some (photo_record h it exif up)
               /\ UploadCalled (upload_request it) ∈ log r.2
               /\ Persisted (id it) (photo_record h it exif up) ∈ log r.2)
            \/ recorded_by_twin queue it (store r.2)))
  /\ (failed r.2 <> [] ->
      r.1 = Rejected ("Upload completed with "
                      ++ Str.ofN (N.of_nat (length (failed r.2)))
                      ++ " failures:" ++ newline
                      ++ Str.join ", " (failed r.2)))
  /\ (queue <> [] -> failed r.2 = [] -> r.1 = Resolved).
Proof.
  intros r queue.
  destruct (uploadPhotos_account h listFile scheds st a)
    as (Hacc & Hs & Hrej & Hres).
  destruct (uploadPhotos_ended h listFile scheds st a) as [Hend Hnd].
  destruct (uploadPhotos_follows_plan h listFile scheds st a)
    as (_ & Hbl & _).
  fold r queue in Hacc, Hs, Hrej, Hres, Hend, Hnd, Hbl.
  split; [exact Hacc|]. split; [exact Hs|]. split; [exact Hnd|].
  split; [|split; [|split; [|split; [|split]]]].
  - intros x Hx. destruct (Hbl x Hx) as (it & Hit & <- & _).
    apply list_elem_of_fmap. eauto.
  - intros it Hit. apply (ended_failed h st a queue it r.2 (Hend it Hit)).
  - intros it Hit. apply (ended_faulty h st a queue it r.2 (Hend it Hit)).
  - intros it Hit Hok.
    assert (Hout : id it ∉ failed r.2).
    { intros Hin.
      by destruct (ended_failed h st a queue it r.2 (Hend it Hit) Hin). }
    split; [exact Hout|].
    destruct (ended_unfailed h st a queue it r.2 (Hend it Hit) Hout)
      as [(exif & up & _ & _ & H1 & H2 & H3 & _) | Htw]; [left|by right].
    exists exif, up. auto.
  - exact Hrej.
  - exact Hres.
Qed.

(** The run of [example_host_faulty]: the upload of the second file is
    refused; its unit is in [failed] and the other two are uploaded and
    persisted; the run is rejected naming it. *)
Example failure_isolation_run :
  let r := uploadPhotos example_host_faulty "list.txt" round_robin ∅ ∅ in
  r.1 = Rejected ("Upload completed with 1 failures:" ++ newline ++ "IMG-0001")
  /\ completed r.2 = 2%nat /\ failed r.2 = ["IMG-0001"]
  /\ hash <$> store r.2 !! "IMG-0000" = Some "sha1:a/1.jpg"
  /\ store r.2 !! "IMG-0001" = None
  /\ hash <$> store r.2 !! "IMG-0002" = Some "sha1:a/3.png".
Proof. vm_compute. auto 10. Qed.

(** ** The upload call (claim C7) *)

Lemma request_for_item (it : QueueItem) : request_for it (upload_request it).
Proof. repeat split. Qed.

Lemma rendered_sized (h : Host) (it : QueueItem) (exif : option Exif)
    (up : UploadResponse) :
  rendered h it up -> sized h it (photo_record h it exif up).
Proof.
  unfold rendered, sized. intros Hr. cbn [width height photo_record].
  destruct (image_size h (q_filePath it)) as [sw sh] eqn:Hsize.
  pose proof (render_request it sw sh) as Hspec.
  cbv zeta in Hspec. rewrite <- Hr in Hspec. cbn [fst snd] in *.
  unfold MAX_SIDE in Hspec.
  destruct Hspec as (H1 & H2 & H3 & H4 & H5 & H6 & H7 & H8).
  split; [intros Hw Hh; specialize (H1 Hw Hh); by simplify_eq|].
  repeat split; done.
Qed.

(** C7: in a run over the queue [plan]: the upload is called for every
    unit whose EXIF read returns, unless the unit was stopped by its own
    check, with the file of the item, the folder, the item's identifier
    as public name, overwriting disabled and the two size rules, and no
    upload call of the run is of another form; when an asset with the
    public name of a unit exists, the upload is refused, the asset stays
    as it was, no document is written under the identifier and the unit
    is in [failed]; every unit that is not in [failed] and was not
    stopped by its check has its document written with the dimensions
    the rules give for the source image, which are the source dimensions
    when neither exceeds 2048 and are otherwise within 2048, not larger
    than the source and in its aspect ratio up to rounding; and every
    document written in the run is one of these. *)
Theorem upload_invocation (h : Host) (listFile : string)
    (scheds : list (list nat)) (st : Store) (a : Assets) :
  let r := uploadPhotos h listFile scheds st a in
  let queue := plan h listFile st in
  (forall it exif, it ∈ queue -> exifr_parse h (q_filePath it) = Ok exif ->
     (exists req, UploadCalled req ∈ log r.2 /\ request_for it req)
     \/ recorded_by_twin queue it (store r.2))
  /\ (forall req, UploadCalled req ∈ log r.2 ->
        exists it, it ∈ queue /\ request_for it req)
  /\ (forall it assets0,
        is_Some (assets0 !! Cloud.key (upload_request it)) ->
        exists msg, Cloud.upload h (upload_request it) assets0 = Err msg)
  /\ (forall it, it ∈ queue ->
        is_Some (a !! Cloud.key (upload_request it)) ->
        assets r.2 !! Cloud.key (upload_request it)
        = a !! Cloud.key (upload_request it)
        /\ store r.2 !! id it = st !! id it
        /\ (id it ∈ failed r.2 \/ recorded_by_twin queue it (store r.2)))
  /\ (forall it, it ∈ queue -> id it ∉ failed r.2 ->
        (exists rec, store r.2 !! id it = Some rec
                     /\ Persisted (id it) rec ∈ log r.2
                     /\ is_Some (assets r.2 !! Cloud.key (upload_request it))
                     /\ sized h it rec)
        \/ recorded_by_twin queue it (store r.2))
  /\ (forall doc rec, Persisted doc rec ∈ log r.2 ->
        exists it, it ∈ queue /\ doc = id it /\ sized h it rec).
Proof.
  intros r queue.
  destruct (uploadPhotos_ended h listFile scheds st a) as [Hend _].
  destruct (uploadPhotos_follows_plan h listFile scheds st a)
    as (_ & _ & (_ & Hup & Hpe & _)).
  fold r queue in Hend, Hup, Hpe.
  split; [|split; [|split; [|split; [|split]]]].
  - intros it exif Hit Hex.
    destruct (ended_called h st a queue it r.2 (Hend it Hit) exif Hex)
      as [Hc | Htw]; [left|by right].
    exists (upload_request it). split; [exact Hc|apply request_for_item].
  - intros req Hq. destruct (Hup req Hq) as [H | (it & Hin & ->)];
      [by apply elem_of_nil in H|].
    exists it. split; [exact Hin|apply request_for_item].
  - intros it assets0 Hex. unfold Cloud.upload.
    destruct (upload_fault h _ _) as [msg|]; [eauto|].
    rewrite bool_decide_eq_true_2 by done. simpl. eauto.
  - intros it Hit Ha.
    destruct (ended_taken h st a queue it r.2 (Hend it Hit) Ha) as [Hun Hst].
    split; [exact Hun|]. split; [exact Hst|].
    apply (ended_faulty h st a queue it r.2 (Hend it Hit)).
    right; right; left. exact Ha.
  - intros it Hit Hout.
    destruct (ended_unfailed h st a queue it r.2 (Hend it Hit) Hout)
      as [(exif & up & _ & Hr & H1 & _ & H3 & H4) | Htw]; [left|by right].
    exists (photo_record h it exif up). split; [exact H1|].
    split; [exact H3|]. split; [exact H4|]. by apply rendered_sized.
  - intros doc rec Hd.
    destruct (Hpe doc rec Hd) as [H | (it & exif & up & Hin & -> & -> & Hr)];
      [by apply elem_of_nil in H|].
    exists it. split; [done|]. split; [done|]. by apply rendered_sized.
Qed.

(** The run of [example_host], whose pictures are 4096 by 2048, when the
    public name [IMG-0001] is taken: the second unit fails and the asset
    stays; the other two are stored and recorded as 2048 by 1024. *)
Example upload_invocation_run :
  let r := uploadPhotos example_host "list.txt" round_robin ∅
             example_assets_taken in
  failed r.2 = ["IMG-0001"]
  /\ a_source <$> assets r.2 !! "photo-portfolio/IMG-0001" = Some "old.jpg"
  /\ store r.2 !! "IMG-0001" = None
  /\ width <$> store r.2 !! "IMG-0000" = Some 2048
  /\ height <$> store r.2 !! "IMG-0000" = Some 1024
  /\ a_source <$> assets r.2 !! "photo-portfolio/IMG-0002" = Some "a/3.png".
Proof. vm_compute. auto 10. Qed.

(** ** Discovery errors (claim C9) *)

Lemma warnings_app (l1 l2 : list event) :
  warnings (l1 ++ l2) = (warnings l1 ++ warnings l2)%list.
Proof. apply omap_app. Qed.

Lemma warnings_Warned (dirs : list string) :
  warnings (Warned <$> dirs) = dirs.
Proof.
  unfold warnings. induction dirs as [|d dirs IH]; [reflexivity|].
  rewrite fmap_cons. cbn [omap list_omap warned_folder]. by f_equal.
Qed.

Lemma warnings_renderProgress (done total : nat) :
  warnings (renderProgress done total) = [].
Proof. unfold renderProgress. by destruct (done =? total)%nat. Qed.

Lemma step_warnings (h : Host) (total : nat) (it : QueueItem) (p : phase)
    (w : World) (o : option phase) (w' : World) :
  step h total it p w o w' -> warnings (log w') = warnings (log w).
Proof.
  inversion 1; subst; try reflexivity;
    cbn [log resolve reject emit with_assets with_store];
    rewrite ?warnings_app, ?warnings_renderProgress; cbn;
    by rewrite ?app_nil_r.
Qed.

Lemma loop_warnings (h : Host) (total : nat) (queue : list QueueItem)
    (scheds : list (list nat)) (w : World) :
  warnings (log (upload_loop h total (length queue) 0 queue scheds w))
  = warnings (log w).
Proof.
  pose (Inv := fun (_ : nat) (w' : World) =>
    warnings (log w') = warnings (log w)).
  destruct (upload_loop_invariant h total queue Inv) with
    (fuel := length queue) (i := 0%nat) (scheds := scheds) (w := w)
    as (j & _ & HI); unfold Inv in *; [| lia | reflexivity | exact HI].
  intros i w1 sched Hi HI. cbv zeta.
  apply run_window_invariant
    with (Inv := fun (_ : list (QueueItem * phase)) (w' : World) =>
                   warnings (log w') = warnings (log w)).
  - intros us w2 k it p p' w2' _ Hs H2.
    by rewrite (step_warnings _ _ _ _ _ _ _ Hs).
  - intros us w2 k it p w2' _ Hs H2.
    by rewrite (step_warnings _ _ _ _ _ _ _ Hs).
  - rewrite weight_launch. lia.
  - rewrite emit_log, warnings_app, HI.
    assert (Hc : forall b : list QueueItem, warnings (Called <$> b) = []).
    { induction b as [|x b IH]; [reflexivity|]. by rewrite fmap_cons. }
    by rewrite Hc, app_nil_r.
Qed.

Lemma upload_pending_warnings (h : Host) (scheds : list (list nat))
    (allFiles : list string) (counter : N) (pending : list PendingPhoto)
    (w : World) :
  warnings (log (upload_pending h scheds allFiles counter pending w).2)
  = warnings (log w).
Proof.
  unfold upload_pending. destruct pending as [|p0 pending].
  { cbn [snd]. rewrite emit_log, warnings_app. cbn. by rewrite app_nil_r. }
  set (queue := uploadQueue counter (p0 :: pending)).
  set (w3 := emit _ w).
  assert (H3 : warnings (log w3) = warnings (log w)).
  { unfold w3. rewrite emit_log, warnings_app. cbn. by rewrite app_nil_r. }
  pose proof (loop_warnings h (length allFiles) queue scheds w3) as Hl.
  destruct (0 <? length (failed _))%nat; cbn [snd].
  - by rewrite Hl.
  - rewrite emit_log, warnings_app, Hl, H3. cbn. by rewrite app_nil_r.
Qed.

Lemma collect_warnings (h : Host) (files : list string) (w : World) :
  warnings (log (collect_pending h files w).2) = warnings (log w).
Proof.
  revert w. induction files as [|f files IH]; intros w; [reflexivity|].
  cbn [collect_pending]. destruct (hashFile h f) as [hs|msg]; [|reflexivity].
  destruct (hashExists (store w) hs).
  - rewrite IH, emit_log, warnings_app. cbn. by rewrite app_nil_r.
  - specialize (IH w).
    by destruct (collect_pending h files w) as [[ps|msg] w1].
Qed.

(** A run whose folders can be read warns about the listed folders that
    do not exist, in the order of the list, and about nothing else. *)
Lemma uploadPhotos_warnings (h : Host) (listFile : string)
    (scheds : list (list nat)) (st : Store) (a : Assets) (text : string)
    (allFiles : list string) :
  readFileSync h listFile = Ok text ->
  discovered h listFile = Some allFiles ->
  warnings (log (uploadPhotos h listFile scheds st a).2)
  = List.filter (fun d => negb (existsSync h d)) (folders_of h text).
Proof.
  intros Hrd. unfold discovered, uploadPhotos. rewrite Hrd.
  destruct (existsSync h listFile); [|discriminate]. cbn [negb].
  rewrite <- (scan_discovered h _ (start st a)).
  destruct (folders_of h text) as [|d ds] eqn:Hfo; [reflexivity|].
  destruct (scan h (d :: ds) (start st a)) as [[files|msg] w1] eqn:Hs;
    cbn [fst]; [|discriminate].
  intros _. apply scan_warns in Hs. subst w1.
  set (missing := List.filter (fun d0 => negb (existsSync h d0)) (d :: ds)).
  set (w1 := emit (Warned <$> missing) (start st a)).
  assert (H1 : warnings (log w1) = missing).
  { unfold w1. rewrite emit_log, warnings_app, warnings_Warned. reflexivity. }
  unfold upload_files. destruct (sort_paths files) as [|f fs].
  { cbn [snd]. rewrite emit_log, warnings_app, H1. cbn.
    by rewrite app_nil_r. }
  pose proof (collect_warnings h (f :: fs) w1) as Hc.
  destruct (collect_pending h (f :: fs) w1) as [[pending|msg] w2];
    cbn [snd] in *.
  - by rewrite upload_pending_warnings, Hc.
  - by rewrite Hc.
Qed.

(** Every image of a listed folder that exists, when its content is
    new, has its unit entered. *)
Lemma uploadPhotos_calls_listed (h : Host) (listFile : string)
    (scheds : list (list nat)) (st : Store) (a : Assets)
    (allFiles : list string) (pending : list PendingPhoto) (path : string) :
  discovered h listFile = Some allFiles ->
  hashed h st allFiles = Ok pending ->
  listed_image h listFile path -> fresh h st path = true ->
  exists it, Called it ∈ log (uploadPhotos h listFile scheds st a).2
             /\ q_filePath it = path.
Proof.
  intros Hd Hh Hli Hfr.
  destruct (hashed_paths h st allFiles pending Hh) as [Hpaths _].
  apply (discovered_files h listFile allFiles _ Hd) in Hli.
  assert (Hin : path ∈ filePath <$> pending).
  { rewrite Hpaths. apply elem_of_List_filter. by split. }
  apply list_elem_of_fmap in Hin as (p & -> & Hp).
  destruct (uploadQueue_of_pending (getNextImageNumber st) pending p Hp)
    as (it & Hit & Hpath & _).
  exists it. split; [|exact Hpath].
  destruct (uploadPhotos_follows_plan h listFile scheds st a) as (Hc & _).
  apply elem_of_called_items. rewrite Hc.
  by rewrite plan_discovered, Hd, Hh.
Qed.

Lemma scan_reads (h : Host) (folders : list string) (w : World) :
  (forall dir, dir ∈ folders -> existsSync h dir = true ->
     exists names, readdirSync h dir = Ok names) ->
  exists files, (scan h folders w).1 = Ok files.
Proof.
  revert w. induction folders as [|d rest IH]; intros w Hall; [by exists []|].
  assert (Hrest : forall dir, dir ∈ rest -> existsSync h dir = true ->
            exists names, readdirSync h dir = Ok names).
  { intros dir Hd. apply Hall. by apply list_elem_of_further. }
  cbn [scan]. destruct (existsSync h d) eqn:Hex; cbn [negb]; [|by apply IH].
  destruct (Hall d (list_elem_of_here _ _) Hex) as [names ->].
  destruct (IH w Hrest) as [more Hm].
  destruct (scan h rest w) as [[more'|msg] w1]; cbn [fst] in *; [|discriminate].
  eauto.
Qed.

Lemma discovered_reads (h : Host) (listFile text : string) :
  existsSync h listFile = true -> readFileSync h listFile = Ok text ->
  (forall dir, dir ∈ folders_of h text -> existsSync h dir = true ->
     exists names, readdirSync h dir = Ok names) ->
  exists allFiles, discovered h listFile = Some allFiles.
Proof.
  intros Hex Hrd Hall. unfold discovered. rewrite Hex, Hrd.
  destruct (scan_reads h (folders_of h text) (start ∅ ∅) Hall) as [files ->].
  eauto.
Qed.

Lemma hashed_hashes (h : Host) (st : Store) (files : list string) :
  (forall f, f ∈ files -> exists hs, hashFile h f = Ok hs) ->
  exists pending, hashed h st files = Ok pending.
Proof.
  unfold hashed. generalize (start st ∅). induction files as [|f files IH];
    intros w Hall; [by exists []|].
  cbn [collect_pending].
  destruct (Hall f (list_elem_of_here _ _)) as [hs ->].
  assert (Hrest : forall g, g ∈ files -> exists hs', hashFile h g = Ok hs').
  { intros g Hg. apply Hall. by apply list_elem_of_further. }
  destruct (hashExists (store w) hs); [by apply IH|].
  destruct (IH w Hrest) as [ps Hps].
  destruct (collect_pending h files w) as [[ps'|msg] w1]; cbn [fst] in *;
    [|discriminate].
  eauto.
Qed.

(** C9: without the list file the run is rejected at once, before
    anything is read, written or logged; when the list and the listed
    folders that exist can be read, the run warns about each listed
    folder that does not exist, in the order of the list and about
    nothing else, and goes on with the others: when the images found can
    be hashed, the unit of every image of every listed folder that
    exists is entered, unless its content has a record already. *)
Theorem discovery_errors (h : Host) (listFile : string)
    (scheds : list (list nat)) (st : Store) (a : Assets) :
  let r := uploadPhotos h listFile scheds st a in
  (existsSync h listFile = false ->
   r = (Rejected "❌ Folder list file not found",
        {| store := st; assets := a; completed := 0; failed := [];
           log := [] |}))
  /\ (forall text,
        existsSync h listFile = true -> readFileSync h listFile = Ok text ->
        (forall dir, dir ∈ folders_of h text -> existsSync h dir = true ->
           exists names, readdirSync h dir = Ok names) ->
        warnings (log r.2)
        = List.filter (fun d => negb (existsSync h d)) (folders_of h text)
        /\ ((forall path, listed_image h listFile path ->
               exists hs, hashFile h path = Ok hs) ->
            forall path,
              listed_image h listFile path -> fresh h st path = true ->
              exists it, Called it ∈ log r.2 /\ q_filePath it = path)).
Proof.
  intros r. split.
  - intros Hno. unfold r, uploadPhotos. by rewrite Hno.
  - intros text Hex Hrd Hall.
    destruct (discovered_reads h listFile text Hex Hrd Hall) as [allFiles Hd].
    split; [by apply uploadPhotos_warnings with allFiles|].
    intros Hhash path Hli Hfr.
    destruct (hashed_hashes h st allFiles) as [pending Hh].
    { intros f Hf. apply Hhash.
      by apply (discovered_files h listFile allFiles). }
    by apply uploadPhotos_calls_listed with allFiles pending.
Qed.

Lemma example_listed : listed_image example_host "list.txt" "a/3.png".
Proof.
  exists ("a" ++ newline ++ "b" ++ newline), "a",
    ["2.JPG"; "1.jpg"; "notes.txt"; "3.png"], "3.png".
  split; [reflexivity|]. split.
  - apply (list_elem_of_lookup_2 _ 0). vm_compute. reflexivity.
  - split; [reflexivity|]. split; [reflexivity|]. split.
    + apply (list_elem_of_lookup_2 _ 3). reflexivity.
    + split; reflexivity.
Qed.

Lemma discovery_errors_witness :
  let r := uploadPhotos example_host "list.txt" [] ∅ ∅ in
  uploadPhotos example_host "missing.txt" [] ∅ ∅
  = (Rejected "❌ Folder list file not found",
     {| store := ∅; assets := ∅; completed := 0; failed := []; log := [] |})
  /\ warnings (log r.2)
     = List.filter (fun d => negb (existsSync example_host d))
         (folders_of example_host ("a" ++ newline ++ "b" ++ newline))
  /\ exists it, Called it ∈ log r.2 /\ q_filePath it = "a/3.png".
Proof.
  pose (readable := fun (dir : string)
    (_ : dir ∈ folders_of example_host ("a" ++ newline ++ "b" ++ newline))
    (_ : existsSync example_host dir = true) =>
    ex_intro (fun names => readdirSync example_host dir = Ok names)
      ["2.JPG"; "1.jpg"; "notes.txt"; "3.png"] eq_refl).
  pose (hashable := fun (path : string)
    (_ : listed_image example_host "list.txt" path) =>
    ex_intro (fun hs => hashFile example_host path = Ok hs)
      ("sha1:" ++ path) eq_refl).
  split; [|split].
  - exact (proj1 (discovery_errors example_host "missing.txt" [] ∅ ∅) eq_refl).
  - exact (proj1 (proj2 (discovery_errors example_host "list.txt" [] ∅ ∅)
                    _ eq_refl eq_refl readable)).
  - exact (proj2 (proj2 (discovery_errors example_host "list.txt" [] ∅ ∅)
                    _ eq_refl eq_refl readable)
             hashable "a/3.png" example_listed eq_refl).
Defined.

(** The folder [b] of the example is missing: the run warns about it and
    uploads the pictures of [a]. *)
Example discovery_run :
  let r := uploadPhotos example_host "list.txt" [] ∅ ∅ in
  r.1 = Resolved /\ warnings (log r.2) = ["b"]
  /\ q_filePath <$> called_items (log r.2) = ["a/1.jpg"; "a/2.JPG"; "a/3.png"].
Proof. vm_compute. auto. Qed.
